(** * bugsink: the envelope parser, release epochs and event digestion

    A shallow embedding of
    - [src/ingest/parsers.py]  (module [Parsers]),
    - [src/releases/models.py] (module [Releases]),
    - [src/ingest/views.py]    (module [Views]),
    - [src/theme/templatetags/issues.py] (module [Templatetags]),
    followed by the properties proved about them. *)

From Stdlib Require Import ZArith List Bool Lia String.
From Stdlib Require Import Strings.Byte.
From Stdlib Require Import Sorting.Sorted.
From Stdlib Require Import Sorting.Permutation.
Import ListNotations.
Local Open Scope string_scope.
Local Open Scope list_scope.
Local Open Scope Z_scope.

(** ** Python values shared by the modules *)

Definition bytes := list byte.

(** [len(b)] as a Python integer. *)
Definition len {A : Type} (l : list A) : Z := Z.of_nat (List.length l).

(** The exceptions the embedded code raises or lets through. *)
Inductive exn : Type :=
| ParseError (msg : string)
| AssertionError
| TypeError
| KeyError
| UnicodeDecodeError
| ViolatedExpectation (msg : string)
| ValidationError (msg code : string)
| DoesNotExist
| MultipleObjectsReturned
| AttributeError
| IntegrityError.

(** What running a piece of Python gives: a value, an exception, or (for the
    loops that are run on fuel) an exhausted budget. *)
Inductive outcome (A : Type) : Type :=
| Return (a : A)
| Raise (e : exn)
| OutOfFuel.
Arguments Return {A} a.
Arguments Raise {A} e.
Arguments OutOfFuel {A}.

Definition bind {A B : Type} (m : outcome A) (k : A -> outcome B) : outcome B :=
  match m with
  | Return a => k a
  | Raise e => Raise e
  | OutOfFuel => OutOfFuel
  end.

Notation "x <- m ;; k" := (bind m (fun x => k))
  (at level 61, m at next level, right associativity).
Notation "' p <- m ;; k" := (bind m (fun p => k))
  (at level 61, p pattern, m at next level, right associativity).

(** The value [json.loads] builds.  Numbers are the integers ([int]); a header
    whose value is a floating-point number is outside this development. *)
#[local] Unset Elimination Schemes.
Inductive json : Type :=
| JNull
| JBool (b : bool)
| JNum (n : Z)
| JStr (s : string)
| JArr (items : list json)
| JObj (members : list (string * json)).
#[local] Set Elimination Schemes.

(** [json.loads(value.decode("utf-8"))]: the decoded value, or one of the two
    exceptions the standard library raises. *)
Inductive loads_result : Type :=
| Decoded (v : json)
| JSONDecodeError
| NotUtf8.

(** A value or an exception, for code that runs without fuel. *)
Inductive result (A : Type) : Type :=
| Ok (a : A)
| Err (e : exn).
Arguments Ok {A} a.
Arguments Err {A} e.

(** The exceptions above, and three more that only the release ordering and
    the template filters meet: the [ValueError] of a string that cannot be
    parsed or of an unpacking, and the [IndexError] of an index that has
    nothing to take. *)
Inductive raised : Type :=
| Exn (e : exn)
| ValueError
| IndexError.

(** A value or one of these exceptions. *)
Inductive answer (A : Type) : Type :=
| Gives (a : A)
| Raises (e : raised).
Arguments Gives {A} a.
Arguments Raises {A} e.

Definition and_then {A B : Type} (m : answer A) (k : A -> answer B) : answer B :=
  match m with
  | Gives a => k a
  | Raises e => Raises e
  end.

Declare Scope answer_scope.
Delimit Scope answer_scope with answer.
Notation "x <- m ;; k" := (and_then m (fun x => k))
  (at level 61, m at next level, right associativity) : answer_scope.
Notation "' p <- m ;; k" := (and_then m (fun p => k))
  (at level 61, p pattern, m at next level, right associativity) : answer_scope.

Module Parsers.

(** *** Byte strings: [find], slices, streams *)

Definition newline : byte := x0a.

(** [chunk.find(b)]: lowest index of [b], or [-1]. *)
Fixpoint find (chunk : bytes) (b : byte) : Z :=
  match chunk with
  | [] => -1
  | c :: rest =>
      if Byte.eqb c b then 0
      else let i := find rest b in if i =? -1 then -1 else i + 1
  end.

(** A slice bound as Python clamps it: a negative bound counts from the end. *)
Definition slice_bound (n : Z) (size : nat) : nat :=
  if n <? 0 then Z.to_nat (Z.max 0 (Z.of_nat size + n)) else Z.to_nat n.

(** [chunk[:n]] and [chunk[n:]]. *)
Definition slice_to (chunk : bytes) (n : Z) : bytes :=
  firstn (slice_bound n (List.length chunk)) chunk.
Definition slice_from (chunk : bytes) (n : Z) : bytes :=
  skipn (slice_bound n (List.length chunk)) chunk.

(** [input_stream.read(size)] on an in-memory stream: the bytes read and the
    stream that is left; a negative size reads everything. *)
Definition read (input_stream : bytes) (size : Z) : bytes * bytes :=
  if size <? 0 then (input_stream, [])
  else (firstn (Z.to_nat size) input_stream, skipn (Z.to_nat size) input_stream).

(** [output_stream.write(data)] on an [io.BytesIO]. *)
Definition write (output_stream data : bytes) : bytes := output_stream ++ data.

(** *** The finders *)

(** The integer a Python value is in arithmetic and as a slice bound: an
    [int], or a [bool] (a subclass of [int]); [None] for what raises
    [TypeError] there. *)
Definition as_int (v : json) : option Z :=
  match v with
  | JNum n => Some n
  | JBool b => Some (if b then 1 else 0)
  | _ => None
  end.

Inductive Finder : Type :=
| NewlineFinder
| LengthFinder (length : json) (error_for_eof : option string) (count : Z).

Definition error_for_eof (finder : Finder) : option string :=
  match finder with
  | NewlineFinder => None
  | LengthFinder _ e _ => e
  end.

(** [finder.process(output_stream, chunk)]: the finder and the output stream
    as the call leaves them, and the pair [(done, remainder)] it returns. *)
Definition process (finder : Finder) (output_stream chunk : bytes)
  : outcome (Finder * bytes * (bool * bytes)) :=
  match finder with
  | NewlineFinder =>
      let index := find chunk newline in
      if negb (index =? -1) then
        let part_of_result := slice_to chunk index in
        let remainder := slice_from chunk (index + 1) in
        Return (NewlineFinder, write output_stream part_of_result, (true, remainder))
      else
        Return (NewlineFinder, write output_stream chunk, (false, []))
  | LengthFinder length e count =>
      match as_int length with
      | None => Raise TypeError
      | Some l =>
          let needed := l - count in
          if needed <=? len chunk then
            let part_of_result := slice_to chunk needed in
            let remainder := slice_from chunk needed in
            Return (finder, write output_stream part_of_result, (true, remainder))
          else
            Return (LengthFinder length e (count + len chunk),
                    write output_stream chunk, (false, []))
      end
  end.

(** *** readuntil *)

(** The [while not done] loop of [readuntil]; every round that goes on has
    read at least one byte, so the length of the stream bounds the rounds. *)
Fixpoint readuntil_loop (fuel : nat) (input_stream : bytes) (finder : Finder)
    (output_stream : bytes) (chunk_size : Z)
  : outcome (bytes * bytes * (bytes * bool)) :=
  match fuel with
  | O => OutOfFuel
  | S fuel' =>
      let (chunk, input_stream') := read input_stream chunk_size in
      match chunk with
      | [] =>
          match error_for_eof finder with
          | None => Return (input_stream', output_stream, ([], true))
          | Some msg => Raise (ParseError msg)
          end
      | _ :: _ =>
          '(finder', output_stream', (done, remainder)) <-
             process finder output_stream chunk ;;
          if (done : bool) then
            Return (input_stream', output_stream', (remainder, false))
          else readuntil_loop fuel' input_stream' finder' output_stream' chunk_size
      end
  end.

(** [readuntil(input_stream, initial_chunk, finder, output_stream, chunk_size)]:
    the stream and the output as the call leaves them, and the pair
    [(remainder, at_eof)] it returns. *)
Definition readuntil (input_stream initial_chunk : bytes) (finder : Finder)
    (output_stream : bytes) (chunk_size : Z)
  : outcome (bytes * bytes * (bytes * bool)) :=
  '(finder', output_stream', (done, remainder)) <-
     process finder output_stream initial_chunk ;;
  if (done : bool) then Return (input_stream, output_stream', (remainder, false))
  else readuntil_loop (S (List.length input_stream)) input_stream finder'
         output_stream' chunk_size.

(** *** StreamingEnvelopeParser *)

Record StreamingEnvelopeParser : Type := {
  input_stream : bytes;       (* what the stream has not handed out yet *)
  chunk_size : Z;
  remainder : bytes;
  at_eof : bool;
  envelope_headers : json;    (* [JNull] is Python's [None] *)
}.

(** [StreamingEnvelopeParser(input_stream, chunk_size)]. *)
Definition new (input_stream : bytes) (chunk_size : Z) : StreamingEnvelopeParser :=
  {| input_stream := input_stream; chunk_size := chunk_size;
     remainder := []; at_eof := false; envelope_headers := JNull |}.

Definition is_empty (b : bytes) : bool :=
  match b with [] => true | _ :: _ => false end.

(** [needle in headers] for a string [needle]: key membership in a dict,
    element membership in a list, substring test in a string; the other
    values are not containers. *)
Definition contains (headers : json) (needle : string) : outcome bool :=
  match headers with
  | JObj members => Return (existsb (fun kv => String.eqb (fst kv) needle) members)
  | JArr items =>
      Return (existsb (fun v => match v with
                                | JStr s => String.eqb s needle
                                | _ => false
                                end) items)
  | JStr s => Return (match String.index 0 needle s with Some _ => true | None => false end)
  | JNull | JBool _ | JNum _ => Raise TypeError
  end.

(** [headers[key]] for a string [key]: the value of the key in a dict; a
    list, a string and the other values cannot be indexed by a string. *)
Definition getitem (headers : json) (key : string) : outcome json :=
  match headers with
  | JObj members =>
      match List.find (fun kv => String.eqb (fst kv) key) members with
      | Some kv => Return (snd kv)
      | None => Raise KeyError
      end
  | _ => Raise TypeError
  end.

Section Parser.

(** [json.loads(b.decode("utf-8"))] of the standard library. *)
Variable json_loads : bytes -> loads_result.

(** The sinks are in-memory buffers: the factory gives the bytes a sink
    starts with ([io.BytesIO()] starts empty). *)
Variable output_stream_factory : json -> bytes.

Definition _parse_headers (self : StreamingEnvelopeParser) (eof_is_error : bool)
  : outcome (json * StreamingEnvelopeParser) :=
  let header_stream : bytes := [] in
  '(input_stream', header_stream, (remainder', at_eof')) <-
     readuntil (input_stream self) (remainder self) NewlineFinder header_stream
       (chunk_size self) ;;
  let self := {| input_stream := input_stream'; chunk_size := chunk_size self;
                 remainder := remainder'; at_eof := at_eof';
                 envelope_headers := envelope_headers self |} in
  let header_stream_value := header_stream in
  if (at_eof' : bool) && is_empty header_stream_value then Return (JNull, self)
  else if at_eof' && eof_is_error then
    Raise (ParseError "EOF when reading headers; what is this a header for then?")
  else
    match json_loads header_stream_value with
    | Decoded v => Return (v, self)
    | JSONDecodeError => Raise (ParseError "Header not JSON")
    | NotUtf8 => Raise UnicodeDecodeError
    end.

Definition is_None (v : json) : bool :=
  match v with JNull => true | _ => false end.

(** [get_envelope_headers]; the [assert] raises when the headers it has just
    parsed are [None]. *)
Definition get_envelope_headers (self : StreamingEnvelopeParser)
  : outcome (json * StreamingEnvelopeParser) :=
  if is_None (envelope_headers self) then
    '(headers, self) <- _parse_headers self false ;;
    let self := {| input_stream := input_stream self; chunk_size := chunk_size self;
                   remainder := remainder self; at_eof := at_eof self;
                   envelope_headers := headers |} in
    if is_None (envelope_headers self) then Raise AssertionError
    else Return (envelope_headers self, self)
  else Return (envelope_headers self, self).

Definition set_stream (self : StreamingEnvelopeParser)
    (input_stream' remainder' : bytes) (at_eof' : bool) : StreamingEnvelopeParser :=
  {| input_stream := input_stream'; chunk_size := chunk_size self;
     remainder := remainder'; at_eof := at_eof';
     envelope_headers := envelope_headers self |}.

(** One round of the [while not self.at_eof] loop of [get_items]: [None] when
    the round breaks out of the loop, the pair it yields otherwise. *)
Definition next_item (self : StreamingEnvelopeParser)
  : outcome (option (json * bytes) * StreamingEnvelopeParser) :=
  '(item_headers, self) <- _parse_headers self true ;;
  if is_None item_headers then
    Return (None, set_stream self (input_stream self) (remainder self) true)
  else
    has_length <- contains item_headers "length" ;;
    finder <- (if (has_length : bool) then
                 length <- getitem item_headers "length" ;;
                 Return (LengthFinder length
                           (Some "EOF while reading item with explicitly specified length") 0)
               else Return NewlineFinder) ;;
    let item_output_stream := output_stream_factory item_headers in
    '(input_stream', item_output_stream, (remainder', at_eof')) <-
       readuntil (input_stream self) (remainder self) finder item_output_stream
         (chunk_size self) ;;
    let self := set_stream self input_stream' remainder' at_eof' in
    has_length <- contains item_headers "length" ;;
    self <- (if (has_length : bool) then
               '(input_stream', _, (remainder', at_eof')) <-
                  readuntil (input_stream self) (remainder self) NewlineFinder []
                    (chunk_size self) ;;
               Return (set_stream self input_stream' remainder' at_eof')
             else Return self) ;;
    Return (Some (item_headers, item_output_stream), self).

(** The loop of [get_items], drained: the pairs it yields, in order, and how
    the generator ends ([Return]: it is exhausted). *)
Fixpoint get_items_loop (fuel : nat) (self : StreamingEnvelopeParser)
  : list (json * bytes) * outcome StreamingEnvelopeParser :=
  if at_eof self then ([], Return self)
  else
    match fuel with
    | O => ([], OutOfFuel)
    | S fuel' =>
        match next_item self with
        | Return (None, self') => ([], Return self')
        | Return (Some item, self') =>
            let (items, ending) := get_items_loop fuel' self' in
            (item :: items, ending)
        | Raise e => ([], Raise e)
        | OutOfFuel => ([], OutOfFuel)
        end
    end.

(** Every round that yields has consumed the newline that ends its header, so
    the bytes not yet consumed bound the rounds. *)
Definition get_items (self : StreamingEnvelopeParser)
  : list (json * bytes) * outcome StreamingEnvelopeParser :=
  match get_envelope_headers self with
  | Return (_, self) =>
      get_items_loop (S (List.length (remainder self ++ input_stream self))) self
  | Raise e => ([], Raise e)
  | OutOfFuel => ([], OutOfFuel)
  end.

End Parser.

(** [get_items_directly]: every sink is a fresh [io.BytesIO()], and the pairs
    carry the sinks' values. *)
Definition get_items_directly (json_loads : bytes -> loads_result)
    (self : StreamingEnvelopeParser)
  : list (json * bytes) * outcome StreamingEnvelopeParser :=
  get_items json_loads (fun _ => []) self.

(** How a generator ended, without the parser it leaves. *)
Definition how_it_ended {A : Type} (o : outcome A) : outcome unit :=
  match o with
  | Return _ => Return tt
  | Raise e => Raise e
  | OutOfFuel => OutOfFuel
  end.

(** What a caller sees of one parse of [input]: the envelope headers (or the
    exception), the pairs the items generator yields, and how it ends. *)
Definition parse (json_loads : bytes -> loads_result) (input : bytes) (chunk_size : Z)
  : outcome json * (list (json * bytes) * outcome unit) :=
  let parser := new input chunk_size in
  let (items, ending) := get_items_directly json_loads parser in
  (v <- get_envelope_headers json_loads parser ;; Return (fst v),
   (items, how_it_ended ending)).

End Parsers.

(** ** [src/releases/models.py] *)

Module Releases.

(** A timestamp, in whatever unit the clock counts. *)
Definition datetime := Z.

(** A [Release] object.  [is_semver] and [sort_epoch] have no default: they
    are [None] until the object or its maker sets them. *)
Record Release : Type := {
  id : Z;
  project : option Z;
  version : string;
  date_released : datetime;
  is_semver : option bool;
  sort_epoch : option Z;
}.

(** A row of the table of releases: every column holds a value. *)
Record Row : Type := {
  row_id : Z;
  row_project : option Z;
  row_version : string;
  row_date_released : datetime;
  row_is_semver : bool;
  row_sort_epoch : Z;
}.

Definition same_project (x y : option Z) : bool :=
  match x, y with
  | Some a, Some b => a =? b
  | None, None => true
  | _, _ => false
  end.

(** [Release.objects.filter(project=project)]. *)
Definition filter_project (project : option Z) (objects : list Row) : list Row :=
  filter (fun r => same_project (row_project r) project) objects.

Definition with_epoch (self : Release) (semver : bool) (epoch : Z) : Release :=
  {| id := id self; project := project self; version := version self;
     date_released := date_released self;
     is_semver := Some semver; sort_epoch := Some epoch |}.

Definition to_row (self : Release) (semver : bool) (epoch : Z) : Row :=
  {| row_id := id self; row_project := project self; row_version := version self;
     row_date_released := date_released self;
     row_is_semver := semver; row_sort_epoch := epoch |}.

(** [unique_together = ("project", "version")]: another row of the same
    project (a project that is set) has the same version. *)
Definition breaks_unique_together (row : Row) (objects : list Row) : bool :=
  existsb (fun r =>
             negb (row_id r =? row_id row)
             && match row_project r, row_project row with
                | Some a, Some b => (a =? b) && String.eqb (row_version r) (row_version row)
                | _, _ => false
                end) objects.

(** [models.Model.save]: a column without a value, or a second row for one
    (project, version), is refused; a row with the object's id is replaced,
    and the object is appended as a new row otherwise. *)
Definition super_save (self : Release) (objects : list Row) : result (list Row) :=
  match is_semver self, sort_epoch self with
  | Some semver, Some epoch =>
      let row := to_row self semver epoch in
      if breaks_unique_together row objects then Err IntegrityError
      else if existsb (fun r => row_id r =? row_id row) objects then
        Ok (map (fun r => if row_id r =? row_id row then row else r) objects)
      else Ok (objects ++ [row])
  | _, _ => Err IntegrityError
  end.

Section Release.

(** [semver.version.Version] and its [parse], which raises [ValueError]
    ([None]) on a string that is no semantic version. *)
Variable Version : Type.
Variable Version_parse : string -> option Version.

(** [queryset.order_by("sort_epoch").last()]: [None] on an empty queryset,
    and otherwise a row with the highest [sort_epoch]; which one among equals
    is the database's choice. *)
Variable order_by_sort_epoch_last : list Row -> option Row.

Definition is_valid_semver (version : string) : bool :=
  match Version_parse version with
  | Some _ => true
  | None => false
  end.

(** [Release.save]: the object and the table as the call leaves them. *)
Definition save (self : Release) (objects : list Row) : result (Release * list Row) :=
  let self :=
    match is_semver self with
    | None =>
        let semver := is_valid_semver (version self) in
        let any_release_from_last_epoch :=
          order_by_sort_epoch_last (filter_project (project self) objects) in
        match any_release_from_last_epoch with
        | None => with_epoch self semver 0
        | Some last =>
            if Bool.eqb semver (row_is_semver last)
            then with_epoch self semver (row_sort_epoch last)
            else with_epoch self semver (row_sort_epoch last + 1)
        end
    | Some _ => self
    end in
  match super_save self objects with
  | Ok objects' => Ok (self, objects')
  | Err e => Err e
  end.

(** [sort_key(release)], for a release of the table: the sort epoch, and with
    it the parsed version of a release that is a semantic version, the date
    of a release that is not.  [None] stands for the [ValueError] of
    [Version.parse]. *)
Definition sort_key (release : Row) : option (Z * (Version + datetime)) :=
  if row_is_semver release then
    match Version_parse (row_version release) with
    | Some v => Some (row_sort_epoch release, inl v)
    | None => None
    end
  else Some (row_sort_epoch release, inr (row_date_released release)).

(** The column [is_semver] holds what [is_valid_semver] says of the
    version. *)
Definition semver_is_computed (objects : list Row) : Prop :=
  forall r, In r objects -> row_is_semver r = is_valid_semver (row_version r).

End Release.

(** The releases of one project in one sort epoch are semantic versions all,
    or none of them is. *)
Definition epochs_are_uniform (objects : list Row) : Prop :=
  forall r1 r2,
    In r1 objects -> In r2 objects ->
    same_project (row_project r1) (row_project r2) = true ->
    row_sort_epoch r1 = row_sort_epoch r2 ->
    row_is_semver r1 = row_is_semver r2.

(** The sort epochs of a project start at 0 and leave no gap, and from one
    epoch to the next the releases change between semantic versions and
    others: a release in an epoch above 0 has a release of its project in
    the epoch below, of the other kind. *)
Definition epochs_alternate (objects : list Row) : Prop :=
  forall r,
    In r objects ->
    0 <= row_sort_epoch r /\
    (0 < row_sort_epoch r ->
     exists r',
       In r' objects /\
       same_project (row_project r') (row_project r) = true /\
       row_sort_epoch r' = row_sort_epoch r - 1 /\
       row_is_semver r' = negb (row_is_semver r)).

Section Ordered.

Variable Version : Type.
Variable Version_parse : string -> option Version.

(** [v1 == v2] and [v1 < v2] on two versions, as semver defines them. *)
Variable Version_eqb : Version -> Version -> bool.
Variable Version_ltb : Version -> Version -> bool.

(** [k1 < k2] on two sort keys, as Python compares tuples: the first items
    decide when they differ; when they are equal the second items decide,
    and a version and a date cannot be compared ([None]: [TypeError]). *)
Definition key_lt (k1 k2 : Z * (Version + datetime)) : option bool :=
  if negb (fst k1 =? fst k2) then Some (fst k1 <? fst k2)
  else
    match snd k1, snd k2 with
    | inl v1, inl v2 => Some (if Version_eqb v1 v2 then false else Version_ltb v1 v2)
    | inr d1, inr d2 => Some (d1 <? d2)
    | _, _ => None
    end.

(** The releases with their keys, which [sorted] computes first, in the
    order of the releases. *)
Fixpoint keyed (releases : list Row)
  : answer (list (Z * (Version + datetime) * Row)) :=
  match releases with
  | [] => Gives []
  | release :: rest =>
      match sort_key Version Version_parse release with
      | Some k =>
          match keyed rest with
          | Gives keys => Gives ((k, release) :: keys)
          | Raises e => Raises e
          end
      | None => Raises ValueError
      end
  end.

(** Whether every two of the keys can be compared. *)
Fixpoint all_comparable (keys : list (Z * (Version + datetime))) : bool :=
  match keys with
  | [] => true
  | k :: rest =>
      forallb (fun k' => match key_lt k k' with Some _ => true | None => false end) rest
      && all_comparable rest
  end.

(** A release is put before the first of the sorted ones that is not less
    than it: the sort is stable. *)
Fixpoint insert (x : Z * (Version + datetime) * Row)
    (sorted : list (Z * (Version + datetime) * Row))
  : list (Z * (Version + datetime) * Row) :=
  match sorted with
  | [] => [x]
  | y :: rest =>
      match key_lt (fst y) (fst x) with
      | Some true => y :: insert x rest
      | _ => x :: y :: rest
      end
  end.

(** [sorted(releases, key=sort_key)].  The keys are computed first.  A sort
    has to settle the order of every two keys; two keys of one epoch, one
    with a version and one with a date, can be told apart by comparing a
    version with a date only, so that [sorted] raises [TypeError] when there
    are two such keys, and only then.  With keys that can all be compared
    the result is that of a stable sort. *)
Definition sorted_by_sort_key (releases : list Row) : answer (list Row) :=
  match keyed releases with
  | Gives keys =>
      if all_comparable (map fst keys)
      then Gives (map snd (fold_right insert [] keys))
      else Raises (Exn TypeError)
  | Raises e => Raises e
  end.

(** [ordered_releases], called with filter arguments that keep the releases
    that [keep] holds of. *)
Definition ordered_releases (keep : Row -> bool) (objects : list Row)
  : answer (list Row) :=
  let releases := filter keep objects in
  sorted_by_sort_key releases.

End Ordered.

(** One database's choice: the row with the highest [sort_epoch] that comes
    last in the table. *)
Definition last_of_highest_epoch (rows : list Row) : option Row :=
  fold_left (fun best r =>
               match best with
               | None => Some r
               | Some b => if row_sort_epoch b <=? row_sort_epoch r then Some r else Some b
               end) rows None.

(** The sort epochs of a project's releases, in the order of the table, which
    is the order of creation. *)
Definition epochs (project : option Z) (objects : list Row) : list Z :=
  map row_sort_epoch (filter_project project objects).

Definition epochs_never_decrease (objects : list Row) : Prop :=
  forall project, StronglySorted Z.le (epochs project objects).

(** What the claims need of [order_by("sort_epoch").last()]. *)
Definition picks_a_highest (pick : list Row -> option Row) : Prop :=
  (forall rows, pick rows = None -> rows = []) /\
  (forall rows last, pick rows = Some last ->
     In last rows /\ forall r, In r rows -> row_sort_epoch r <= row_sort_epoch last).

End Releases.

(** ** [src/ingest/views.py] *)

Module Views.

Definition datetime := Z.

(** *** The models, as the views use them *)

Record Project : Type := {
  project_id : Z;
  digested_event_count : Z;
  next_quota_check : Z;
  quota_exceeded_until : option datetime;
  alert_on_new_issue : bool;
  alert_on_regression : bool;
}.

Record Issue : Type := {
  issue_id : Z;
  issue_project_id : Z;
  digest_order : Z;
  first_seen : datetime;
  last_seen : datetime;
  issue_digested_event_count : Z;
  is_muted : bool;
  unmute_after : option datetime;
  next_unmute_check : Z;
  events_at : string;
  denormalized_fields : list (string * json);
  (* what the views leave to IssueStateManager and to the regression check:
     the state of resolution, the volume-based conditions *)
  issue_state : json;
}.

Record Grouping : Type := {
  grouping_project_id : Z;
  grouping_key : string;
  grouping_issue_id : Z;
}.

Record Event : Type := {
  event_pk : Z;
  event_id : string;            (* the identifier the caller supplies *)
  event_project_id : Z;
  event_issue_id : Z;
  release : string;
  event_timestamp : datetime;
  event_digest_order : Z;
  event_stored_order : Z;
  never_evict : bool;
  event_data : json;
}.

Inductive TurningPointKind : Type := FIRST_SEEN | REGRESSED | UNMUTED.

Record TurningPoint : Type := {
  tp_issue_id : Z;
  tp_triggering_event : Z;
  tp_timestamp : datetime;
  tp_kind : TurningPointKind;
  tp_metadata : json;
}.

(** A call deferred to the commit of the transaction. *)
Inductive Alert : Type :=
| send_new_issue_alert (issue_id : Z)
| send_regression_alert (issue_id : Z)
| send_unmute_alert (issue_id : Z) (reason : json).

(** The database, and the calls that wait for the commit. *)
Record DB : Type := {
  projects : list Project;
  issues : list Issue;
  groupings : list Grouping;
  events : list Event;
  turning_points : list TurningPoint;
  releases : list Releases.Row;
  on_commit : list Alert;
}.

(** *** Code that runs inside the transaction

    A computation reads and writes the database and ends with a value or
    with an exception; the database it leaves is the one at that point. *)

Definition tx (A : Type) : Type := DB -> result A * DB.

Definition ret {A : Type} (a : A) : tx A := fun db => (Ok a, db).

Definition raise {A : Type} (e : exn) : tx A := fun db => (Err e, db).

Definition tx_bind {A B : Type} (m : tx A) (k : A -> tx B) : tx B :=
  fun db =>
    match m db with
    | (Ok a, db') => k a db'
    | (Err e, db') => (Err e, db')
    end.

Definition get : tx DB := fun db => (Ok db, db).

Definition modify (f : DB -> DB) : tx unit := fun db => (Ok tt, f db).

Declare Scope tx_scope.
Delimit Scope tx_scope with tx.
Notation "x <- m ;; k" := (tx_bind m (fun x => k))
  (at level 61, m at next level, right associativity) : tx_scope.
Notation "' p <- m ;; k" := (tx_bind m (fun p => k))
  (at level 61, p pattern, m at next level, right associativity) : tx_scope.
Notation "m ;;; k" := (tx_bind m (fun _ => k))
  (at level 61, right associativity) : tx_scope.
Local Open Scope tx_scope.

(** Modelled from the spec: the decorator [immediate_atomic] of
    [bugsink.transaction], which is not in the sources.  "Any step failing
    inside the transaction rolls back all mutations"; the calls deferred to
    the commit go with them. *)
Definition immediate_atomic {A : Type} (body : tx A) : tx A :=
  fun db =>
    match body db with
    | (Ok a, db') => (Ok a, db')
    | (Err e, _) => (Err e, db)
    end.

(** *** Thresholds *)

(** [(period, nr_of_periods, gte_threshold, metadata)]. *)
Definition threshold : Type := string * Z * Z * json.

(** [(state, below_from, check_after, metadata)] of one threshold;
    [below_from] is read for a threshold that is triggered only. *)
Definition threshold_state : Type := bool * datetime * Z * json.

(** [max(values, default=None)]. *)
Definition max_or_None (values : list Z) : option Z :=
  match values with
  | [] => None
  | v :: rest => Some (fold_left Z.max rest v)
  end.

(** [min(values, default=default)]. *)
Definition min_or (default : Z) (values : list Z) : Z :=
  match values with
  | [] => default
  | v :: rest => fold_left Z.min rest v
  end.

(** *** What the views import *)

Record Collaborators : Type := {
  (* bugsink.app_settings.get_settings() *)
  MAX_EVENTS_PER_PROJECT_PER_5_MINUTES : Z;
  MAX_EVENTS_PER_PROJECT_PER_HOUR : Z;
  (* compat.timestamp, django.utils.timezone *)
  parse_timestamp : string -> datetime;
  timezone_now : datetime;
  (* issues.utils *)
  get_denormalized_fields_for_data : json -> list (string * json);
  get_type_and_value_for_data : json -> string * string;
  get_issue_grouper_for_data : json -> string -> string -> string;
  (* events.retention *)
  should_evict : Project -> datetime -> Z -> DB -> bool;
  evict_for_max_events : Project -> datetime -> Z -> DB -> DB;
  (* issues.regressions *)
  issue_is_regression : Issue -> string -> DB -> bool;
  (* issues.models: what a new Issue holds in the fields that belong to
     IssueStateManager *)
  new_issue_state : json;
  (* issues.models.IssueStateManager; [unmute] gets the issue, the triggering
     event and the metadata, and may change both objects and the database *)
  reopen : Issue -> Issue;
  unmute : Issue -> Event -> json -> DB -> Issue * Event * DB;
  get_unmute_thresholds : Issue -> list threshold;
  (* ingest.event_counter; the last argument is add_for_current, when given *)
  check_for_thresholds :
    list Event -> datetime -> list threshold -> option Z -> list threshold_state;
  (* what the constructor of an Event reads in the data *)
  data_event_id : json -> string;
  data_release : json -> string;
  (* semver, and the database's choice among releases of one sort epoch *)
  Version : Type;
  Version_parse : string -> option Version;
  order_by_sort_epoch_last : list Releases.Row -> option Releases.Row;
}.

(** *** The tables *)

Definition set_projects (db : DB) (v : list Project) : DB :=
  {| projects := v; issues := issues db; groupings := groupings db;
     events := events db; turning_points := turning_points db;
     releases := releases db; on_commit := on_commit db |}.
Definition set_issues (db : DB) (v : list Issue) : DB :=
  {| projects := projects db; issues := v; groupings := groupings db;
     events := events db; turning_points := turning_points db;
     releases := releases db; on_commit := on_commit db |}.
Definition set_groupings (db : DB) (v : list Grouping) : DB :=
  {| projects := projects db; issues := issues db; groupings := v;
     events := events db; turning_points := turning_points db;
     releases := releases db; on_commit := on_commit db |}.
Definition set_events (db : DB) (v : list Event) : DB :=
  {| projects := projects db; issues := issues db; groupings := groupings db;
     events := v; turning_points := turning_points db;
     releases := releases db; on_commit := on_commit db |}.
Definition set_turning_points (db : DB) (v : list TurningPoint) : DB :=
  {| projects := projects db; issues := issues db; groupings := groupings db;
     events := events db; turning_points := v;
     releases := releases db; on_commit := on_commit db |}.
Definition set_releases (db : DB) (v : list Releases.Row) : DB :=
  {| projects := projects db; issues := issues db; groupings := groupings db;
     events := events db; turning_points := turning_points db;
     releases := v; on_commit := on_commit db |}.
Definition set_on_commit (db : DB) (v : list Alert) : DB :=
  {| projects := projects db; issues := issues db; groupings := groupings db;
     events := events db; turning_points := turning_points db;
     releases := releases db; on_commit := v |}.

(** A primary key no row of the table has (the models draw a [uuid4]). *)
Definition fresh_id (ids : list Z) : Z := 1 + fold_left Z.max ids 0.

(** [obj.save()]: the row of the same key is replaced, or the object becomes
    a new row. *)
Definition save_row {A : Type} (same : A -> bool) (row : A) (rows : list A) : list A :=
  if existsb same rows then map (fun r => if same r then row else r) rows
  else rows ++ [row].

Definition Project_get (pk : Z) : tx Project :=
  db <- get ;;
  match List.find (fun p => project_id p =? pk) (projects db) with
  | Some p => ret p
  | None => raise DoesNotExist
  end.

Definition Project_save (project : Project) : tx unit :=
  modify (fun db =>
    set_projects db
      (save_row (fun p => project_id p =? project_id project) project (projects db))).

Definition Issue_save (issue : Issue) : tx unit :=
  modify (fun db =>
    set_issues db (save_row (fun i => issue_id i =? issue_id issue) issue (issues db))).

(** [issue.delete()]: the row of the issue goes; what goes with it is a
    matter of the models' [on_delete], which are not in the sources. *)
Definition Issue_delete (issue : Issue) : tx unit :=
  modify (fun db =>
    set_issues db (filter (fun i => negb (issue_id i =? issue_id issue)) (issues db))).

Definition Event_save (event : Event) : tx unit :=
  modify (fun db =>
    set_events db (save_row (fun e => event_pk e =? event_pk event) event (events db))).

Definition TurningPoint_create (issue : Issue) (triggering_event : Event)
    (timestamp : datetime) (kind : TurningPointKind) : tx unit :=
  modify (fun db =>
    set_turning_points db
      (turning_points db ++
       [{| tp_issue_id := issue_id issue; tp_triggering_event := event_pk triggering_event;
           tp_timestamp := timestamp; tp_kind := kind; tp_metadata := JNull |}])).

(** [delay_on_commit(alert, str(issue.id))]. *)
Definition delay_on_commit (alert : Alert) : tx unit :=
  modify (fun db => set_on_commit db (on_commit db ++ [alert])).

(** [Event.objects.filter(project=project)] and [filter(issue=issue)]. *)
Definition events_of_project (project : Project) (db : DB) : list Event :=
  filter (fun e => event_project_id e =? project_id project) (events db).
Definition events_of_issue (issue : Issue) (db : DB) : list Event :=
  filter (fun e => event_issue_id e =? issue_id issue) (events db).

(** The string of one newline. *)
Definition LF : string := String (Ascii.ascii_of_nat 10) EmptyString.

(** [needle in text] for two strings. *)
Definition str_contains (text needle : string) : bool :=
  match String.index 0 needle text with Some _ => true | None => false end.

(** [fields[key] = value] on a dict. *)
Definition setitem (fields : list (string * json)) (key : string) (value : json)
  : list (string * json) :=
  save_row (fun kv => String.eqb (fst kv) key) (key, value) fields.

Record EventMetadata : Type := {
  md_project_id : Z;
  md_timestamp : string;
  md_debug_info : string;
}.

Section Digest.

Variable env : Collaborators.

(** Modelled from the spec: [Event.from_ingested] of [events.models], which
    is not in the sources.  "Create the Event keyed by its caller-supplied
    identifier; if an Event with that identifier already exists, no new Event
    is created", the uniqueness being "enforced by the storage layer's
    uniqueness constraint"; the constraint is taken per project, the scope in
    which a duplicate can meet a new issue. *)
Definition Event_from_ingested (event_metadata : EventMetadata)
    (digested_event_count stored_event_count : Z) (issue : Issue)
    (parsed_data : json) (denormalized_fields : list (string * json))
  : tx (option Event * bool) :=
  db <- get ;;
  let identifier := data_event_id env parsed_data in
  if existsb (fun e => (event_project_id e =? md_project_id event_metadata)
                       && String.eqb (event_id e) identifier) (events db)
  then ret (None, false)
  else
    let event :=
      {| event_pk := fresh_id (map event_pk (events db));
         event_id := identifier;
         event_project_id := md_project_id event_metadata;
         event_issue_id := issue_id issue;
         release := data_release env parsed_data;
         event_timestamp := parse_timestamp env (md_timestamp event_metadata);
         event_digest_order := digested_event_count;
         event_stored_order := stored_event_count;
         never_evict := false;
         event_data := parsed_data |} in
    modify (fun db => set_events db (events db ++ [event])) ;;;
    ret (Some event, true).

(** Modelled from the spec: [create_release_if_needed] of [releases.models],
    which is not in the sources.  "Look up or create the Release for
    (project, event.release)"; a release that is created is saved by
    [Release.save], for the first time. *)
Definition create_release_if_needed (project : Project) (version : string)
    (event : Event) : tx Releases.Row :=
  db <- get ;;
  match List.find (fun r => Releases.same_project (Releases.row_project r)
                              (Some (project_id project))
                            && String.eqb (Releases.row_version r) version)
          (releases db) with
  | Some r => ret r
  | None =>
      let self :=
        {| Releases.id := fresh_id (map Releases.row_id (releases db));
           Releases.project := Some (project_id project);
           Releases.version := version;
           Releases.date_released := timezone_now env;
           Releases.is_semver := None;
           Releases.sort_epoch := None |} in
      match Releases.save (Version env) (Version_parse env)
              (order_by_sort_epoch_last env) self (releases db) with
      | Ok (self, rows) =>
          match List.find (fun r => Releases.row_id r =? Releases.id self) rows with
          | Some r => modify (fun db => set_releases db rows) ;;; ret r
          | None => raise DoesNotExist
          end
      | Err e => raise e
      end
  end.

Definition over_quota (project : Project) (now : datetime) : bool :=
  match quota_exceeded_until project with
  | Some until => now <? until
  | None => false
  end.

Definition with_digested_event_count (project : Project) (count : Z) : Project :=
  {| project_id := project_id project; digested_event_count := count;
     next_quota_check := next_quota_check project;
     quota_exceeded_until := quota_exceeded_until project;
     alert_on_new_issue := alert_on_new_issue project;
     alert_on_regression := alert_on_regression project |}.

Definition with_quota (project : Project) (until : option datetime) (next_check : Z)
  : Project :=
  {| project_id := project_id project;
     digested_event_count := digested_event_count project;
     next_quota_check := next_check;
     quota_exceeded_until := until;
     alert_on_new_issue := alert_on_new_issue project;
     alert_on_regression := alert_on_regression project |}.

Definition is_triggered (s : threshold_state) : bool :=
  let '(state, _, _, _) := s in state.
Definition below_from (s : threshold_state) : datetime :=
  let '(_, below_from, _, _) := s in below_from.
Definition check_after (s : threshold_state) : Z :=
  let '(_, _, check_after, _) := s in check_after.
Definition metadata (s : threshold_state) : json :=
  let '(_, _, _, metadata) := s in metadata.

(** [count_project_periods_and_act_on_it(project, now)]: whether any further
    processing should be done, and the project object as the call leaves
    it. *)
Definition count_project_periods_and_act_on_it (project : Project) (now : datetime)
  : tx (bool * Project) :=
  let thresholds : list threshold :=
    [("minute", 5, MAX_EVENTS_PER_PROJECT_PER_5_MINUTES env, JNull);
     ("minute", 60, MAX_EVENTS_PER_PROJECT_PER_HOUR env, JNull)] in
  if over_quota project now then ret (false, project)
  else
    let project := with_digested_event_count project (digested_event_count project + 1) in
    project <-
      (if next_quota_check project <=? digested_event_count project then
         db <- get ;;
         let states :=
           check_for_thresholds env (events_of_project project db) now thresholds
             (Some 1) in
         let until := max_or_None (map below_from (filter is_triggered states)) in
         let check_again_after := Z.max 1 (min_or 1 (map check_after states)) in
         ret (with_quota project until
                (digested_event_count project + check_again_after))
       else ret project) ;;
    Project_save project ;;;
    ret (true, project).

Definition with_next_unmute_check (issue : Issue) (next_check : Z) : Issue :=
  {| issue_id := issue_id issue; issue_project_id := issue_project_id issue;
     digest_order := digest_order issue; first_seen := first_seen issue;
     last_seen := last_seen issue;
     issue_digested_event_count := issue_digested_event_count issue;
     is_muted := is_muted issue; unmute_after := unmute_after issue;
     next_unmute_check := next_check; events_at := events_at issue;
     denormalized_fields := denormalized_fields issue;
     issue_state := issue_state issue |}.

(** [IssueStateManager.unmute(issue, triggering_event=event,
    unmute_metadata=unmute_metadata)]. *)
Definition IssueStateManager_unmute (issue : Issue) (event : Event)
    (unmute_metadata : json) : tx (Issue * Event) :=
  fun db => let '(issue, event, db) := unmute env issue event unmute_metadata db in
            (Ok (issue, event), db).

(** The [for ... in states] loop of [count_issue_periods_and_act_on_it]: a
    state that is not triggered is passed over, and the loop is left after
    the first one that is. *)
Fixpoint unmute_for_states (states : list threshold_state) (issue : Issue)
    (event : Event) : tx (Issue * Event) :=
  match states with
  | [] => ret (issue, event)
  | (state, until, _, vbc_dict) :: rest =>
      if negb state then unmute_for_states rest issue event
      else IssueStateManager_unmute issue event (JObj [("mute_until", vbc_dict)])
  end.

Definition count_issue_periods_and_act_on_it (issue : Issue) (event : Event)
    (timestamp : datetime) : tx (Issue * Event) :=
  let thresholds := get_unmute_thresholds env issue in
  if negb (match thresholds with [] => true | _ :: _ => false end)
     && (next_unmute_check issue <=? issue_digested_event_count issue) then
    db <- get ;;
    let states :=
      check_for_thresholds env (events_of_issue issue db) timestamp thresholds None in
    let check_again_after := Z.max 1 (min_or 1 (map check_after states)) in
    let issue :=
      with_next_unmute_check issue (issue_digested_event_count issue + check_again_after) in
    unmute_for_states states issue event
  else ret (issue, event).

Definition seen_again (issue : Issue) (timestamp : datetime) : Issue :=
  {| issue_id := issue_id issue; issue_project_id := issue_project_id issue;
     digest_order := digest_order issue; first_seen := first_seen issue;
     last_seen := timestamp;
     issue_digested_event_count := issue_digested_event_count issue + 1;
     is_muted := is_muted issue; unmute_after := unmute_after issue;
     next_unmute_check := next_unmute_check issue; events_at := events_at issue;
     denormalized_fields := denormalized_fields issue;
     issue_state := issue_state issue |}.

Definition with_events_at (issue : Issue) (text : string) : Issue :=
  {| issue_id := issue_id issue; issue_project_id := issue_project_id issue;
     digest_order := digest_order issue; first_seen := first_seen issue;
     last_seen := last_seen issue;
     issue_digested_event_count := issue_digested_event_count issue;
     is_muted := is_muted issue; unmute_after := unmute_after issue;
     next_unmute_check := next_unmute_check issue; events_at := text;
     denormalized_fields := denormalized_fields issue;
     issue_state := issue_state issue |}.

Definition with_never_evict (event : Event) (flag : bool) : Event :=
  {| event_pk := event_pk event; event_id := event_id event;
     event_project_id := event_project_id event;
     event_issue_id := event_issue_id event; release := release event;
     event_timestamp := event_timestamp event;
     event_digest_order := event_digest_order event;
     event_stored_order := event_stored_order event;
     never_evict := flag; event_data := event_data event |}.

(** [queryset.get()]. *)
Definition get_one {A : Type} (rows : list A) : tx A :=
  match rows with
  | [row] => ret row
  | [] => raise DoesNotExist
  | _ :: _ :: _ => raise MultipleObjectsReturned
  end.

(** The issue of the event, and whether it was created for it: the [if not
    Grouping.objects.filter(...).exists()] of [digest_event] with its two
    branches.  A new issue starts unmuted, with no check of its unmute
    conditions behind it and no release seen; these defaults are the
    model's. *)
Definition find_or_create_issue (event_metadata : EventMetadata)
    (timestamp : datetime) (key : string)
    (fields : list (string * json)) : tx (Issue * bool) :=
  db <- get ;;
  let same_grouping (g : Grouping) :=
    (grouping_project_id g =? md_project_id event_metadata)
    && String.eqb (grouping_key g) key in
  if negb (existsb same_grouping (groupings db)) then
    let max_current :=
      max_or_None
        (map digest_order
           (filter (fun i => issue_project_id i =? md_project_id event_metadata)
              (issues db))) in
    let issue_digest_order :=
      match max_current with Some m => m + 1 | None => 1 end in
    let issue :=
      {| issue_id := fresh_id (map issue_id (issues db));
         issue_project_id := md_project_id event_metadata;
         digest_order := issue_digest_order;
         first_seen := timestamp; last_seen := timestamp;
         issue_digested_event_count := 1;
         is_muted := false; unmute_after := None; next_unmute_check := 0;
         events_at := "";
         denormalized_fields := fields;
         issue_state := new_issue_state env |} in
    modify (fun db => set_issues db (issues db ++ [issue])) ;;;
    let issue_created := true in
    modify (fun db =>
      set_groupings db
        (groupings db ++
         [{| grouping_project_id := md_project_id event_metadata;
             grouping_key := key; grouping_issue_id := issue_id issue |}])) ;;;
    ret (issue, issue_created)
  else
    grouping <- get_one (filter same_grouping (groupings db)) ;;
    issue <- get_one (filter (fun i => issue_id i =? grouping_issue_id grouping)
                        (issues db)) ;;
    let issue_created := false in
    ret (seen_again issue timestamp, issue_created).

(** What [digest_event] holds when it comes to create the event. *)
Record Digesting : Type := {
  dg_project : Project;
  dg_timestamp : datetime;
  dg_fields : list (string * json);
  dg_issue : Issue;
  dg_issue_created : bool;
  dg_issue_stored_event_count : Z;
}.

(** [digest_event] up to the creation of the event: the quota, the grouping,
    the eviction.  [None]: the project is over its quota, and the call
    returns. *)
Definition digest_until_event (event_metadata : EventMetadata) (event_data : json)
    (project : option Project) : tx (option Digesting) :=
  project <- match project with
             | None => Project_get (md_project_id event_metadata)
             | Some project => ret project
             end ;;
  let timestamp := parse_timestamp env (md_timestamp event_metadata) in
  '(go_on, project) <- count_project_periods_and_act_on_it project timestamp ;;
  if negb go_on then ret None
  else
    let fields := get_denormalized_fields_for_data env event_data in
    let '(calculated_type, calculated_value) :=
      get_type_and_value_for_data env event_data in
    let fields := setitem fields "calculated_type" (JStr calculated_type) in
    let fields := setitem fields "calculated_value" (JStr calculated_value) in
    let key :=
      get_issue_grouper_for_data env event_data calculated_type calculated_value in
    '(issue, issue_created) <-
       find_or_create_issue event_metadata timestamp key fields ;;
    db <- get ;;
    let project_stored_event_count := len (events_of_project project db) + 1 in
    let issue_stored_event_count := len (events_of_issue issue db) + 1 in
    (if should_evict env project timestamp project_stored_event_count db then
       modify (evict_for_max_events env project timestamp project_stored_event_count)
     else ret tt) ;;;
    ret (Some {| dg_project := project; dg_timestamp := timestamp;
                 dg_fields := fields; dg_issue := issue;
                 dg_issue_created := issue_created;
                 dg_issue_stored_event_count := issue_stored_event_count |}).

(** The turning points of [digest_event], for the event that was created. *)
Definition mark_turning_points (project : Project) (timestamp : datetime)
    (issue : Issue) (issue_created : bool) (event : Event) : tx (Issue * Event) :=
  if issue_created then
    TurningPoint_create issue event timestamp FIRST_SEEN ;;;
    let event := with_never_evict event true in
    (if alert_on_new_issue project
     then delay_on_commit (send_new_issue_alert (issue_id issue))
     else ret tt) ;;;
    ret (issue, event)
  else
    db <- get ;;
    '(issue, event) <-
       (if issue_is_regression env issue (release event) db then
          TurningPoint_create issue event timestamp REGRESSED ;;;
          let event := with_never_evict event true in
          (if alert_on_regression project
           then delay_on_commit (send_regression_alert (issue_id issue))
           else ret tt) ;;;
          ret (reopen env issue, event)
        else ret (issue, event)) ;;
    match unmute_after issue with
    | Some after =>
        if is_muted issue && (after <? timestamp) then
          IssueStateManager_unmute issue event
            (JObj [("mute_for", JObj [("unmute_after", JNum after)])])
        else ret (issue, event)
    | None => ret (issue, event)
    end.

(** [digest_event] from the creation of the event on. *)
Definition digest_from_event (event_metadata : EventMetadata) (event_data : json)
    (d : Digesting) : tx unit :=
  let project := dg_project d in
  let timestamp := dg_timestamp d in
  let issue := dg_issue d in
  let issue_created := dg_issue_created d in
  '(event, event_created) <-
     Event_from_ingested event_metadata (issue_digested_event_count issue)
       (dg_issue_stored_event_count d) issue event_data (dg_fields d) ;;
  if negb event_created then
    if issue_created then
      Issue_delete issue ;;;
      raise (ViolatedExpectation "no event created, but issue created")
    else raise (ValidationError "Event already exists" "event_already_exists")
  else
    match event with
    | None => raise AttributeError
    | Some event =>
        release <- create_release_if_needed project (release event) event ;;
        '(issue, event) <-
           mark_turning_points project timestamp issue issue_created event ;;
        (if never_evict event then Event_save event else ret tt) ;;;
        let line := (Releases.row_version release ++ LF)%string in
        let issue :=
          if negb (str_contains (events_at issue) line)
          then with_events_at issue (events_at issue ++ line)%string
          else issue in
        '(issue, _) <- count_issue_periods_and_act_on_it issue event timestamp ;;
        Issue_save issue
    end.

(** The body of [digest_event]. *)
Definition digest_event_body (event_metadata : EventMetadata) (event_data : json)
    (project : option Project) : tx unit :=
  d <- digest_until_event event_metadata event_data project ;;
  match d with
  | None => ret tt
  | Some d => digest_from_event event_metadata event_data d
  end.

(** [digest_event], under [@immediate_atomic()]. *)
Definition digest_event (event_metadata : EventMetadata) (event_data : json)
    (project : option Project) : tx unit :=
  immediate_atomic (digest_event_body event_metadata event_data project).

End Digest.

(** *** The endpoint for one event: [BaseIngestAPIView.post] with
    [IngestEventAPIView._post] *)

(** [request.GET] and [request.META], as the views read them. *)
Record HttpRequest : Type := {
  GET : list (string * string);
  META : list (string * string);
}.

(** [HttpResponse(status=...)], whose status is 200 by default, and
    [JsonResponse({"message": ...}, status=...)]. *)
Inductive HttpResponse : Type :=
| Response (status : Z)
| JsonResponse (message : string) (status : Z).

Definition HTTP_429_TOO_MANY_REQUESTS : Z := 429.
Definition HTTP_400_BAD_REQUEST : Z := 400.

(** What a view raises: an exception of digestion, the [MaxLengthExceeded] of
    [bugsink.streams], or an exception that no handler of [post] is written
    for (the one of a request without a key, of a project that is not found,
    of a body that is not JSON). *)
Inductive failure : Type :=
| Raised (e : exn)
| MaxLengthExceeded (message : string)
| Uncaught.

(** [key in d] and [d[key]], or [d.get(key)], on a dict of strings. *)
Definition lookup (key : string) (d : list (string * string)) : option string :=
  option_map snd (List.find (fun kv => String.eqb (fst kv) key) d).

Section Store.

Variable env : Collaborators.

(** What the endpoint imports besides: [compat.auth], Django's
    [get_object_or_404] on projects, [compat.timestamp], the clock, the
    readers of [bugsink.streams] with [request.read()] behind them, [json],
    and [str] on the exceptions that [post] catches; whether an exception of
    digestion is a [ValidationError] is a matter of the classes of
    [bugsink.exceptions]. *)
Variable parse_auth_header_value : string -> option (list (string * string)).
Variable get_object_or_404 : Z -> option string -> DB -> option Project.
Variable format_timestamp : datetime -> string.
Variable datetime_now : datetime.
Variable read_event : HttpRequest -> bytes + failure.
Variable json_loads : bytes -> loads_result.
Variable is_ValidationError : exn -> bool.
Variable str : failure -> string.

Definition get_sentry_key_for_request (request : HttpRequest)
  : option string + failure :=
  match lookup "sentry_key" (GET request) with
  | Some sentry_key => inl (Some sentry_key)
  | None =>
      match lookup "HTTP_X_SENTRY_AUTH" (META request) with
      | Some header =>
          match parse_auth_header_value header with
          | Some auth_dict => inl (lookup "sentry_key" auth_dict)
          | None => inr Uncaught
          end
      | None => inr Uncaught
      end
  end.

Definition get_project (project_pk : Z) (sentry_key : option string) (db : DB)
  : Project + failure :=
  match get_object_or_404 project_pk sentry_key db with
  | Some project => inl project
  | None => inr Uncaught
  end.

Definition get_project_for_request (project_pk : Z) (request : HttpRequest) (db : DB)
  : Project + failure :=
  match get_sentry_key_for_request request with
  | inl sentry_key => get_project project_pk sentry_key db
  | inr f => inr f
  end.

Definition get_event_meta (now : datetime) (request : HttpRequest) (project : Project)
  : EventMetadata :=
  let debug_info :=
    match lookup "HTTP_X_BUGSINK_DEBUGINFO" (META request) with
    | Some text => text
    | None => EmptyString
    end in
  {| md_project_id := project_id project;
     md_timestamp := format_timestamp now;
     md_debug_info := debug_info |}.

(** [IngestEventAPIView._post]: the response or the exception, and the
    database as the call leaves it. *)
Definition IngestEventAPIView_post (request : HttpRequest) (project_pk : Z) (db : DB)
  : (HttpResponse + failure) * DB :=
  match get_project_for_request project_pk request db with
  | inr f => (inr f, db)
  | inl project =>
      let now := datetime_now in
      let event_metadata := get_event_meta now request project in
      match read_event request with
      | inr f => (inr f, db)
      | inl body =>
          match json_loads body with
          | Decoded event_data =>
              match digest_event env event_metadata event_data (Some project) db with
              | (Ok _, db') => (inl (Response 200), db')
              | (Err e, db') => (inr (Raised e), db')
              end
          | JSONDecodeError | NotUtf8 => (inr Uncaught, db)
          end
      end
  end.

(** [BaseIngestAPIView.post], for the view of one event. *)
Definition post (request : HttpRequest) (project_pk : Z) (db : DB)
  : (HttpResponse + failure) * DB :=
  match IngestEventAPIView_post request project_pk db with
  | (inl response, db') => (inl response, db')
  | (inr (MaxLengthExceeded message), db') =>
      (inl (JsonResponse (str (MaxLengthExceeded message)) HTTP_400_BAD_REQUEST), db')
  | (inr (Raised e), db') =>
      if is_ValidationError e
      then (inl (JsonResponse (str (Raised e)) HTTP_400_BAD_REQUEST), db')
      else (inr (Raised e), db')
  | (inr Uncaught, db') => (inr Uncaught, db')
  end.

End Store.


(** The groupings and the issues hang together: a project has at most one
    grouping for a key, an id names at most one issue, and the issue of
    every grouping is in the table. *)
Definition groupings_consistent (db : DB) : Prop :=
  (forall pid key,
      len (filter (fun g => (grouping_project_id g =? pid)
                            && String.eqb (grouping_key g) key) (groupings db)) <= 1) /\
  (forall id, len (filter (fun i => issue_id i =? id) (issues db)) <= 1) /\
  (forall g, In g (groupings db) ->
             exists i, In i (issues db) /\ issue_id i = grouping_issue_id g).

End Views.

(** ** [src/theme/templatetags/issues.py] *)

Module Templatetags.

(** A Python [dict] with string keys, in the order of insertion. *)
Definition dict : Type := list (string * json).

(** [d.get(key, default)]. *)
Definition dict_get (d : dict) (key : string) (default : json) : json :=
  match List.find (fun kv => String.eqb (fst kv) key) d with
  | Some kv => snd kv
  | None => default
  end.

Local Open Scope answer_scope.

(** [l[lo:hi]] on a list. *)
Definition slice {A : Type} (l : list A) (lo hi : Z) : list A :=
  let size := List.length l in
  let lo' := Parsers.slice_bound lo size in
  let hi' := Parsers.slice_bound hi size in
  firstn (hi' - lo') (skipn lo' l).

(** [x == y] on two lists of integers. *)
Fixpoint ints_eqb (x y : list Z) : bool :=
  match x, y with
  | [], [] => true
  | a :: x', b :: y' => (a =? b) && ints_eqb x' y'
  | _, _ => false
  end.

(** The [for length in lengths] loop of [_split]. *)
Fixpoint _split_loop {A : Type} (joined : list A) (lengths : list Z) (start : Z)
    (result : list (list A)) : list (list A) :=
  match lengths with
  | [] => result
  | length :: lengths' =>
      let result := result ++ [slice joined start (start + length)] in
      let start := start + length in
      _split_loop joined lengths' start result
  end.

Definition _split {A : Type} (joined : list A) (lengths : list Z)
  : answer (list (list A)) :=
  let result := _split_loop joined lengths 0 [] in
  if ints_eqb (map len result) lengths then Gives result
  else Raises (Exn AssertionError).

(** [sum(lengths)]. *)
Definition total (lengths : list Z) : Z := fold_right Z.add 0 lengths.

(** The line feed, as a character and as a string. *)
Definition LF : Ascii.ascii := Ascii.ascii_of_nat 10.
Definition newline : string := String LF EmptyString.

(** [s.replace("\n", "")]. *)
Fixpoint without_newlines (s : string) : string :=
  match s with
  | EmptyString => EmptyString
  | String c rest =>
      if Ascii.eqb c LF then without_newlines rest else String c (without_newlines rest)
  end.

(** [s.split("\n")]. *)
Fixpoint split (s : string) : list string :=
  match s with
  | EmptyString => [EmptyString]
  | String c rest =>
      if Ascii.eqb c LF then EmptyString :: split rest
      else
        match split rest with
        | first :: others => String c first :: others
        | [] => [String c EmptyString]
        end
  end.

(** [l.replace("\n", "")] for an element of a list of lines: a string has the
    method, the other values have no such attribute. *)
Definition replace_newlines (l : json) : answer string :=
  match l with
  | JStr s => Gives (without_newlines s)
  | _ => Raises (Exn AttributeError)
  end.

Fixpoint for_each {A B : Type} (f : A -> answer B) (l : list A) : answer (list B) :=
  match l with
  | [] => Gives []
  | a :: rest => b <- f a ;; bs <- for_each f rest ;; Gives (b :: bs)
  end.

Section Filters.

(** [_core_pygments(code, filename=filename)]: pygments' [highlight] with the
    Python lexer, which makes no use of the file name. *)
Variable _core_pygments : string -> string.

Definition _pygmentize_lines (lines : list json) : answer (list string) :=
  match lines with
  | [] => Gives []
  | _ :: _ =>
      stripped <- for_each replace_newlines lines ;;
      let lines :=
        map (fun line => if String.eqb line EmptyString then " "%string else line)
          stripped in
      let code := String.concat newline lines in
      let result := removelast (split (_core_pygments code)) in
      if len lines =? len result then Gives result
      else Raises (Exn AssertionError)
  end.

(** [x + y] for two lists. *)
Definition list_add (x y : json) : answer (list json) :=
  match x, y with
  | JArr a, JArr b => Gives (a ++ b)
  | _, _ => Raises (Exn TypeError)
  end.

(** [len(v)]. *)
Definition py_len (v : json) : answer Z :=
  match v with
  | JArr items => Gives (len items)
  | JStr s => Gives (Z.of_nat (String.length s))
  | JObj members => Gives (len members)
  | JNull | JBool _ | JNum _ => Raises (Exn TypeError)
  end.

(** [d[key]]. *)
Definition dict_getitem (d : dict) (key : string) : answer json :=
  match List.find (fun kv => String.eqb (fst kv) key) d with
  | Some kv => Gives (snd kv)
  | None => Raises (Exn KeyError)
  end.

(** [mark_safe(s)] for each line: the text is the same. *)
Definition mark_safe_all (lines : list string) : json := JArr (map JStr lines).

(** The filter [pygmentize]; the dict it is given is the dict it returns,
    with three keys set. *)
Definition pygmentize (value : dict) : answer dict :=
  let filename := dict_get value "filename" JNull in
  if Parsers.is_None (dict_get value "context_line" JNull) then Gives value
  else
    context_line <- dict_getitem value "context_line" ;;
    up_to_line <- list_add (dict_get value "pre_context" (JArr [])) (JArr [context_line]) ;;
    code_as_list <- list_add (JArr up_to_line) (dict_get value "post_context" (JArr [])) ;;
    before <- py_len (dict_get value "pre_context" (JArr [])) ;;
    after <- py_len (dict_get value "post_context" (JArr [])) ;;
    let lengths := [before; 1; after] in
    lines <- _pygmentize_lines code_as_list ;;
    parts <- _split lines lengths ;;
    match parts with
    | [pre_context; context_lines; post_context] =>
        let value := Views.setitem value "pre_context" (mark_safe_all pre_context) in
        match context_lines with
        | first :: _ =>
            let value := Views.setitem value "context_line" (JStr first) in
            let value := Views.setitem value "post_context" (mark_safe_all post_context) in
            Gives value
        | [] => Raises IndexError
        end
    | _ => Raises ValueError
    end.

(** [x - y] for an integer [y]. *)
Definition minus (x : json) (y : Z) : answer json :=
  match Parsers.as_int x with
  | Some n => Gives (JNum (n - y))
  | None => Raises (Exn TypeError)
  end.

(** The filter [firstlineno]. *)
Definition firstlineno (value : dict) : answer json :=
  if Parsers.is_None (dict_get value "lineno" JNull) then Gives JNull
  else
    lineno <- dict_getitem value "lineno" ;;
    before <- py_len (dict_get value "pre_context" (JArr [])) ;;
    minus lineno before.

End Filters.

(** What [_pygmentize_lines] makes of a line before it joins the lines: the
    line without its newlines, or one space for a line that is empty. *)
Definition cleaned (line : string) : string :=
  if String.eqb (without_newlines line) EmptyString then " "%string
  else without_newlines line.

(** [SHA_RE = re.compile(r"[0-9a-f]+")], and [SHA_RE.fullmatch(value)] as a
    truth value: one character or more, each a digit or a letter from [a] to
    [f]. *)
Definition in_sha_class (c : Ascii.ascii) : bool :=
  let n := Ascii.nat_of_ascii c in
  ((48 <=? n) && (n <=? 57) || (97 <=? n) && (n <=? 102))%nat.

Definition SHA_RE_fullmatch (value : string) : bool :=
  match value with
  | EmptyString => false
  | String _ _ => forallb in_sha_class (list_ascii_of_string value)
  end.

(** The filter [issha]. *)
Definition issha (value : string) : bool :=
  if negb (existsb (Z.eqb (Z.of_nat (String.length value))) [12; 16; 20; 32; 40; 64])
  then false
  else if negb (SHA_RE_fullmatch value) then false
  else true.

(** The filter [shortsha]; [value[:12]] is the string of the first 12
    characters. *)
Definition shortsha (value : string) : string :=
  if negb (issha value) then value else substring 0 12 value.

End Templatetags.

(** ** Sample data for the examples *)

Module Sample.

Definition b (s : string) : bytes := list_byte_of_string s.

(** The double quote. *)
Definition q : bytes := [x22].

Definition digit (c : byte) : option Z :=
  let n := Z.of_N (Byte.to_N c) in
  if (48 <=? n) && (n <=? 57) then Some (n - 48) else None.

Fixpoint digits (acc : Z) (bs : bytes) : option Z :=
  match bs with
  | [] => Some acc
  | c :: rest =>
      match digit c with
      | Some d => digits (10 * acc + d) rest
      | None => None
      end
  end.

(** A JSON integer literal: digits without a leading zero, after an optional
    minus sign. *)
Definition natural (bs : bytes) : option Z :=
  match bs with
  | [] => None
  | [c] => digit c
  | c :: _ :: _ => if Byte.eqb c x30 then None else digits 0 bs
  end.

Definition integer (bs : bytes) : option Z :=
  match bs with
  | c :: rest => if Byte.eqb c x2d then option_map Z.opp (natural rest) else natural bs
  | [] => None
  end.

Fixpoint strip_prefix (prefix bs : bytes) : option bytes :=
  match prefix, bs with
  | [], _ => Some bs
  | p :: prefix', c :: bs' => if Byte.eqb p c then strip_prefix prefix' bs' else None
  | _ :: _, [] => None
  end.

Definition strip_suffix (suffix bs : bytes) : option bytes :=
  option_map (@rev byte) (strip_prefix (rev suffix) (rev bs)).

Definition bytes_eqb (x y : bytes) : bool :=
  match strip_prefix x y with Some [] => true | _ => false end.

(** A decoder for the header lines of the examples.  What it decodes,
    [json.loads] decodes to the same value: the empty object, [null], and an
    object whose one member is an integer [length], all without white space.
    It refuses every other line, as [json.loads] refuses a line that is not
    JSON. *)
Definition loads (line : bytes) : loads_result :=
  if bytes_eqb line (b "{}") then Decoded (JObj [])
  else if bytes_eqb line (b "null") then Decoded JNull
  else
    match strip_prefix (b "{" ++ q ++ b "length" ++ q ++ b ":") line with
    | Some rest =>
        match strip_suffix (b "}") rest with
        | Some literal =>
            match integer literal with
            | Some n => Decoded (JObj [("length", JNum n)])
            | None => JSONDecodeError
            end
        | None => JSONDecodeError
        end
    | None => JSONDecodeError
    end.

(** The header line of an item of [n] bytes. *)
Definition length_header (n : string) : bytes :=
  b "{" ++ q ++ b "length" ++ q ++ b ":" ++ b n ++ b "}".

Definition nl : bytes := [Parsers.newline].

(** A timestamp written in decimal digits. *)
Definition timestamp_of (text : string) : Z :=
  match digits 0 (b text) with
  | Some n => n
  | None => 0
  end.

(** An evaluator of thresholds that counts every event it is given, whatever
    its age: a threshold is triggered when that count has reached its limit,
    stays so for its periods of 60 seconds, and is to be checked again when
    the events still missing have come. *)
Definition count_events (events : list Views.Event) (now : Z)
    (thresholds : list Views.threshold) (add_for_current : option Z)
  : list Views.threshold_state :=
  let total := len events + match add_for_current with Some n => n | None => 0 end in
  map (fun t : Views.threshold =>
         let '(_, nr_of_periods, limit, metadata) := t in
         (limit <=? total, now + 60 * nr_of_periods, limit - total, metadata))
    thresholds.

(** An [unmute] that clears the mute state of a muted issue and records the
    turning point with its metadata. *)
Definition unmute_issue (issue : Views.Issue) (event : Views.Event)
    (unmute_metadata : json) (db : Views.DB)
  : Views.Issue * Views.Event * Views.DB :=
  if Views.is_muted issue then
    ({| Views.issue_id := Views.issue_id issue;
        Views.issue_project_id := Views.issue_project_id issue;
        Views.digest_order := Views.digest_order issue;
        Views.first_seen := Views.first_seen issue;
        Views.last_seen := Views.last_seen issue;
        Views.issue_digested_event_count := Views.issue_digested_event_count issue;
        Views.is_muted := false; Views.unmute_after := None;
        Views.next_unmute_check := Views.next_unmute_check issue;
        Views.events_at := Views.events_at issue;
        Views.denormalized_fields := Views.denormalized_fields issue;
        Views.issue_state := JArr [] |},
     event,
     Views.set_turning_points db
       (Views.turning_points db ++
        [{| Views.tp_issue_id := Views.issue_id issue;
            Views.tp_triggering_event := Views.event_pk event;
            Views.tp_timestamp := Views.event_timestamp event;
            Views.tp_kind := Views.UNMUTED;
            Views.tp_metadata := unmute_metadata |}]))
  else (issue, event, db).

(** The volume-based conditions of an issue, kept in its state as a list of
    limits per day. *)
Definition thresholds_of (issue : Views.Issue) : list Views.threshold :=
  match Views.issue_state issue with
  | JArr limits =>
      map (fun v => match v with
                    | JNum limit => ("day", 1, limit, v)
                    | _ => ("day", 1, 0, v)
                    end) limits
  | _ => []
  end.

Definition env : Views.Collaborators :=
  {| Views.MAX_EVENTS_PER_PROJECT_PER_5_MINUTES := 3;
     Views.MAX_EVENTS_PER_PROJECT_PER_HOUR := 10;
     Views.parse_timestamp := timestamp_of;
     Views.timezone_now := 0;
     Views.get_denormalized_fields_for_data := fun _ => [];
     Views.get_type_and_value_for_data := fun _ => ("Error", "boom");
     Views.get_issue_grouper_for_data := fun _ t v => (t ++ ": " ++ v)%string;
     Views.should_evict := fun _ _ _ _ => false;
     Views.evict_for_max_events := fun _ _ _ db => db;
     Views.issue_is_regression := fun _ _ _ => false;
     Views.new_issue_state := JArr [];
     Views.reopen := fun issue => issue;
     Views.unmute := unmute_issue;
     Views.get_unmute_thresholds := thresholds_of;
     Views.check_for_thresholds := count_events;
     Views.data_event_id :=
       fun data => match Parsers.getitem data "event_id" with
                   | Return (JStr s) => s
                   | _ => ""
                   end;
     Views.data_release := fun _ => "";
     Views.Version := unit;
     Views.Version_parse :=
       fun version => if String.eqb version "1.0.0" then Some tt else None;
     Views.order_by_sort_epoch_last := Releases.last_of_highest_epoch |}.

Definition project (count next_check : Z) (until : option Z) : Views.Project :=
  {| Views.project_id := 1; Views.digested_event_count := count;
     Views.next_quota_check := next_check; Views.quota_exceeded_until := until;
     Views.alert_on_new_issue := true; Views.alert_on_regression := true |}.

Definition event (pk : Z) (identifier : string) : Views.Event :=
  {| Views.event_pk := pk; Views.event_id := identifier;
     Views.event_project_id := 1; Views.event_issue_id := 1;
     Views.release := ""; Views.event_timestamp := 100;
     Views.event_digest_order := pk; Views.event_stored_order := pk;
     Views.never_evict := false; Views.event_data := JObj [] |}.

Definition issue (count next_check : Z) (muted : bool) (limits : list json)
  : Views.Issue :=
  {| Views.issue_id := 1; Views.issue_project_id := 1; Views.digest_order := 1;
     Views.first_seen := 100; Views.last_seen := 100;
     Views.issue_digested_event_count := count;
     Views.is_muted := muted; Views.unmute_after := None;
     Views.next_unmute_check := next_check; Views.events_at := "";
     Views.denormalized_fields := []; Views.issue_state := JArr limits |}.

Definition database (the_project : Views.Project) (the_events : list Views.Event)
  : Views.DB :=
  {| Views.projects := [the_project]; Views.issues := []; Views.groupings := [];
     Views.events := the_events; Views.turning_points := [];
     Views.releases := []; Views.on_commit := [] |}.

Definition metadata (timestamp : string) : Views.EventMetadata :=
  {| Views.md_project_id := 1; Views.md_timestamp := timestamp;
     Views.md_debug_info := "" |}.

Definition release_row (pk : Z) (version : string) (semver : bool) (epoch : Z)
  : Releases.Row :=
  {| Releases.row_id := pk; Releases.row_project := Some 1;
     Releases.row_version := version; Releases.row_date_released := 0;
     Releases.row_is_semver := semver; Releases.row_sort_epoch := epoch |}.

(** A release of the project [project_pk]. *)
Definition release_of (project_pk pk : Z) (version : string) (semver : bool)
    (epoch : Z) : Releases.Row :=
  {| Releases.row_id := pk; Releases.row_project := Some project_pk;
     Releases.row_version := version; Releases.row_date_released := 0;
     Releases.row_is_semver := semver; Releases.row_sort_epoch := epoch |}.

Definition new_release (pk : Z) (version : string) : Releases.Release :=
  {| Releases.id := pk; Releases.project := Some 1; Releases.version := version;
     Releases.date_released := 0; Releases.is_semver := None;
     Releases.sort_epoch := None |}.

(** A decoder that knows, beyond the lines of [loads], the integers and the
    two booleans. *)
Definition loads_scalars (line : bytes) : loads_result :=
  if bytes_eqb line (b "true") then Decoded (JBool true)
  else if bytes_eqb line (b "false") then Decoded (JBool false)
  else
    match integer line with
    | Some n => Decoded (JNum n)
    | None => loads line
    end.

(** The header line of an item whose [length] is [null], and a decoder that
    knows it beyond the lines of [loads]. *)
Definition null_length_header : bytes :=
  b "{" ++ q ++ b "length" ++ q ++ b ":null}".

Definition loads_null_length (line : bytes) : loads_result :=
  if bytes_eqb line null_length_header then Decoded (JObj [("length", JNull)])
  else loads line.

(** A decoder that refuses, as not UTF-8, a line that holds the byte [0xff],
    which no UTF-8 text holds. *)
Definition loads_utf8 (line : bytes) : loads_result :=
  if existsb (fun c => Byte.eqb c xff) line then NotUtf8 else loads line.

(** A highlighter that marks nothing up: it gives the code back, ended by a
    newline. *)
Definition echo (code : string) : string := (code ++ Templatetags.newline)%string.

(** A highlighter that ends its output by one newline too many. *)
Definition one_newline_too_many (code : string) : string :=
  (code ++ Templatetags.newline ++ Templatetags.newline)%string.

(** A frame of a stack trace: line 12 of a file, with two lines before it,
    one of them empty, and one line after it. *)
Definition frame : Templatetags.dict :=
  [("filename", JStr "views.py"); ("lineno", JNum 12);
   ("pre_context", JArr [JStr "def f():"; JStr EmptyString]);
   ("context_line", JStr "    return g()");
   ("post_context", JArr [JStr "# end"])].

End Sample.

(** ** The bytes a parser has not consumed yet

    The parser holds its unconsumed input in two places, the remainder of the
    last chunk and the unread stream; how the bytes are split between the two
    depends on the chunk size, their concatenation does not. *)

Module Pending.
Import Parsers.

(** The line before the first newline, and what follows that newline. *)
Fixpoint cut (l : bytes) : bytes * option bytes :=
  match l with
  | [] => ([], None)
  | c :: rest =>
      if Byte.eqb c newline then ([], Some rest)
      else let (line, after) := cut rest in (c :: line, after)
  end.

(** A chunk size with which a read comes back empty only at the end of the
    stream. *)
Definition adequate (chunk_size : Z) (input_stream : bytes) : Prop :=
  chunk_size <> 0 \/ input_stream = [].

(** What a call of [readuntil] shows of the parser's input: the bytes left
    unconsumed, the output, and the end-of-stream flag. *)
Definition observe (r : outcome (bytes * bytes * (bytes * bool)))
  : outcome (bytes * bytes * bool) :=
  '(input_stream', output_stream', (remainder', at_eof')) <- r ;;
  Return (remainder' ++ input_stream', output_stream', at_eof').

(** [readuntil] on the unconsumed bytes, for a finder that still needs a
    non-negative number of bytes. *)
Definition readuntil_pending (finder : Finder) (pending output_stream : bytes)
  : outcome (bytes * bytes * bool) :=
  match finder with
  | NewlineFinder =>
      match cut pending with
      | (line, Some rest) => Return (rest, output_stream ++ line, false)
      | (line, None) => Return ([], output_stream ++ line, true)
      end
  | LengthFinder length e count =>
      match as_int length with
      | None => Raise TypeError
      | Some l =>
          let needed := l - count in
          if needed <=? len pending then
            Return (skipn (Z.to_nat needed) pending,
                    output_stream ++ firstn (Z.to_nat needed) pending, false)
          else
            match e with
            | Some msg => Raise (ParseError msg)
            | None => Return ([], output_stream ++ pending, true)
            end
      end
  end.

(** The bytes a finder still needs are not negative. *)
Definition finder_ok (finder : Finder) : Prop :=
  match finder with
  | NewlineFinder => True
  | LengthFinder length _ count =>
      match as_int length with
      | Some l => 0 <= l - count
      | None => True
      end
  end.

(** Where a finder signals done: the part it writes up to there, and the
    bytes left unconsumed after it; [None] when the input ends first.  A
    finder that needs a negative number of bytes is done on the first chunk
    it is given, which it slices from the end. *)
Definition boundary (finder : Finder) (initial_chunk input_stream : bytes)
  : outcome (option (bytes * bytes)) :=
  let pending := initial_chunk ++ input_stream in
  match finder with
  | NewlineFinder =>
      match cut pending with
      | (line, Some rest) => Return (Some (line, rest))
      | (_, None) => Return None
      end
  | LengthFinder length _ count =>
      match as_int length with
      | None => Raise TypeError
      | Some l =>
          let needed := l - count in
          if needed <? 0 then
            Return (Some (slice_to initial_chunk needed,
                          slice_from initial_chunk needed ++ input_stream))
          else if needed <=? len pending then
            Return (Some (firstn (Z.to_nat needed) pending,
                          skipn (Z.to_nat needed) pending))
          else Return None
      end
  end.

(** [readuntil] as the design describes it: it stops where the finder signals
    done, or when the stream is exhausted; exhaustion is a clean end for a
    finder without an [error_for_eof], and a parse error with that message
    for a finder with one. *)
Definition readuntil_result (finder : Finder)
    (initial_chunk input_stream output_stream : bytes)
  : outcome (bytes * bytes * bool) :=
  found <- boundary finder initial_chunk input_stream ;;
  match found with
  | Some (part, rest) => Return (rest, output_stream ++ part, false)
  | None =>
      match error_for_eof finder with
      | None => Return ([], output_stream ++ initial_chunk ++ input_stream, true)
      | Some msg => Raise (ParseError msg)
      end
  end.

(** The unconsumed input of a parser. *)
Definition pending (self : StreamingEnvelopeParser) : bytes :=
  remainder self ++ input_stream self.

(** Two parsers that differ in how their input is chunked only. *)
Definition similar (p1 p2 : StreamingEnvelopeParser) : Prop :=
  pending p1 = pending p2 /\
  at_eof p1 = at_eof p2 /\
  envelope_headers p1 = envelope_headers p2 /\
  adequate (chunk_size p1) (input_stream p1) /\
  adequate (chunk_size p2) (input_stream p2).

Definition similar_outcome {A : Type}
    (o1 o2 : outcome (A * StreamingEnvelopeParser)) : Prop :=
  match o1, o2 with
  | Return (a1, p1), Return (a2, p2) => a1 = a2 /\ similar p1 p2
  | Raise e1, Raise e2 => e1 = e2
  | OutOfFuel, OutOfFuel => True
  | _, _ => False
  end.

(** The item headers declare no negative length: [length] is absent, or not
    an integer, or an integer that is not negative. *)
Definition length_not_negative (item_headers : json) : bool :=
  match contains item_headers "length" with
  | Return true =>
      match getitem item_headers "length" with
      | Return v =>
          match as_int v with
          | Some l => 0 <=? l
          | None => true
          end
      | _ => true
      end
  | _ => true
  end.

(** What [_parse_headers] does with the header bytes it has read. *)
Definition decode_headers (json_loads : bytes -> loads_result)
    (header_stream_value : bytes) (self : StreamingEnvelopeParser)
  : outcome (json * StreamingEnvelopeParser) :=
  match json_loads header_stream_value with
  | Decoded v => Return (v, self)
  | JSONDecodeError => Raise (ParseError "Header not JSON")
  | NotUtf8 => Raise UnicodeDecodeError
  end.

(** The parser once its stream is exhausted. *)
Definition exhausted (self : StreamingEnvelopeParser) : StreamingEnvelopeParser :=
  set_stream self [] [] true.

End Pending.

(** ** Envelopes as they stand on the wire *)

Module Wire.
Import Parsers.

(** An item of an envelope: the line of its headers, what [json.loads] makes
    of that line, and its body. *)
Record Item : Type := {
  item_line : bytes;
  item_headers : json;
  item_body : bytes;
}.

(** The bytes of an item: the header line, a newline, the body, a newline. *)
Definition item_bytes (item : Item) : bytes :=
  item_line item ++ newline :: item_body item ++ [newline].

(** The bytes of an envelope: the line of the envelope headers, a newline,
    and the items one after the other. *)
Definition envelope_bytes (line : bytes) (items : list Item) : bytes :=
  line ++ newline :: List.concat (map item_bytes items).

(** The header line is one line and decodes to the headers; the headers give
    the number of bytes of the body as its [length], or they give no
    [length] and the body is one line. *)
Definition well_formed (json_loads : bytes -> loads_result) (item : Item) : Prop :=
  find (item_line item) newline = -1 /\
  json_loads (item_line item) = Decoded (item_headers item) /\
  ((contains (item_headers item) "length" = Return true /\
    getitem (item_headers item) "length" = Return (JNum (len (item_body item)))) \/
   (contains (item_headers item) "length" = Return false /\
    find (item_body item) newline = -1)).

End Wire.

(** * Properties *)

Section ReadUntil.
Import Parsers Pending.

Lemma len_app {A : Type} (x y : list A) : len (x ++ y) = len x + len y.
Proof. unfold len. rewrite length_app. lia. Qed.

Lemma len_nonneg {A : Type} (x : list A) : 0 <= len x.
Proof. unfold len. lia. Qed.

Lemma to_nat_len {A : Type} (x : list A) : Z.to_nat (len x) = List.length x.
Proof. unfold len. apply Nat2Z.id. Qed.

Lemma firstn_exact {A : Type} (x y : list A) : firstn (List.length x) (x ++ y) = x.
Proof. induction x as [|a x IH]; simpl; [destruct y; reflexivity | now rewrite IH]. Qed.

Lemma skipn_exact {A : Type} (x y : list A) : skipn (List.length x) (x ++ y) = y.
Proof. induction x as [|a x IH]; simpl; [reflexivity | exact IH]. Qed.

Lemma find_cut (l : bytes) :
  match cut l with
  | (line, Some rest) => find l newline = len line /\ l = line ++ newline :: rest
  | (line, None) => find l newline = -1 /\ line = l
  end.
Proof.
  induction l as [|c l IH]; simpl; [split; reflexivity|].
  destruct (Byte.eqb c newline) eqn:E.
  - apply Byte.byte_dec_bl in E. subst c. split; reflexivity.
  - destruct (cut l) as [line [rest|]]; destruct IH as [Hf Hl].
    + rewrite Hf. split.
      * pose proof (len_nonneg line).
        destruct (len line =? -1) eqn:E1; [lia|].
        unfold len. simpl List.length. lia.
      * simpl. now rewrite <- Hl.
    + rewrite Hf. simpl. split; [reflexivity | now subst].
Qed.

Lemma cut_app (x y : bytes) :
  cut (x ++ y) =
  match cut x with
  | (line, Some rest) => (line, Some (rest ++ y))
  | (line, None) => let (line', after) := cut y in (line ++ line', after)
  end.
Proof.
  induction x as [|c x IH]; simpl.
  - destruct (cut y); reflexivity.
  - destruct (Byte.eqb c newline); [reflexivity|].
    rewrite IH. destruct (cut x) as [line [rest|]]; [reflexivity|].
    destruct (cut y); reflexivity.
Qed.

Lemma slice_to_nonneg (chunk : bytes) (n : Z) :
  0 <= n -> slice_to chunk n = firstn (Z.to_nat n) chunk.
Proof.
  intros H. unfold slice_to, slice_bound.
  destruct (n <? 0) eqn:E; [lia | reflexivity].
Qed.

Lemma slice_from_nonneg (chunk : bytes) (n : Z) :
  0 <= n -> slice_from chunk n = skipn (Z.to_nat n) chunk.
Proof.
  intros H. unfold slice_from, slice_bound.
  destruct (n <? 0) eqn:E; [lia | reflexivity].
Qed.

Lemma process_newline (output_stream chunk : bytes) :
  process NewlineFinder output_stream chunk =
  Return (NewlineFinder, output_stream ++ fst (cut chunk),
          match snd (cut chunk) with
          | Some rest => (true, rest)
          | None => (false, [])
          end).
Proof.
  pose proof (find_cut chunk) as H. unfold process, write.
  destruct (cut chunk) as [line [rest|]]; destruct H as [Hf Hl]; simpl; rewrite Hf.
  - pose proof (len_nonneg line) as Hn.
    destruct (len line =? -1) eqn:E; [lia|]. simpl.
    rewrite slice_to_nonneg, slice_from_nonneg by lia.
    unfold len. rewrite Nat2Z.id.
    replace (Z.to_nat (Z.of_nat (List.length line) + 1))
      with (List.length (line ++ [newline])) by (rewrite length_app; simpl; lia).
    subst chunk. rewrite firstn_exact.
    replace (line ++ newline :: rest) with ((line ++ [newline]) ++ rest)
      by now rewrite <- app_assoc.
    now rewrite skipn_exact.
  - simpl. now subst.
Qed.

Lemma cut_no_newline (chunk : bytes) :
  snd (cut chunk) = None -> fst (cut chunk) = chunk.
Proof.
  pose proof (find_cut chunk) as H.
  destruct (cut chunk) as [line [rest|]]; simpl; [discriminate | now destruct H].
Qed.

Lemma read_spec (input_stream : bytes) (chunk_size : Z) (chunk rest : bytes) :
  adequate chunk_size input_stream ->
  read input_stream chunk_size = (chunk, rest) ->
  chunk ++ rest = input_stream /\
  (chunk = [] -> input_stream = []) /\
  adequate chunk_size rest.
Proof.
  intros Ha. unfold read.
  destruct (chunk_size <? 0) eqn:E; intros H; inversion H; subst; clear H.
  - rewrite app_nil_r. repeat split; [tauto | now right].
  - rewrite firstn_skipn. repeat split.
    + intros Hnil. destruct Ha as [Hc | Hs]; [|exact Hs].
      destruct input_stream as [|c s]; [reflexivity|].
      destruct (Z.to_nat chunk_size) eqn:En; [lia | discriminate].
    + destruct Ha as [Hc | Hs]; [now left | right; subst; now destruct (Z.to_nat chunk_size)].
Qed.

Lemma pending_newline_step (chunk rest output_stream : bytes) :
  snd (cut chunk) = None ->
  readuntil_pending NewlineFinder (chunk ++ rest) output_stream =
  readuntil_pending NewlineFinder rest (output_stream ++ fst (cut chunk)).
Proof.
  intros H. unfold readuntil_pending. rewrite cut_app.
  destruct (cut chunk) as [line [after|]]; simpl in *; [discriminate|].
  destruct (cut rest) as [line' [after'|]]; now rewrite app_assoc.
Qed.

Lemma pending_length_step (length : json) (e : option string) (count l : Z)
    (chunk rest output_stream : bytes) :
  as_int length = Some l ->
  len chunk < l - count ->
  readuntil_pending (LengthFinder length e count) (chunk ++ rest) output_stream =
  readuntil_pending (LengthFinder length e (count + len chunk)) rest
    (output_stream ++ chunk).
Proof.
  intros Hl Hlt. unfold readuntil_pending. rewrite Hl, len_app.
  pose proof (len_nonneg chunk) as Hc.
  destruct (l - count <=? len chunk + len rest) eqn:E1;
    destruct (l - (count + len chunk) <=? len rest) eqn:E2; try lia.
  - rewrite skipn_app, firstn_app.
    replace (Z.to_nat (l - count) - List.length chunk)%nat
      with (Z.to_nat (l - (count + len chunk))) by (unfold len in *; lia).
    rewrite skipn_all2, firstn_all2 by (unfold len in *; lia).
    now rewrite app_assoc.
  - destruct e; [reflexivity | now rewrite app_assoc].
Qed.

Lemma readuntil_loop_newline (fuel : nat) :
  forall (input_stream output_stream : bytes) (chunk_size : Z),
    adequate chunk_size input_stream ->
    (List.length input_stream < fuel)%nat ->
    observe (readuntil_loop fuel input_stream NewlineFinder output_stream chunk_size) =
    readuntil_pending NewlineFinder input_stream output_stream.
Proof.
  induction fuel as [|fuel IH]; intros s out c Ha Hf; [lia|].
  cbn [readuntil_loop]. destruct (read s c) as [chunk rest] eqn:R.
  destruct (read_spec _ _ _ _ Ha R) as (Hs & Hnil & Ha').
  destruct chunk as [|b chunk].
  - simpl in Hs. subst rest. rewrite (Hnil eq_refl). simpl. now rewrite app_nil_r.
  - rewrite process_newline. cbn [bind].
    destruct (snd (cut (b :: chunk))) as [after|] eqn:C.
    + cbn [observe bind]. rewrite <- Hs. unfold readuntil_pending.
      rewrite cut_app. destruct (cut (b :: chunk)) as [line o]. simpl in C. now subst o.
    + rewrite IH; [| exact Ha' | subst s; rewrite length_app in Hf; simpl in *; lia].
      rewrite <- Hs. symmetry. now apply pending_newline_step.
Qed.

Lemma readuntil_loop_length (fuel : nat) :
  forall (input_stream output_stream : bytes) (chunk_size : Z)
         (length : json) (e : option string) (count l : Z),
    as_int length = Some l ->
    0 < l - count ->
    adequate chunk_size input_stream ->
    (List.length input_stream < fuel)%nat ->
    observe (readuntil_loop fuel input_stream (LengthFinder length e count)
               output_stream chunk_size) =
    readuntil_pending (LengthFinder length e count) input_stream output_stream.
Proof.
  induction fuel as [|fuel IH]; intros s out c length e count l Hl Hpos Ha Hf; [lia|].
  cbn [readuntil_loop]. destruct (read s c) as [chunk rest] eqn:R.
  destruct (read_spec _ _ _ _ Ha R) as (Hs & Hnil & Ha').
  destruct chunk as [|b chunk].
  - simpl in Hs. subst rest. rewrite (Hnil eq_refl).
    unfold readuntil_pending. rewrite Hl.
    change (len (@nil byte)) with 0.
    destruct (l - count <=? 0) eqn:E; [lia|].
    destruct e; simpl; [reflexivity | now rewrite app_nil_r].
  - unfold process. rewrite Hl. cbv zeta.
    destruct (l - count <=? len (b :: chunk)) eqn:E.
    + cbn [bind observe]. rewrite <- Hs. unfold readuntil_pending, write.
      rewrite Hl, len_app.
      pose proof (len_nonneg rest).
      destruct (l - count <=? len (b :: chunk) + len rest) eqn:E'; [|lia].
      rewrite slice_to_nonneg, slice_from_nonneg by lia.
      rewrite skipn_app, firstn_app.
      replace (Z.to_nat (l - count) - List.length (b :: chunk))%nat with O
        by (unfold len in *; lia).
      simpl skipn at 2. simpl firstn at 2. now rewrite app_nil_r.
    + cbn [bind]. unfold write.
      rewrite (IH _ _ _ _ _ _ l); try assumption; try lia.
      * rewrite <- Hs. symmetry. apply (pending_length_step _ _ _ l); [assumption | lia].
      * subst s. rewrite length_app in Hf. simpl in *. lia.
Qed.

Lemma readuntil_observe (input_stream initial_chunk : bytes) (finder : Finder)
    (output_stream : bytes) (chunk_size : Z) :
  finder_ok finder ->
  adequate chunk_size input_stream ->
  observe (readuntil input_stream initial_chunk finder output_stream chunk_size) =
  readuntil_pending finder (initial_chunk ++ input_stream) output_stream.
Proof.
  intros Hok Ha. unfold readuntil. destruct finder as [|length e count].
  - rewrite process_newline. cbn [bind].
    destruct (snd (cut initial_chunk)) as [after|] eqn:C.
    + cbn [observe bind]. unfold readuntil_pending. rewrite cut_app.
      destruct (cut initial_chunk) as [line o]. simpl in C. now subst o.
    + rewrite readuntil_loop_newline by (assumption || lia).
      symmetry. now apply pending_newline_step.
  - simpl in Hok. unfold process.
    destruct (as_int length) as [l|] eqn:Hl;
      [|unfold readuntil_pending; now rewrite Hl]. cbv zeta.
    destruct (l - count <=? len initial_chunk) eqn:E.
    + cbn [bind observe]. unfold readuntil_pending, write.
      rewrite Hl, len_app.
      pose proof (len_nonneg input_stream).
      destruct (l - count <=? len initial_chunk + len input_stream) eqn:E'; [|lia].
      rewrite slice_to_nonneg, slice_from_nonneg by lia.
      rewrite skipn_app, firstn_app.
      replace (Z.to_nat (l - count) - List.length initial_chunk)%nat with O
        by (unfold len in *; lia).
      simpl skipn at 2. simpl firstn at 2. now rewrite app_nil_r.
    + cbn [bind]. unfold write.
      rewrite (readuntil_loop_length _ _ _ _ _ _ _ l); try assumption; try lia.
      symmetry. apply (pending_length_step _ _ _ l); [assumption | lia].
Qed.

Lemma readuntil_adequate (input_stream initial_chunk : bytes) (finder : Finder)
    (output_stream : bytes) (chunk_size : Z)
    (input_stream' output_stream' : bytes) (result : bytes * bool) :
  adequate chunk_size input_stream ->
  readuntil input_stream initial_chunk finder output_stream chunk_size =
    Return (input_stream', output_stream', result) ->
  adequate chunk_size input_stream'.
Proof.
  intros [Hc | Hs]; [now left|]. subst input_stream. intros H. right.
  unfold readuntil in H.
  destruct (process finder output_stream initial_chunk) as [[[f o] [done r]]| |];
    simpl in H; try discriminate.
  destruct done; [now inversion H|].
  unfold read in H.
  destruct (chunk_size <? 0); [|rewrite firstn_nil, skipn_nil in H];
    destruct (error_for_eof f); now inversion H.
Qed.

Lemma readuntil_result_pending (finder : Finder)
    (initial_chunk input_stream output_stream : bytes) :
  finder_ok finder ->
  readuntil_result finder initial_chunk input_stream output_stream =
  readuntil_pending finder (initial_chunk ++ input_stream) output_stream.
Proof.
  intros Hok. unfold readuntil_result, readuntil_pending, boundary.
  destruct finder as [|length e count]; simpl.
  - pose proof (cut_no_newline (initial_chunk ++ input_stream)) as H.
    destruct (cut (initial_chunk ++ input_stream)) as [line [rest|]]; simpl in *;
      [reflexivity | now rewrite H].
  - simpl in Hok. destruct (as_int length) as [l|]; [|reflexivity]. cbv zeta.
    destruct (l - count <? 0) eqn:E; [lia|].
    destruct (l - count <=? len (initial_chunk ++ input_stream)); reflexivity.
Qed.

(** Two calls of [readuntil] on the same unconsumed bytes agree, however the
    bytes are chunked. *)
Lemma readuntil_similar (finder : Finder) (output_stream : bytes)
    (s1 r1 s2 r2 : bytes) (c1 c2 : Z) :
  finder_ok finder ->
  adequate c1 s1 -> adequate c2 s2 ->
  r1 ++ s1 = r2 ++ s2 ->
  match readuntil s1 r1 finder output_stream c1,
        readuntil s2 r2 finder output_stream c2 with
  | Return (s1', o1, (r1', e1)), Return (s2', o2, (r2', e2)) =>
      r1' ++ s1' = r2' ++ s2' /\ o1 = o2 /\ e1 = e2 /\
      adequate c1 s1' /\ adequate c2 s2'
  | Raise e1, Raise e2 => e1 = e2
  | _, _ => False
  end.
Proof.
  intros Hok Ha1 Ha2 Hp.
  pose proof (readuntil_observe s1 r1 finder output_stream c1 Hok Ha1) as H1.
  pose proof (readuntil_observe s2 r2 finder output_stream c2 Hok Ha2) as H2.
  rewrite <- Hp, <- H1 in H2.
  pose proof (readuntil_adequate s1 r1 finder output_stream c1) as A1.
  pose proof (readuntil_adequate s2 r2 finder output_stream c2) as A2.
  assert (Hno : readuntil_pending finder (r1 ++ s1) output_stream <> OutOfFuel).
  { unfold readuntil_pending. destruct finder as [|length e count].
    - destruct (cut (r1 ++ s1)) as [line [rest|]]; discriminate.
    - destruct (as_int length); [|discriminate]. cbv zeta.
      destruct (_ <=? _); [discriminate|]. destruct e; discriminate. }
  rewrite <- H1 in Hno.
  destruct (readuntil s1 r1 finder output_stream c1) as [[[s1' o1] [r1' e1]]|e1|];
    destruct (readuntil s2 r2 finder output_stream c2) as [[[s2' o2] [r2' e2]]|e2|];
    simpl in H2, Hno; try discriminate; try congruence.
  - inversion H2; subst. repeat split; eauto.
  - now elim Hno.
Qed.

(** C5, as the code has it: with a chunk size other than 0, [readuntil] stops
    where the finder signals done, or when the stream is exhausted; exhaustion
    is a clean end ([b""], [True]) for a finder whose [error_for_eof] is
    [None], whether or not bytes were read before, and raises a parse error
    carrying the message for a finder that has one. *)
Theorem readuntil_stops_when_done_or_exhausted
    (finder : Finder) (input_stream initial_chunk output_stream : bytes)
    (chunk_size : Z) :
  chunk_size <> 0 ->
  observe (readuntil input_stream initial_chunk finder output_stream chunk_size) =
  found <- boundary finder initial_chunk input_stream ;;
  match found with
  | Some (part, rest) => Return (rest, output_stream ++ part, false)
  | None =>
      match error_for_eof finder with
      | None => Return ([], output_stream ++ initial_chunk ++ input_stream, true)
      | Some msg => Raise (ParseError msg)
      end
  end.
Proof.
  intros Hc. assert (Ha : adequate chunk_size input_stream) by now left.
  change (observe (readuntil input_stream initial_chunk finder output_stream chunk_size)
          = readuntil_result finder initial_chunk input_stream output_stream).
  assert (Hok : finder_ok finder ->
    observe (readuntil input_stream initial_chunk finder output_stream chunk_size)
    = readuntil_result finder initial_chunk input_stream output_stream).
  { intros Hok. now rewrite readuntil_result_pending, readuntil_observe. }
  destruct finder as [|length e count]; [now apply Hok|].
  destruct (as_int length) as [l|] eqn:Hl; [|apply Hok; simpl; now rewrite Hl].
  destruct (l - count <? 0) eqn:Hneg; [|apply Hok; simpl; rewrite Hl; lia].
  unfold readuntil, readuntil_result, boundary, process. rewrite Hl. cbv zeta.
  rewrite Hneg. pose proof (len_nonneg initial_chunk).
  destruct (l - count <=? len initial_chunk) eqn:E; [reflexivity | lia].
Qed.

Lemma readuntil_stops_when_done_or_exhausted_witness :
  2 <> 0 /\
  observe (readuntil (Sample.b "c" ++ Sample.nl ++ Sample.b "d") (Sample.b "ab")
             NewlineFinder [] 2) =
  Return (Sample.b "d", Sample.b "abc", false).
Proof.
  split; [lia|].
  rewrite (readuntil_stops_when_done_or_exhausted NewlineFinder
             (Sample.b "c" ++ Sample.nl ++ Sample.b "d") (Sample.b "ab") [] 2);
    [reflexivity | lia].
Defined.

(** C5 as stated fails when the stream is exhausted after bytes were read and
    [error_for_eof] is [None]: the three bytes are written, and the call ends
    cleanly instead of raising a parse error. *)
Lemma readuntil_clean_end_after_data :
  readuntil (Sample.b "abc") [] NewlineFinder [] 1 =
    Return ([], Sample.b "abc", ([], true)) /\
  (forall msg,
      readuntil (Sample.b "abc") [] NewlineFinder [] 1 <> Raise (ParseError msg)).
Proof. split; [reflexivity | intros msg; discriminate]. Qed.

Lemma cut_none (data : bytes) :
  find data newline = -1 -> cut data = (data, None).
Proof.
  intros H. pose proof (find_cut data) as Hc.
  destruct (cut data) as [line [rest|]]; destruct Hc as [Hf Hl].
  - pose proof (len_nonneg line). lia.
  - now subst.
Qed.

Lemma cut_line (line rest : bytes) :
  find line newline = -1 -> cut (line ++ newline :: rest) = (line, Some rest).
Proof.
  intros H. rewrite cut_app, (cut_none _ H). simpl. now rewrite app_nil_r.
Qed.

Lemma readuntil_newline_spec (s r out : bytes) (c : Z) :
  adequate c s ->
  exists s' r',
    readuntil s r NewlineFinder out c =
      Return (s', out ++ fst (cut (r ++ s)),
              (r', match snd (cut (r ++ s)) with Some _ => false | None => true end)) /\
    r' ++ s' = match snd (cut (r ++ s)) with Some rest => rest | None => [] end /\
    adequate c s'.
Proof.
  intros Ha. pose proof (readuntil_observe s r NewlineFinder out c I Ha) as H.
  pose proof (readuntil_adequate s r NewlineFinder out c) as A.
  unfold readuntil_pending in H.
  destruct (readuntil s r NewlineFinder out c) as [[[s' o] [r' e]]|e|];
    destruct (cut (r ++ s)) as [line [rest|]]; simpl in *; try discriminate;
    injection H as E1 E2 E3; subst; exists s', r'; eauto.
Qed.

Lemma readuntil_length_spec (s r out : bytes) (c l : Z) (length : json)
    (e : option string) :
  adequate c s ->
  as_int length = Some l -> 0 <= l <= len (r ++ s) ->
  exists s' r',
    readuntil s r (LengthFinder length e 0) out c =
      Return (s', out ++ firstn (Z.to_nat l) (r ++ s), (r', false)) /\
    r' ++ s' = skipn (Z.to_nat l) (r ++ s) /\
    adequate c s'.
Proof.
  intros Ha Hl Hr.
  assert (Hok : finder_ok (LengthFinder length e 0)) by (simpl; rewrite Hl; lia).
  pose proof (readuntil_observe s r _ out c Hok Ha) as H.
  pose proof (readuntil_adequate s r (LengthFinder length e 0) out c) as A.
  unfold readuntil_pending in H. rewrite Hl in H. cbv zeta in H.
  rewrite Z.sub_0_r in H.
  destruct (l <=? len (r ++ s)) eqn:E; [|lia].
  destruct (readuntil s r (LengthFinder length e 0) out c) as [[[s' o] [r' eof]]|err|];
    simpl in H; try discriminate.
  injection H as E1 E2 E3; subst. exists s', r'; eauto.
Qed.

End ReadUntil.

(** ** Termination

    Every loop of the parser ends, whatever the finder and the chunk size:
    the fuel the embedding gives a loop is never used up, and a call leaves
    no more bytes unconsumed than it found. *)

Section Termination.
Import Parsers Pending.
Local Set Default Proof Using "Type".

Variable json_loads : bytes -> loads_result.
Variable output_stream_factory : json -> bytes.

Lemma read_app (input_stream : bytes) (chunk_size : Z) :
  fst (read input_stream chunk_size) ++ snd (read input_stream chunk_size) = input_stream.
Proof.
  unfold read. destruct (chunk_size <? 0); simpl;
    [apply app_nil_r | apply firstn_skipn].
Qed.

Lemma process_consumes (finder finder' : Finder) (out out' chunk rem : bytes)
    (done : bool) :
  process finder out chunk = Return (finder', out', (done, rem)) ->
  (List.length rem <= List.length chunk)%nat /\
  (done = false -> rem = []) /\
  (finder = NewlineFinder ->
   finder' = NewlineFinder /\
   (done = true -> (List.length rem < List.length chunk)%nat)).
Proof.
  destruct finder as [|length e count].
  - rewrite process_newline. pose proof (find_cut chunk) as Hc.
    destruct (cut chunk) as [line [rest|]]; simpl; intros H;
      injection H as <- _ <- <-; destruct Hc as [_ Hc].
    + rewrite Hc, length_app. simpl. repeat split; try lia; discriminate.
    + simpl. repeat split; try lia; discriminate.
  - unfold process. destruct (as_int length) as [l|]; [|discriminate]. cbv zeta.
    destruct (l - count <=? len chunk); intros H; injection H as <- _ <- <-.
    + unfold slice_from. rewrite length_skipn.
      repeat split; try lia; discriminate.
    + simpl. repeat split; try lia; discriminate.
Qed.

Lemma readuntil_loop_ends (fuel : nat) :
  forall (s out : bytes) (finder : Finder) (c : Z),
    (List.length s < fuel)%nat ->
    readuntil_loop fuel s finder out c <> OutOfFuel /\
    forall s' o r' e,
      readuntil_loop fuel s finder out c = Return (s', o, (r', e)) ->
      (List.length (r' ++ s') <= List.length s)%nat /\
      (finder = NewlineFinder -> e = false ->
       (List.length (r' ++ s') < List.length s)%nat).
Proof.
  induction fuel as [|fuel IH]; intros s out finder c Hf; [lia|].
  cbn [readuntil_loop]. pose proof (read_app s c) as Hs.
  destruct (read s c) as [chunk rest]. simpl in Hs.
  assert (Hlen : List.length s = (List.length chunk + List.length rest)%nat)
    by (rewrite <- Hs; apply length_app).
  destruct chunk as [|b chunk].
  - destruct (error_for_eof finder); split; try discriminate.
    intros s' o r' e H. injection H as <- _ <- <-. simpl in *. split; [lia | discriminate].
  - destruct (process finder out (b :: chunk)) as [[[f' out'] [done rem]]|err|] eqn:P;
      cbn [bind]; [| split; discriminate | ].
    + destruct (process_consumes _ _ _ _ _ _ _ P) as (Hrem & Hnil & Hnl).
      destruct done.
      * split; [discriminate|]. intros s' o r' e H. injection H as <- _ <- <-.
        rewrite length_app. split; [lia|]. intros Hfin _.
        destruct (Hnl Hfin) as [_ Hlt]. specialize (Hlt eq_refl). lia.
      * simpl in Hlen. destruct (IH rest out' f' c ltac:(lia)) as [Hno Hshrink].
        split; [exact Hno|]. intros s' o r' e H.
        destruct (Hshrink _ _ _ _ H) as [Hle Hlt]. split; [lia|].
        intros Hfin He. destruct (Hnl Hfin) as [-> _]. specialize (Hlt eq_refl He). lia.
    + destruct finder as [|length e0 count]; simpl in P.
      * destruct (negb _); discriminate.
      * destruct (as_int length); [|discriminate]. destruct (_ <=? _); discriminate.
Qed.

(** [readuntil] returns or raises; what it leaves unconsumed is no longer
    than what it found, and shorter when a newline was found. *)
Lemma readuntil_ends (s r out : bytes) (finder : Finder) (c : Z) :
  readuntil s r finder out c <> OutOfFuel /\
  forall s' o r' e,
    readuntil s r finder out c = Return (s', o, (r', e)) ->
    (List.length (r' ++ s') <= List.length (r ++ s))%nat /\
    (finder = NewlineFinder -> e = false ->
     (List.length (r' ++ s') < List.length (r ++ s))%nat).
Proof.
  unfold readuntil.
  destruct (process finder out r) as [[[f' out'] [done rem]]|err|] eqn:P;
    cbn [bind]; [| split; discriminate | ].
  - destruct (process_consumes _ _ _ _ _ _ _ P) as (Hrem & Hnil & Hnl).
    destruct done.
    + split; [discriminate|]. intros s' o r' e H. injection H as <- _ <- <-.
      rewrite !length_app. split; [lia|]. intros Hfin _.
      destruct (Hnl Hfin) as [_ Hlt]. specialize (Hlt eq_refl). lia.
    + destruct (readuntil_loop_ends (S (List.length s)) s out' f' c ltac:(lia))
        as [Hno Hshrink].
      split; [exact Hno|]. intros s' o r' e H.
      destruct (Hshrink _ _ _ _ H) as [Hle Hlt]. rewrite (length_app r s).
      split; [lia|]. intros Hfin He. destruct (Hnl Hfin) as [-> _].
      specialize (Hlt eq_refl He). lia.
  - destruct finder as [|length e0 count]; simpl in P.
    + destruct (negb _); discriminate.
    + destruct (as_int length); [|discriminate]. destruct (_ <=? _); discriminate.
Qed.

Lemma parse_headers_ends (p : StreamingEnvelopeParser) (eof_is_error : bool) :
  _parse_headers json_loads p eof_is_error <> OutOfFuel /\
  forall headers p',
    _parse_headers json_loads p eof_is_error = Return (headers, p') ->
    chunk_size p' = chunk_size p /\
    (List.length (pending p') <= List.length (pending p))%nat /\
    (at_eof p' = false -> (List.length (pending p') < List.length (pending p))%nat).
Proof.
  unfold _parse_headers.
  destruct (readuntil_ends (input_stream p) (remainder p) [] NewlineFinder (chunk_size p))
    as [Hno Hshrink].
  destruct (readuntil (input_stream p) _ _ _ _) as [[[s' o] [r' eof]]|err|];
    cbn [bind]; [| split; discriminate | now elim Hno].
  destruct (Hshrink _ _ _ _ eq_refl) as [Hle Hlt].
  assert (Hp : forall headers p',
    (if eof && is_empty o
     then Return (JNull, set_stream p s' r' eof)
     else if eof && eof_is_error
          then Raise (ParseError "EOF when reading headers; what is this a header for then?")
          else match json_loads o with
               | Decoded v => Return (v, set_stream p s' r' eof)
               | JSONDecodeError => Raise (ParseError "Header not JSON")
               | NotUtf8 => Raise UnicodeDecodeError
               end) = Return (headers, p') ->
    p' = set_stream p s' r' eof).
  { intros headers p'. destruct (eof && is_empty o); [now intros H; injection H|].
    destruct (eof && eof_is_error); [discriminate|].
    destruct (json_loads o); try discriminate. now intros H; injection H. }
  split.
  - unfold set_stream in Hp. destruct (eof && is_empty o); [discriminate|].
    destruct (eof && eof_is_error); [discriminate|].
    destruct (json_loads o); discriminate.
  - intros headers p' H. apply Hp in H. subst p'. unfold pending in *. simpl.
    split; [reflexivity|]. split; [exact Hle|]. intros ->. now apply Hlt.
Qed.

(** One round of the loop of [get_items] returns or raises, and a round that
    yields an item has consumed at least one byte. *)
Lemma next_item_ends (p : StreamingEnvelopeParser) :
  next_item json_loads output_stream_factory p <> OutOfFuel /\
  forall item p',
    next_item json_loads output_stream_factory p = Return (Some item, p') ->
    (List.length (pending p') < List.length (pending p))%nat.
Proof.
  unfold next_item.
  destruct (parse_headers_ends p true) as [Hno Hshrink].
  destruct (_parse_headers json_loads p true) as [[h q]|err|] eqn:P;
    cbn [bind]; [| split; discriminate | now elim Hno].
  destruct (Hshrink _ _ eq_refl) as (Hc & Hle & Hlt). clear Hshrink Hno.
  destruct (is_None h) eqn:Hn; [split; discriminate|].
  assert (Heof : at_eof q = false).
  { unfold _parse_headers in P.
    destruct (readuntil (input_stream p) _ _ _ _) as [[[s' o] [r' eof]]|err|];
      cbn [bind] in P; try discriminate.
    destruct eof; simpl in P.
    - destruct (is_empty o); [|discriminate].
      injection P as <- _. discriminate.
    - destruct (json_loads o); try discriminate. now injection P as _ <-. }
  specialize (Hlt Heof).
  assert (Hbody : forall finder has,
    ('(input_stream', item_output_stream, (remainder', at_eof')) <-
        readuntil (input_stream q) (remainder q) finder
          (output_stream_factory h) (chunk_size q) ;;
     let self := set_stream q input_stream' remainder' at_eof' in
     has_length <- Return has ;;
     self <- (if (has_length : bool) then
                '(input_stream', _, (remainder', at_eof')) <-
                   readuntil (input_stream self) (remainder self) NewlineFinder []
                     (chunk_size self) ;;
                Return (set_stream self input_stream' remainder' at_eof')
              else Return self) ;;
     Return (Some (h, item_output_stream), self)) <> OutOfFuel /\
    forall item p',
      ('(input_stream', item_output_stream, (remainder', at_eof')) <-
          readuntil (input_stream q) (remainder q) finder
            (output_stream_factory h) (chunk_size q) ;;
       let self := set_stream q input_stream' remainder' at_eof' in
       has_length <- Return has ;;
       self <- (if (has_length : bool) then
                  '(input_stream', _, (remainder', at_eof')) <-
                     readuntil (input_stream self) (remainder self) NewlineFinder []
                       (chunk_size self) ;;
                  Return (set_stream self input_stream' remainder' at_eof')
                else Return self) ;;
       Return (Some (h, item_output_stream), self)) = Return (Some item, p') ->
      (List.length (pending p') <= List.length (pending q))%nat).
  { intros finder has.
    destruct (readuntil_ends (input_stream q) (remainder q) (output_stream_factory h)
                finder (chunk_size q)) as [Hno1 Hshrink1].
    destruct (readuntil (input_stream q) _ _ _ _) as [[[s1 o1] [r1 e1]]|err|];
      cbn [bind]; [| split; discriminate | now elim Hno1].
    destruct (Hshrink1 _ _ _ _ eq_refl) as [Hle1 _]. cbv zeta.
    destruct has; cbn [bind set_stream input_stream remainder chunk_size].
    - destruct (readuntil_ends s1 r1 [] NewlineFinder (chunk_size q)) as [Hno2 Hshrink2].
      destruct (readuntil s1 r1 NewlineFinder [] (chunk_size q))
        as [[[s2 o2] [r2 e2]]|err|];
        cbn [bind]; [| split; discriminate | now elim Hno2].
      destruct (Hshrink2 _ _ _ _ eq_refl) as [Hle2 _].
      split; [discriminate|]. intros item p' H. injection H as _ <-.
      unfold pending in *. simpl. lia.
    - split; [discriminate|]. intros item p' H. injection H as _ <-.
      unfold pending in *. simpl. lia. }
  destruct (contains h "length") as [has| |] eqn:Hcl; cbn [bind];
    [| split; discriminate | now destruct h].
  destruct has; cbn [bind].
  - destruct (getitem h "length") as [v| |] eqn:Hg; cbn [bind];
      [| split; discriminate | ].
    + destruct (Hbody (LengthFinder v
                  (Some "EOF while reading item with explicitly specified length") 0)
                  true) as [Hno Hshrink].
      cbn [bind] in Hno, Hshrink. split; [exact Hno|].
      intros item p' H. specialize (Hshrink _ _ H). lia.
    + destruct h as [| | | | |members]; simpl in Hg; try discriminate.
      destruct (List.find _ members); discriminate.
  - destruct (Hbody NewlineFinder false) as [Hno Hshrink].
    cbn [bind] in Hno, Hshrink. split; [exact Hno|].
    intros item p' H. specialize (Hshrink _ _ H). lia.
Qed.

Lemma get_items_loop_ends (fuel : nat) :
  forall p : StreamingEnvelopeParser,
    (List.length (pending p) < fuel)%nat ->
    snd (get_items_loop json_loads output_stream_factory fuel p) <> OutOfFuel.
Proof.
  induction fuel as [|fuel IH]; intros p Hf; [lia|].
  cbn [get_items_loop]. destruct (at_eof p); [discriminate|].
  destruct (next_item_ends p) as [Hno Hshrink].
  destruct (next_item json_loads output_stream_factory p) as [[[item|] q]|err|];
    try discriminate; [|now elim Hno].
  specialize (Hshrink _ _ eq_refl). specialize (IH q ltac:(lia)).
  now destruct (get_items_loop json_loads output_stream_factory fuel q).
Qed.

Lemma get_envelope_headers_ends (p : StreamingEnvelopeParser) :
  get_envelope_headers json_loads p <> OutOfFuel /\
  forall headers p',
    get_envelope_headers json_loads p = Return (headers, p') ->
    (List.length (pending p') <= List.length (pending p))%nat.
Proof.
  unfold get_envelope_headers.
  destruct (is_None (envelope_headers p));
    [|split; [discriminate | intros h p' H; injection H as _ <-; lia]].
  destruct (parse_headers_ends p false) as [Hno Hshrink].
  destruct (_parse_headers json_loads p false) as [[h q]|err|];
    cbn [bind]; [| split; discriminate | now elim Hno].
  destruct (Hshrink _ _ eq_refl) as (_ & Hle & _). simpl.
  destruct (is_None h); split; try discriminate.
  intros h' p' H. injection H as _ <-. unfold pending in *. simpl. exact Hle.
Qed.

(** [get_items] ends: the generator is exhausted or raises. *)
Lemma get_items_ends (p : StreamingEnvelopeParser) :
  snd (get_items json_loads output_stream_factory p) <> OutOfFuel.
Proof.
  unfold get_items. destruct (get_envelope_headers_ends p) as [Hno _].
  destruct (get_envelope_headers json_loads p) as [[h q]|err|];
    [| discriminate | now elim Hno].
  apply get_items_loop_ends. unfold pending. lia.
Qed.

End Termination.

Section Chunking.
Import Parsers Pending.
Local Set Default Proof Using "Type".

Variable json_loads : bytes -> loads_result.
Variable output_stream_factory : json -> bytes.

Lemma readuntil_newline_returns (s r out : bytes) (c : Z) :
  adequate c s ->
  exists s' o r' e, readuntil s r NewlineFinder out c = Return (s', o, (r', e)).
Proof.
  intros Ha. pose proof (readuntil_observe s r NewlineFinder out c I Ha) as H.
  destruct (readuntil s r NewlineFinder out c) as [[[s' o] [r' e]]|e|].
  - now exists s', o, r', e.
  - simpl in H. unfold readuntil_pending in H.
    destruct (cut (r ++ s)) as [line [rest|]]; discriminate.
  - simpl in H. unfold readuntil_pending in H.
    destruct (cut (r ++ s)) as [line [rest|]]; discriminate.
Qed.

Lemma parse_headers_similar (p1 p2 : StreamingEnvelopeParser) (eof_is_error : bool) :
  similar p1 p2 ->
  similar_outcome (_parse_headers json_loads p1 eof_is_error)
                  (_parse_headers json_loads p2 eof_is_error).
Proof.
  intros (Hp & He & Hh & Ha1 & Ha2). unfold _parse_headers, pending in *.
  pose proof (readuntil_similar NewlineFinder [] _ _ _ _ _ _ I Ha1 Ha2 Hp) as H.
  destruct (readuntil (input_stream p1) _ _ _ _) as [[[s1' o1] [r1' e1]]|e1|];
    destruct (readuntil (input_stream p2) _ _ _ _) as [[[s2' o2] [r2' e2]]|e2|];
    try contradiction; cbn [bind]; [|exact H].
  destruct H as (Hp' & Ho & Hee & Ha1' & Ha2'). subst o2 e2.
  destruct (e1 && is_empty o1); [simpl; unfold similar, pending; simpl; repeat split; auto|].
  destruct (e1 && eof_is_error); [reflexivity|].
  destruct (json_loads o1); simpl; try reflexivity.
  unfold similar, pending; simpl; repeat split; auto.
Qed.

Lemma similar_set_stream (p1 p2 : StreamingEnvelopeParser)
    (s1 r1 s2 r2 : bytes) (e : bool) :
  similar p1 p2 ->
  r1 ++ s1 = r2 ++ s2 ->
  adequate (chunk_size p1) s1 -> adequate (chunk_size p2) s2 ->
  similar (set_stream p1 s1 r1 e) (set_stream p2 s2 r2 e).
Proof.
  intros (_ & _ & Hh & _ & _) Hp Ha1 Ha2. unfold similar, pending. simpl. repeat split; auto.
Qed.

(** The bytes of an item and the newline after it, read by two parsers that
    differ in their chunking only. *)
Lemma read_item_similar (finder : Finder) (item_headers : json)
    (has_length : bool) (q1 q2 : StreamingEnvelopeParser) :
  finder_ok finder ->
  similar q1 q2 ->
  similar_outcome
    ('(input_stream', item_output_stream, (remainder', at_eof')) <-
        readuntil (input_stream q1) (remainder q1) finder
          (output_stream_factory item_headers) (chunk_size q1) ;;
     let self := set_stream q1 input_stream' remainder' at_eof' in
     self <- (if has_length then
                '(input_stream', _, (remainder', at_eof')) <-
                   readuntil (input_stream self) (remainder self) NewlineFinder []
                     (chunk_size self) ;;
                Return (set_stream self input_stream' remainder' at_eof')
              else Return self) ;;
     Return (Some (item_headers, item_output_stream), self))
    ('(input_stream', item_output_stream, (remainder', at_eof')) <-
        readuntil (input_stream q2) (remainder q2) finder
          (output_stream_factory item_headers) (chunk_size q2) ;;
     let self := set_stream q2 input_stream' remainder' at_eof' in
     self <- (if has_length then
                '(input_stream', _, (remainder', at_eof')) <-
                   readuntil (input_stream self) (remainder self) NewlineFinder []
                     (chunk_size self) ;;
                Return (set_stream self input_stream' remainder' at_eof')
              else Return self) ;;
     Return (Some (item_headers, item_output_stream), self)).
Proof.
  intros Hok Hq. pose proof Hq as (Hp & He & Hh & Ha1 & Ha2). unfold pending in Hp.
  pose proof (readuntil_similar finder (output_stream_factory item_headers)
                _ _ _ _ _ _ Hok Ha1 Ha2 Hp) as H.
  destruct (readuntil (input_stream q1) _ _ _ _) as [[[s1' o1] [r1' e1]]|e1|];
    destruct (readuntil (input_stream q2) _ _ _ _) as [[[s2' o2] [r2' e2]]|e2|];
    try contradiction; cbn [bind]; [|exact H].
  destruct H as (Hp' & Ho & Hee & Ha1' & Ha2'). subst o2 e2. cbv zeta.
  destruct has_length; cbn [bind].
  - cbn [set_stream input_stream remainder chunk_size].
    pose proof (readuntil_similar NewlineFinder [] _ _ _ _ _ _ I Ha1' Ha2' Hp') as H.
    destruct (readuntil s1' _ _ _ _) as [[[s1'' o1'] [r1'' e1']]|e1'|];
      destruct (readuntil s2' _ _ _ _) as [[[s2'' o2'] [r2'' e2']]|e2'|];
      try contradiction; cbn [bind]; [|exact H].
    destruct H as (Hp'' & _ & Hee' & Ha1'' & Ha2''). subst e2'.
    simpl. split; [reflexivity|].
    apply similar_set_stream; try assumption.
    now apply similar_set_stream.
  - simpl. split; [reflexivity|]. now apply similar_set_stream.
Qed.

Lemma next_item_negative (p q : StreamingEnvelopeParser) (h v : json) (l : Z) :
  _parse_headers json_loads p true = Return (h, q) ->
  is_None h = false ->
  contains h "length" = Return true ->
  getitem h "length" = Return v ->
  as_int v = Some l -> l < 0 ->
  adequate (chunk_size q) (input_stream q) ->
  exists out p', next_item json_loads output_stream_factory p = Return (Some (h, out), p').
Proof.
  intros P Hn Hc Hg Hl Hneg Ha. unfold next_item.
  rewrite P. cbn [bind]. rewrite Hn, Hc. cbn [bind]. rewrite Hg. cbn [bind].
  unfold readuntil at 1. unfold process. rewrite Hl. cbv zeta.
  pose proof (len_nonneg (remainder q)) as Hlen.
  destruct (l - 0 <=? len (remainder q)) eqn:E; [|lia].
  cbn [bind set_stream input_stream remainder chunk_size].
  destruct (readuntil_newline_returns (input_stream q)
              (slice_from (remainder q) (l - 0)) [] (chunk_size q) Ha)
    as (s' & o & r' & e & R).
  rewrite R. cbn [bind]. eauto.
Qed.

Lemma next_item_similar (p1 p2 : StreamingEnvelopeParser) :
  similar p1 p2 ->
  (forall item p2',
      next_item json_loads output_stream_factory p2 = Return (Some item, p2') ->
      length_not_negative (fst item) = true) ->
  similar_outcome (next_item json_loads output_stream_factory p1)
                  (next_item json_loads output_stream_factory p2).
Proof.
  intros Hs Hnn. unfold next_item.
  pose proof (parse_headers_similar p1 p2 true Hs) as H.
  destruct (_parse_headers json_loads p1 true) as [[h q1]|e1|];
    destruct (_parse_headers json_loads p2 true) as [[h2 q2]|e2|] eqn:P2;
    simpl in H; try contradiction; cbn [bind]; [|exact H|exact I].
  destruct H as [<- Hq].
  destruct (is_None h) eqn:Hn.
  { simpl. split; [reflexivity|]. destruct Hq as (Hp & He & Hh & Ha1 & Ha2).
    unfold similar, pending in *. simpl. repeat split; auto. }
  destruct (contains h "length") as [has| |] eqn:Hc; cbn [bind];
    [|reflexivity|exact I].
  destruct has; cbn [bind].
  - destruct (getitem h "length") as [v| |] eqn:Hg; cbn [bind];
      [|reflexivity|exact I].
    destruct (as_int v) as [l|] eqn:Hl.
    + destruct (l <? 0) eqn:Hneg.
      * exfalso. destruct Hq as (_ & _ & _ & _ & Ha2).
        destruct (next_item_negative p2 q2 h v l P2 Hn Hc Hg Hl ltac:(lia) Ha2)
          as (out & p' & N).
        specialize (Hnn _ _ N). unfold length_not_negative in Hnn. simpl in Hnn.
        rewrite Hc, Hg, Hl in Hnn. lia.
      * refine (read_item_similar (LengthFinder v _ 0) h true q1 q2 _ Hq).
        simpl. rewrite Hl. lia.
    + refine (read_item_similar (LengthFinder v _ 0) h true q1 q2 _ Hq).
      simpl. now rewrite Hl.
  - exact (read_item_similar NewlineFinder h false q1 q2 I Hq).
Qed.

Lemma get_items_loop_similar (fuel1 : nat) :
  forall (fuel2 : nat) (p1 p2 : StreamingEnvelopeParser),
    similar p1 p2 ->
    (List.length (pending p2) < fuel1)%nat ->
    (List.length (pending p2) < fuel2)%nat ->
    forallb (fun item => length_not_negative (fst item))
      (fst (get_items_loop json_loads output_stream_factory fuel2 p2)) = true ->
    fst (get_items_loop json_loads output_stream_factory fuel1 p1) =
    fst (get_items_loop json_loads output_stream_factory fuel2 p2) /\
    how_it_ended (snd (get_items_loop json_loads output_stream_factory fuel1 p1)) =
    how_it_ended (snd (get_items_loop json_loads output_stream_factory fuel2 p2)).
Proof.
  induction fuel1 as [|fuel1 IH]; intros fuel2 p1 p2 Hs Hf1 Hf2 Hnn; [lia|].
  destruct fuel2 as [|fuel2]; [lia|].
  cbn [get_items_loop] in *.
  pose proof Hs as (Hp & He & _ & _ & Ha2). rewrite He.
  destruct (at_eof p2); [split; reflexivity|].
  assert (Hitem : forall item p2',
    next_item json_loads output_stream_factory p2 = Return (Some item, p2') ->
    length_not_negative (fst item) = true).
  { intros item p2' N. rewrite N in Hnn.
    destruct (get_items_loop json_loads output_stream_factory fuel2 p2').
    simpl in Hnn. now apply andb_prop in Hnn. }
  pose proof (next_item_similar p1 p2 Hs Hitem) as H.
  destruct (next_item json_loads output_stream_factory p1) as [[[item1|] q1]|e1|];
    destruct (next_item json_loads output_stream_factory p2) as [[[item2|] q2]|e2|] eqn:N;
    simpl in H; try contradiction; try (destruct H; discriminate);
    try (split; reflexivity).
  - destruct H as [E Hq]. injection E as <-.
    pose proof (proj2 (next_item_ends json_loads output_stream_factory p2) _ _ N) as Hlt.
    specialize (IH fuel2 q1 q2 Hq ltac:(lia) ltac:(lia)).
    destruct (get_items_loop json_loads output_stream_factory fuel1 q1) as [items1 end1].
    destruct (get_items_loop json_loads output_stream_factory fuel2 q2) as [items2 end2].
    simpl in *. apply andb_prop in Hnn. destruct (IH (proj2 Hnn)) as [-> ->].
    split; reflexivity.
  - subst e2. split; reflexivity.
Qed.

Lemma get_envelope_headers_similar (p1 p2 : StreamingEnvelopeParser) :
  similar p1 p2 ->
  similar_outcome (get_envelope_headers json_loads p1)
                  (get_envelope_headers json_loads p2).
Proof.
  intros Hs. unfold get_envelope_headers.
  pose proof Hs as (_ & _ & Hh & _ & _). rewrite Hh.
  destruct (is_None (envelope_headers p2)).
  - pose proof (parse_headers_similar p1 p2 false Hs) as H.
    destruct (_parse_headers json_loads p1 false) as [[h q1]|e1|];
      destruct (_parse_headers json_loads p2 false) as [[h2 q2]|e2|];
      simpl in H; try contradiction; cbn [bind]; [|exact H|exact I].
    destruct H as [<- Hq]. simpl. destruct (is_None h); [reflexivity|].
    split; [reflexivity|].
    destruct Hq as (Hp & He & _ & Ha1 & Ha2). unfold similar, pending in *.
    simpl. repeat split; auto.
  - simpl. auto.
Qed.

Lemma get_items_similar (p1 p2 : StreamingEnvelopeParser) :
  similar p1 p2 ->
  forallb (fun item => length_not_negative (fst item))
    (fst (get_items json_loads output_stream_factory p2)) = true ->
  fst (get_items json_loads output_stream_factory p1) =
  fst (get_items json_loads output_stream_factory p2) /\
  how_it_ended (snd (get_items json_loads output_stream_factory p1)) =
  how_it_ended (snd (get_items json_loads output_stream_factory p2)).
Proof.
  intros Hs. unfold get_items.
  pose proof (get_envelope_headers_similar p1 p2 Hs) as H.
  destruct (get_envelope_headers json_loads p1) as [[h q1]|e1|];
    destruct (get_envelope_headers json_loads p2) as [[h2 q2]|e2|];
    simpl in H; try contradiction; try (intros; split; reflexivity).
  - destruct H as [_ Hq]. intros Hnn.
    pose proof Hq as (Hp & _). unfold pending in Hp.
    apply get_items_loop_similar; try assumption; unfold pending; rewrite ?Hp; lia.
  - subst e2. intros; split; reflexivity.
Qed.

End Chunking.

Section Headers.
Import Parsers Pending.
Local Set Default Proof Using "Type".

Variable json_loads : bytes -> loads_result.
Variable output_stream_factory : json -> bytes.

Lemma parse_headers_line (p : StreamingEnvelopeParser) (eof_is_error : bool)
    (line rest : bytes) :
  adequate (chunk_size p) (input_stream p) ->
  find line newline = -1 ->
  pending p = line ++ newline :: rest ->
  exists s' r',
    _parse_headers json_loads p eof_is_error =
      decode_headers json_loads line (set_stream p s' r' false) /\
    r' ++ s' = rest /\ adequate (chunk_size p) s'.
Proof.
  intros Ha Hf Hp. unfold _parse_headers, pending in *.
  destruct (readuntil_newline_spec (input_stream p) (remainder p) [] _ Ha)
    as (s' & r' & R & Hr & Ha').
  rewrite Hp, (cut_line _ _ Hf) in R, Hr. simpl in R, Hr.
  rewrite R. cbn [bind]. exists s', r'. simpl. repeat split; auto.
Qed.

Lemma parse_headers_at_end (p : StreamingEnvelopeParser) (eof_is_error : bool)
    (data : bytes) :
  adequate (chunk_size p) (input_stream p) ->
  find data newline = -1 ->
  pending p = data ->
  _parse_headers json_loads p eof_is_error =
    if is_empty data then Return (JNull, exhausted p)
    else if eof_is_error then
      Raise (ParseError "EOF when reading headers; what is this a header for then?")
    else decode_headers json_loads data (exhausted p).
Proof.
  intros Ha Hf Hp. unfold _parse_headers, pending in *.
  destruct (readuntil_newline_spec (input_stream p) (remainder p) [] _ Ha)
    as (s' & r' & R & Hr & Ha').
  rewrite Hp, (cut_none _ Hf) in R, Hr. simpl in R, Hr.
  apply app_eq_nil in Hr. destruct Hr as [-> ->].
  rewrite R. cbn [bind]. simpl. destruct (is_empty data); [reflexivity|].
  destruct eof_is_error; reflexivity.
Qed.

(** C2, as the code has it: on a stream with no bytes at all the header
    parser, [_parse_headers], returns the "no headers" result ([None])
    without raising, whichever way it is told to treat the end of the
    stream, and with any chunk size.  (The claim does not hold one level up:
    [get_envelope_headers] asserts that the envelope headers are not
    [None].) *)
Theorem empty_stream_has_no_headers (chunk_size : Z) (eof_is_error : bool) :
  _parse_headers json_loads (new [] chunk_size) eof_is_error =
    Return (JNull, exhausted (new [] chunk_size)).
Proof.
  now rewrite (parse_headers_at_end _ eof_is_error []); [| right | |].
Qed.

(** C3, as the code has it: when header bytes are followed by the end of the
    stream, reading them as the headers of an item (as [get_items] does)
    raises the end-of-stream parse error, and reading them as the envelope
    headers does not: it decodes them.  The rule holds for the headers of
    items only. *)
Theorem headers_before_end_of_stream (p : StreamingEnvelopeParser) (data : bytes) :
  chunk_size p <> 0 ->
  data <> [] ->
  find data newline = -1 ->
  pending p = data ->
  _parse_headers json_loads p true =
    Raise (ParseError "EOF when reading headers; what is this a header for then?") /\
  next_item json_loads output_stream_factory p =
    Raise (ParseError "EOF when reading headers; what is this a header for then?") /\
  _parse_headers json_loads p false = decode_headers json_loads data (exhausted p).
Proof.
  intros Hc Hne Hf Hp.
  assert (Ha : adequate (chunk_size p) (input_stream p)) by now left.
  assert (He : is_empty data = false) by (destruct data; [contradiction | reflexivity]).
  pose proof (parse_headers_at_end p true data Ha Hf Hp) as H1.
  pose proof (parse_headers_at_end p false data Ha Hf Hp) as H2.
  rewrite He in H1, H2. repeat split; try assumption.
  unfold next_item. now rewrite H1.
Qed.

(** C4: an item whose headers give [length] the number of bytes of its body.
    When a newline follows the body, the item's sink gets exactly the body
    and the parser is left at the byte after that newline; when the stream
    ends with the body, the sink gets the body, nothing is left, and the
    missing newline is no error. *)
Theorem item_with_length (p : StreamingEnvelopeParser)
    (line body : bytes) (item_headers : json) :
  chunk_size p <> 0 ->
  find line newline = -1 ->
  json_loads line = Decoded item_headers ->
  contains item_headers "length" = Return true ->
  getitem item_headers "length" = Return (JNum (len body)) ->
  (forall rest,
      pending p = line ++ newline :: body ++ newline :: rest ->
      exists p',
        next_item json_loads output_stream_factory p =
          Return (Some (item_headers, output_stream_factory item_headers ++ body), p') /\
        pending p' = rest /\ at_eof p' = false /\
        len (pending p) - len line - 1 - len (pending p') = len body + 1) /\
  (pending p = line ++ newline :: body ->
   exists p',
     next_item json_loads output_stream_factory p =
       Return (Some (item_headers, output_stream_factory item_headers ++ body), p') /\
     pending p' = [] /\ at_eof p' = true /\
     len (pending p) - len line - 1 - len (pending p') = len body).
Proof.
  intros Hc Hf Hd Hcl Hg.
  assert (Ha : adequate (chunk_size p) (input_stream p)) by now left.
  assert (Hn : is_None item_headers = false) by (now destruct item_headers).
  assert (Hitem : forall tail,
    pending p = line ++ newline :: body ++ tail ->
    exists s1 r1 s2 r2 : bytes,
      next_item json_loads output_stream_factory p =
        Return (Some (item_headers, output_stream_factory item_headers ++ body),
                set_stream p s2 r2
                  (match snd (cut tail) with Some _ => false | None => true end)) /\
      r2 ++ s2 = match snd (cut tail) with Some rest => rest | None => [] end).
  { intros tail Hp.
    destruct (parse_headers_line p true line (body ++ tail) Ha Hf Hp)
      as (s0 & r0 & P & Hr0 & Ha0).
    unfold next_item. rewrite P. unfold decode_headers. rewrite Hd.
    cbn [bind]. rewrite Hn, Hcl. cbn [bind]. rewrite Hg. cbn [bind].
    cbn [set_stream input_stream remainder chunk_size].
    destruct (readuntil_length_spec s0 r0 (output_stream_factory item_headers)
                (chunk_size p) (len body) (JNum (len body))
                (Some "EOF while reading item with explicitly specified length")
                Ha0 eq_refl) as (s1 & r1 & R1 & Hr1 & Ha1).
    { rewrite Hr0, len_app. pose proof (len_nonneg body). pose proof (len_nonneg tail). lia. }
    rewrite Hr0, to_nat_len in R1, Hr1.
    rewrite firstn_exact in R1. rewrite skipn_exact in Hr1.
    rewrite R1. cbn [bind]. cbn [set_stream input_stream remainder chunk_size].
    destruct (readuntil_newline_spec s1 r1 [] (chunk_size p) Ha1)
      as (s2 & r2 & R2 & Hr2 & Ha2).
    rewrite Hr1 in R2, Hr2. rewrite R2. cbn [bind].
    exists s1, r1, s2, r2. split; [reflexivity | exact Hr2]. }
  split.
  - intros rest Hp. destruct (Hitem (newline :: rest) Hp) as (s1 & r1 & s2 & r2 & N & Hr).
    simpl in N, Hr. eexists. split; [exact N|].
    rewrite Hp. unfold pending. simpl. rewrite Hr.
    split; [reflexivity|]. split; [reflexivity|].
    rewrite len_app. unfold len. simpl List.length. rewrite length_app. simpl. lia.
  - intros Hp. rewrite <- (app_nil_r body) in Hp.
    destruct (Hitem [] Hp) as (s1 & r1 & s2 & r2 & N & Hr).
    simpl in N, Hr. eexists. split; [exact N|].
    rewrite Hp. unfold pending. simpl. rewrite Hr.
    split; [reflexivity|]. split; [reflexivity|].
    rewrite len_app, app_nil_r. unfold len. simpl. lia.
Qed.


(** X2: an item whose headers have no [length]: its body is what comes before
    the next newline, or before the end of the stream. *)
Theorem item_without_length (p : StreamingEnvelopeParser)
    (line body : bytes) (item_headers : json) :
  chunk_size p <> 0 ->
  find line newline = -1 ->
  find body newline = -1 ->
  json_loads line = Decoded item_headers ->
  contains item_headers "length" = Return false ->
  (forall rest,
      pending p = line ++ newline :: body ++ newline :: rest ->
      exists p',
        next_item json_loads output_stream_factory p =
          Return (Some (item_headers, output_stream_factory item_headers ++ body), p') /\
        pending p' = rest /\ at_eof p' = false) /\
  (pending p = line ++ newline :: body ->
   exists p',
     next_item json_loads output_stream_factory p =
       Return (Some (item_headers, output_stream_factory item_headers ++ body), p') /\
     pending p' = [] /\ at_eof p' = true).
Proof.
  intros Hc Hf Hb Hd Hcl.
  assert (Ha : adequate (chunk_size p) (input_stream p)) by now left.
  assert (Hn : is_None item_headers = false) by (now destruct item_headers).
  assert (Hitem : forall tail,
    pending p = line ++ newline :: tail ->
    exists s1 r1 : bytes,
      next_item json_loads output_stream_factory p =
        Return (Some (item_headers,
                      output_stream_factory item_headers ++ fst (cut tail)),
                set_stream p s1 r1
                  (match snd (cut tail) with Some _ => false | None => true end)) /\
      r1 ++ s1 = match snd (cut tail) with Some rest => rest | None => [] end).
  { intros tail Hp.
    destruct (parse_headers_line p true line tail Ha Hf Hp) as (s0 & r0 & P & Hr0 & Ha0).
    unfold next_item. rewrite P. unfold decode_headers. rewrite Hd.
    cbn [bind]. rewrite Hn, Hcl. cbn [bind].
    cbn [set_stream input_stream remainder chunk_size].
    destruct (readuntil_newline_spec s0 r0 (output_stream_factory item_headers)
                (chunk_size p) Ha0) as (s1 & r1 & R1 & Hr1 & Ha1).
    rewrite Hr0 in R1, Hr1. rewrite R1. cbn [bind].
    exists s1, r1. split; [reflexivity | exact Hr1]. }
  split.
  - intros rest Hp. destruct (Hitem _ Hp) as (s1 & r1 & N & Hr).
    rewrite (cut_line _ _ Hb) in N, Hr. simpl in N, Hr.
    eexists. split; [exact N|]. unfold pending. simpl. auto.
  - intros Hp. destruct (Hitem _ Hp) as (s1 & r1 & N & Hr).
    rewrite (cut_none _ Hb) in N, Hr. simpl in N, Hr.
    eexists. split; [exact N|]. unfold pending. simpl. auto.
Qed.

(** X3: [readuntil], [get_envelope_headers] and [get_items] end on every
    input, with every finder and every chunk size: each returns or raises. *)
Theorem the_parser_ends (p : StreamingEnvelopeParser) (finder : Finder)
    (stream initial_chunk output : bytes) (size : Z) :
  readuntil stream initial_chunk finder output size <> OutOfFuel /\
  get_envelope_headers json_loads p <> OutOfFuel /\
  snd (get_items json_loads output_stream_factory p) <> OutOfFuel.
Proof.
  split; [apply readuntil_ends|].
  split; [apply (get_envelope_headers_ends json_loads) | apply get_items_ends].
Qed.

End Headers.

(** ** The envelope parser and its chunk size *)

Section EnvelopeParser.
Import Parsers Pending.

Lemma similar_new (input : bytes) (chunk_size : Z) :
  1 <= chunk_size ->
  similar (new input chunk_size) (new input (len input)).
Proof.
  intros Hc. unfold similar, pending, adequate, new. simpl.
  repeat split; [left; lia|].
  destruct input as [|c input]; [now right | left; unfold len; simpl; lia].
Qed.

(** C1, as the code has it: for an input in which no item the one-chunk parse
    yields declares a negative [length], parsing with any chunk size of at
    least one byte gives the envelope headers, the sequence of (item headers,
    item body) pairs and the error, if any, of parsing the whole input in a
    single chunk; and the parse ends, with a result or an exception. *)
Theorem parse_independent_of_chunk_size
    (json_loads : bytes -> loads_result) (input : bytes) (chunk_size : Z) :
  1 <= chunk_size ->
  forallb (fun item => length_not_negative (fst item))
    (fst (snd (parse json_loads input (len input)))) = true ->
  parse json_loads input chunk_size = parse json_loads input (len input) /\
  fst (parse json_loads input chunk_size) <> OutOfFuel /\
  snd (snd (parse json_loads input chunk_size)) <> OutOfFuel.
Proof.
  intros Hc Hnn. split; [|split].
  2: { unfold parse, get_items_directly.
       destruct (get_items json_loads (fun _ => []) (new input chunk_size)). simpl.
       destruct (get_envelope_headers_ends json_loads (new input chunk_size)) as [Hno _].
       destruct (get_envelope_headers json_loads (new input chunk_size)) as [[h q]|e|];
         simpl; [discriminate | discriminate | now elim Hno]. }
  2: { unfold parse, get_items_directly.
       pose proof (get_items_ends json_loads (fun _ => []) (new input chunk_size)) as Hno.
       destruct (get_items json_loads (fun _ => []) (new input chunk_size)) as [items e].
       simpl in *. now destruct e. }
  unfold parse, get_items_directly in *.
  pose proof (similar_new input chunk_size Hc) as Hs.
  pose proof (get_items_similar json_loads (fun _ => []) _ _ Hs) as Hi.
  pose proof (get_envelope_headers_similar json_loads _ _ Hs) as He.
  destruct (get_items json_loads (fun _ => []) (new input (len input)))
    as [items2 end2].
  destruct (get_items json_loads (fun _ => []) (new input chunk_size))
    as [items1 end1].
  simpl in Hnn, Hi. destruct (Hi Hnn) as [-> ->].
  f_equal.
  destruct (get_envelope_headers json_loads (new input chunk_size)) as [[h1 q1]|e1|];
    destruct (get_envelope_headers json_loads (new input (len input))) as [[h2 q2]|e2|];
    simpl in He; try contradiction; simpl; try reflexivity.
  - now destruct He as [-> _].
  - now subst.
Qed.

(** An envelope with one item of three bytes and one item that ends at its
    newline, parsed two bytes at a time. *)
Lemma parse_independent_of_chunk_size_witness :
  let input := Sample.b "{}" ++ Sample.nl ++ Sample.length_header "3" ++ Sample.nl
               ++ Sample.b "abc" ++ Sample.nl ++ Sample.b "{}" ++ Sample.nl
               ++ Sample.b "xyz" in
  1 <= 2 /\
  parse Sample.loads input 2 = parse Sample.loads input (len input).
Proof.
  cbv zeta. split; [lia|].
  apply parse_independent_of_chunk_size; [lia | vm_compute; reflexivity].
Defined.

(** C1 as stated fails on an item that declares the length -1: read one byte
    at a time its body is empty, read in one chunk its body is [ab]. *)
Lemma parse_depends_on_chunk_size_for_negative_length :
  let input := Sample.b "{}" ++ Sample.nl ++ Sample.length_header "-1" ++ Sample.nl
               ++ Sample.b "abc" in
  parse Sample.loads input 1 =
    (Return (JObj []), ([(JObj [("length", JNum (-1))], [])], Return tt)) /\
  parse Sample.loads input (len input) =
    (Return (JObj []),
     ([(JObj [("length", JNum (-1))], Sample.b "ab")], Return tt)) /\
  parse Sample.loads input 1 <> parse Sample.loads input (len input).
Proof.
  cbv zeta. repeat split; try (vm_compute; reflexivity).
  vm_compute. discriminate.
Qed.

(** C2 as stated fails on the public entry point: with no bytes at all,
    [get_envelope_headers] raises [AssertionError], and so does the items
    generator, which calls it first. *)
Lemma empty_stream_fails_the_assertion :
  get_envelope_headers Sample.loads (new [] 1024) = Raise AssertionError /\
  get_items_directly Sample.loads (new [] 1024) = ([], Raise AssertionError).
Proof. split; reflexivity. Qed.

Lemma headers_before_end_of_stream_witness :
  let p := new (Sample.b "{}") 1024 in
  _parse_headers Sample.loads p true =
    Raise (ParseError "EOF when reading headers; what is this a header for then?") /\
  next_item Sample.loads (fun _ => []) p =
    Raise (ParseError "EOF when reading headers; what is this a header for then?") /\
  _parse_headers Sample.loads p false = Return (JObj [], exhausted p).
Proof.
  cbv zeta.
  apply (headers_before_end_of_stream Sample.loads (fun _ => [])
           (new (Sample.b "{}") 1024) (Sample.b "{}"));
    [simpl; lia | discriminate | reflexivity | reflexivity].
Defined.

(** C3 as stated fails in its last part: the end-of-stream rule does not
    apply to the envelope headers as it does to the headers of an item.  On
    the two bytes of an empty object the one call raises, the other returns
    the object. *)
Lemma end_of_stream_rule_differs_for_envelope_headers :
  _parse_headers Sample.loads (new (Sample.b "{}") 1024) true <>
  _parse_headers Sample.loads (new (Sample.b "{}") 1024) false.
Proof. vm_compute. discriminate. Qed.

Lemma item_with_length_witness :
  let p := new (Sample.length_header "3" ++ Sample.nl ++ Sample.b "abc"
                ++ Sample.nl ++ Sample.b "xyz") 2 in
  exists p',
    next_item Sample.loads (fun _ => []) p =
      Return (Some (JObj [("length", JNum 3)], Sample.b "abc"), p') /\
    pending p' = Sample.b "xyz" /\ at_eof p' = false /\
    len (pending p) - len (Sample.length_header "3") - 1 - len (pending p') = 3 + 1.
Proof.
  cbv zeta.
  destruct (item_with_length Sample.loads (fun _ => [])
              (new (Sample.length_header "3" ++ Sample.nl ++ Sample.b "abc"
                    ++ Sample.nl ++ Sample.b "xyz") 2)
              (Sample.length_header "3") (Sample.b "abc")
              (JObj [("length", JNum 3)])) as [Hnewline _];
    [simpl; lia | reflexivity | reflexivity | reflexivity | reflexivity |].
  exact (Hnewline (Sample.b "xyz") eq_refl).
Defined.


Lemma item_without_length_witness :
  let p := new (Sample.b "{}" ++ Sample.nl ++ Sample.b "abc" ++ Sample.nl
                ++ Sample.b "xyz") 2 in
  exists p',
    next_item Sample.loads (fun _ => []) p =
      Return (Some (JObj [], Sample.b "abc"), p') /\
    pending p' = Sample.b "xyz" /\ at_eof p' = false.
Proof.
  cbv zeta.
  destruct (item_without_length Sample.loads (fun _ => [])
              (new (Sample.b "{}" ++ Sample.nl ++ Sample.b "abc" ++ Sample.nl
                    ++ Sample.b "xyz") 2)
              (Sample.b "{}") (Sample.b "abc") (JObj [])) as [Hnewline _];
    [simpl; lia | reflexivity | reflexivity | reflexivity | reflexivity |].
  exact (Hnewline (Sample.b "xyz") eq_refl).
Defined.

End EnvelopeParser.

(** ** Releases and their sort epochs *)

Section SortEpoch.
Import Releases.

Variable Version : Type.
Variable Version_parse : string -> option Version.
Variable order_by_sort_epoch_last : list Row -> option Row.

Lemma same_project_eq (x y : option Z) : same_project x y = true -> x = y.
Proof.
  destruct x as [a|], y as [b|]; simpl; try discriminate; try reflexivity.
  intros H. apply Z.eqb_eq in H. now subst.
Qed.

Lemma same_project_refl (x : option Z) : same_project x x = true.
Proof. destruct x as [a|]; simpl; [apply Z.eqb_refl | reflexivity]. Qed.

Lemma in_filter_project (project : option Z) (objects : list Row) (r : Row) :
  In r (filter_project project objects) <->
  In r objects /\ row_project r = project.
Proof.
  unfold filter_project. rewrite filter_In. split; intros [Hin Hp]; split; auto.
  - now apply same_project_eq.
  - rewrite Hp. apply same_project_refl.
Qed.

Lemma strongly_sorted_snoc (l : list Z) (e : Z) :
  StronglySorted Z.le l -> (forall x, In x l -> x <= e) ->
  StronglySorted Z.le (l ++ [e]).
Proof.
  induction l as [|a l IH]; intros Hs Hb; simpl.
  - constructor; constructor.
  - apply StronglySorted_inv in Hs. destruct Hs as [Hs Ha]. constructor.
    + apply IH; [exact Hs | intros x Hx; apply Hb; now right].
    + apply Forall_app. split; [exact Ha|]. constructor; [|constructor].
      apply Hb. now left.
Qed.

Lemma epochs_snoc (project : option Z) (objects : list Row) (row : Row) :
  epochs project (objects ++ [row]) =
  epochs project objects ++
  (if same_project (row_project row) project then [row_sort_epoch row] else []).
Proof.
  unfold epochs, filter_project. rewrite filter_app, map_app. simpl.
  now destruct (same_project (row_project row) project).
Qed.

(** C10: the first save (with [is_semver] unset) of a release with a new id.
    The release gets the sort epoch 0 when the table holds no release of its
    project; otherwise, with [last] a release of its project that holds the
    project's highest sort epoch, it gets that epoch when it is a semantic
    version exactly if [last] is one, and that epoch plus 1 when not.  The
    releases of other projects have no part in it.  The epoch is at least
    that of every release of the project.  A save that succeeds leaves the
    release with this epoch and with [is_semver] computed from its version,
    and adds it to the table as one row; it keeps the epochs of each project
    in non-decreasing order of creation. *)
Theorem sort_epoch_at_first_save (self : Release) (objects : list Row) :
  picks_a_highest order_by_sort_epoch_last ->
  is_semver self = None ->
  (forall r, In r objects -> row_id r <> id self) ->
  let semver := is_valid_semver Version Version_parse (version self) in
  exists epoch,
    match order_by_sort_epoch_last (filter_project (project self) objects) with
    | None =>
        (forall r, In r objects -> row_project r <> project self) /\ epoch = 0
    | Some last =>
        In last objects /\ row_project last = project self /\
        (forall r, In r objects -> row_project r = project self ->
                   row_sort_epoch r <= row_sort_epoch last) /\
        epoch = if Bool.eqb semver (row_is_semver last)
                then row_sort_epoch last else row_sort_epoch last + 1
    end /\
    (forall r, In r objects -> row_project r = project self ->
               row_sort_epoch r <= epoch) /\
    (forall self' objects',
       save Version Version_parse order_by_sort_epoch_last self objects =
         Ok (self', objects') ->
       sort_epoch self' = Some epoch /\
       is_semver self' = Some semver /\
       self' = with_epoch self semver epoch /\
       objects' = objects ++ [to_row self semver epoch] /\
       (epochs_never_decrease objects -> epochs_never_decrease objects')).
Proof.
  intros [Hnone Hsome] Hunset Hfresh semver.
  set (existing := filter_project (project self) objects).
  assert (Hnew : existsb (fun r => row_id r =? id self) objects = false).
  { apply not_true_is_false. intros Ex. apply existsb_exists in Ex.
    destruct Ex as (r & Hin & Hid). apply Z.eqb_eq in Hid. now elim (Hfresh r Hin). }
  assert (Hsave : forall epoch,
    (match order_by_sort_epoch_last existing with
     | None => epoch = 0
     | Some last => epoch = if Bool.eqb semver (row_is_semver last)
                            then row_sort_epoch last else row_sort_epoch last + 1
     end) ->
    save Version Version_parse order_by_sort_epoch_last self objects =
      (if breaks_unique_together (to_row self semver epoch) objects
       then Err IntegrityError
       else Ok (with_epoch self semver epoch,
                objects ++ [to_row self semver epoch]))).
  { intros epoch He. unfold save. rewrite Hunset. fold semver. fold existing.
    assert (Hput : super_save (with_epoch self semver epoch) objects =
                   if breaks_unique_together (to_row self semver epoch) objects
                   then Err IntegrityError
                   else Ok (objects ++ [to_row self semver epoch])).
    { unfold super_save. simpl.
      change (to_row (with_epoch self semver epoch) semver epoch)
        with (to_row self semver epoch).
      destruct (breaks_unique_together _ objects); [reflexivity|].
      change (row_id (to_row self semver epoch)) with (id self).
      now rewrite Hnew. }
    destruct (order_by_sort_epoch_last existing) as [last|]; subst epoch;
      [destruct (Bool.eqb semver (row_is_semver last))|];
      rewrite Hput; destruct (breaks_unique_together _ objects); reflexivity. }
  assert (Hkeep : forall epoch,
    (forall r, In r objects -> row_project r = project self ->
               row_sort_epoch r <= epoch) ->
    epochs_never_decrease objects ->
    epochs_never_decrease (objects ++ [to_row self semver epoch])).
  { intros epoch Hmax Hsorted pr. rewrite epochs_snoc. simpl.
    destruct (same_project (project self) pr) eqn:Hp; [|rewrite app_nil_r; apply Hsorted].
    apply same_project_eq in Hp. subst pr.
    apply strongly_sorted_snoc; [apply Hsorted|].
    intros x Hx. unfold epochs in Hx. apply in_map_iff in Hx.
    destruct Hx as (r & <- & Hr). apply in_filter_project in Hr.
    destruct Hr as [Hr Hp]. now apply Hmax. }
  assert (Hend : forall epoch,
    (forall r, In r objects -> row_project r = project self ->
               row_sort_epoch r <= epoch) ->
    save Version Version_parse order_by_sort_epoch_last self objects =
      (if breaks_unique_together (to_row self semver epoch) objects
       then Err IntegrityError
       else Ok (with_epoch self semver epoch,
                objects ++ [to_row self semver epoch])) ->
    forall self' objects',
      save Version Version_parse order_by_sort_epoch_last self objects =
        Ok (self', objects') ->
      sort_epoch self' = Some epoch /\
      is_semver self' = Some semver /\
      self' = with_epoch self semver epoch /\
      objects' = objects ++ [to_row self semver epoch] /\
      (epochs_never_decrease objects -> epochs_never_decrease objects')).
  { intros epoch Hle Hs self' objects'. rewrite Hs.
    destruct (breaks_unique_together _ objects); [discriminate|].
    intros H. injection H as <- <-. repeat split. now apply Hkeep. }
  destruct (order_by_sort_epoch_last existing) as [last|] eqn:Hpick.
  - destruct (Hsome _ _ Hpick) as [Hin Hmax].
    apply in_filter_project in Hin. destruct Hin as [Hin Hp].
    assert (Hmax' : forall r, In r objects -> row_project r = project self ->
                              row_sort_epoch r <= row_sort_epoch last).
    { intros r Hr Hrp. apply Hmax. now apply in_filter_project. }
    exists (if Bool.eqb semver (row_is_semver last)
            then row_sort_epoch last else row_sort_epoch last + 1).
    assert (Hle : forall r, In r objects -> row_project r = project self ->
      row_sort_epoch r <= (if Bool.eqb semver (row_is_semver last)
                           then row_sort_epoch last else row_sort_epoch last + 1)).
    { intros r Hr Hrp. specialize (Hmax' r Hr Hrp).
      destruct (Bool.eqb semver (row_is_semver last)); lia. }
    split; [repeat split; auto|]. split; [exact Hle|].
    apply (Hend _ Hle). now apply Hsave.
  - exists 0. pose proof (Hnone _ Hpick) as Hempty.
    assert (Hno : forall r, In r objects -> row_project r <> project self).
    { intros r Hr Hp. assert (Hin : In r existing) by now apply in_filter_project.
      rewrite Hempty in Hin. exact Hin. }
    assert (Hle : forall r, In r objects -> row_project r = project self ->
                            row_sort_epoch r <= 0)
      by (intros r Hr Hp; now elim (Hno r Hr)).
    split; [split; [exact Hno | reflexivity]|]. split; [exact Hle|].
    apply (Hend _ Hle). now apply Hsave.
Qed.

End SortEpoch.

(** ** Digestion: quota, duplicates, unmuting *)

Section Counters.
Import Views.
Local Open Scope tx_scope.
Local Set Default Proof Using "Type".

Variable env : Collaborators.

Lemma fold_max_spec (values : list Z) (v : Z) :
  In (fold_left Z.max values v) (v :: values) /\
  forall x, In x (v :: values) -> x <= fold_left Z.max values v.
Proof.
  revert v. induction values as [|a values IH]; intros v; simpl.
  - split; [now left | intros x [<-|[]]; lia].
  - destruct (IH (Z.max v a)) as [Hin Hmax]. split.
    + destruct Hin as [Hin|Hin]; [|now right; right].
      rewrite <- Hin. destruct (Z.max_spec v a) as [[_ ->]|[_ ->]]; auto.
    + intros x [<-|[<-|Hx]].
      * specialize (Hmax (Z.max v a) (or_introl eq_refl)). lia.
      * specialize (Hmax (Z.max v a) (or_introl eq_refl)). lia.
      * apply Hmax. now right.
Qed.

Lemma fold_min_spec (values : list Z) (v : Z) :
  In (fold_left Z.min values v) (v :: values) /\
  forall x, In x (v :: values) -> fold_left Z.min values v <= x.
Proof.
  revert v. induction values as [|a values IH]; intros v; simpl.
  - split; [now left | intros x [<-|[]]; lia].
  - destruct (IH (Z.min v a)) as [Hin Hmin]. split.
    + destruct Hin as [Hin|Hin]; [|now right; right].
      rewrite <- Hin. destruct (Z.min_spec v a) as [[_ ->]|[_ ->]]; auto.
    + intros x [<-|[<-|Hx]].
      * specialize (Hmin (Z.min v a) (or_introl eq_refl)). lia.
      * specialize (Hmin (Z.min v a) (or_introl eq_refl)). lia.
      * apply Hmin. now right.
Qed.

Lemma max_or_None_spec (values : list Z) :
  match max_or_None values with
  | None => values = []
  | Some m => In m values /\ forall x, In x values -> x <= m
  end.
Proof.
  destruct values as [|v values]; simpl; [reflexivity|]. apply fold_max_spec.
Qed.

Lemma min_or_spec (default : Z) (values : list Z) :
  (values = [] /\ min_or default values = default) \/
  (In (min_or default values) values /\
   forall x, In x values -> min_or default values <= x).
Proof.
  destruct values as [|v values]; simpl; [now left | right; apply fold_min_spec].
Qed.

(** The distance to the next check: the least [check_after] of the states,
    and 1 when that is less or there is no state. *)
Lemma check_again_after_spec (states : list threshold_state) :
  let distance := Z.max 1 (min_or 1 (map check_after states)) in
  (states = [] /\ distance = 1) \/
  (exists s, In s states /\
     (forall s', In s' states -> check_after s <= check_after s') /\
     distance = Z.max 1 (check_after s)).
Proof.
  cbv zeta.
  destruct (min_or_spec 1 (map check_after states)) as [[Hnil ->]|[Hin Hmin]].
  - left. apply map_eq_nil in Hnil. split; [exact Hnil | reflexivity].
  - right. apply in_map_iff in Hin. destruct Hin as (s & Hs & Hin).
    exists s. split; [exact Hin|]. split; [|now rewrite Hs].
    intros s' Hs'. rewrite Hs. apply Hmin. now apply in_map.
Qed.

Lemma tx_bind_ok {A B : Type} (m : tx A) (k : A -> tx B) (db db' : DB) (a : A) :
  m db = (Ok a, db') -> tx_bind m k db = k a db'.
Proof. intros H. unfold tx_bind. now rewrite H. Qed.

Lemma tx_bind_err {A B : Type} (m : tx A) (k : A -> tx B) (db db' : DB) (e : exn) :
  m db = (Err e, db') -> tx_bind m k db = (Err e, db').
Proof. intros H. unfold tx_bind. now rewrite H. Qed.

(** The latest boundary among the triggered states, or [None] when no state
    is triggered. *)
Lemma until_spec (states : list threshold_state) :
  match max_or_None (map below_from (filter is_triggered states)) with
  | None => forall s, In s states -> is_triggered s = false
  | Some until =>
      (exists s, In s states /\ is_triggered s = true /\ below_from s = until) /\
      (forall s, In s states -> is_triggered s = true -> below_from s <= until)
  end.
Proof.
  pose proof (max_or_None_spec (map below_from (filter is_triggered states))) as H.
  destruct (max_or_None _) as [until|].
  - destruct H as [Hin Hmax]. split.
    + apply in_map_iff in Hin. destruct Hin as (s & Hs & Hin).
      apply filter_In in Hin. exists s. tauto.
    + intros s Hs Ht. apply Hmax. apply in_map. apply filter_In. tauto.
  - intros s Hs. destruct (is_triggered s) eqn:E; [|reflexivity].
    apply map_eq_nil in H.
    assert (In s (filter is_triggered states)) as Hin by (apply filter_In; tauto).
    rewrite H in Hin. destruct Hin.
Qed.

(** C6: when the project's quota is exceeded until a time that the event's
    timestamp is before, [count_project_periods_and_act_on_it] answers
    [False] and leaves the project object and the database as they are, and
    [digest_event] returns at once: the database it leaves is the database it
    found, with no Event, Issue, Grouping, TurningPoint or Release more, and
    with the project's counters as they were. *)
Theorem over_quota_digests_nothing (event_metadata : EventMetadata)
    (event_data : json) (given : option Project) (project : Project)
    (until : datetime) (db : DB) :
  (given = Some project \/
   given = None /\ Project_get (md_project_id event_metadata) db = (Ok project, db)) ->
  quota_exceeded_until project = Some until ->
  parse_timestamp env (md_timestamp event_metadata) < until ->
  count_project_periods_and_act_on_it env project
    (parse_timestamp env (md_timestamp event_metadata)) db = (Ok (false, project), db) /\
  digest_event env event_metadata event_data given db = (Ok tt, db).
Proof.
  intros Hgiven Huntil Hbefore.
  assert (Hover : over_quota project (parse_timestamp env (md_timestamp event_metadata))
                  = true).
  { unfold over_quota. rewrite Huntil. now apply Z.ltb_lt. }
  assert (Hcount : count_project_periods_and_act_on_it env project
            (parse_timestamp env (md_timestamp event_metadata)) db
          = (Ok (false, project), db)).
  { unfold count_project_periods_and_act_on_it. now rewrite Hover. }
  split; [exact Hcount|].
  assert (Huntil_event :
    digest_until_event env event_metadata event_data given db = (Ok None, db)).
  { unfold digest_until_event.
    rewrite (tx_bind_ok _ _ db db project)
      by (destruct Hgiven as [-> | [-> Hget]]; [reflexivity | exact Hget]).
    now rewrite (tx_bind_ok _ _ _ _ _ Hcount). }
  unfold digest_event, immediate_atomic, digest_event_body.
  now rewrite (tx_bind_ok _ _ _ _ _ Huntil_event).
Qed.

(** C7: a project that is not over its quota.  Its counter is incremented
    and it is saved.  The thresholds are evaluated (with [add_for_current]
    1) only when the incremented counter has reached [next_quota_check];
    then [quota_exceeded_until] becomes the latest [below_from] among the
    triggered thresholds, or [None] when none is triggered, and
    [next_quota_check] becomes the counter plus the least [check_after] of
    all thresholds, or plus 1 when that is less or there is no threshold.
    The thresholds are evaluated on the events of the project.  Below
    [next_quota_check] nothing but the counter changes. *)
Theorem quota_is_rechecked_when_due (project : Project) (now : datetime) (db : DB) :
  over_quota project now = false ->
  let count := digested_event_count project + 1 in
  let states :=
    check_for_thresholds env
      (filter (fun e => event_project_id e =? project_id project) (events db)) now
      [("minute", 5, MAX_EVENTS_PER_PROJECT_PER_5_MINUTES env, JNull);
       ("minute", 60, MAX_EVENTS_PER_PROJECT_PER_HOUR env, JNull)] (Some 1) in
  exists project',
    count_project_periods_and_act_on_it env project now db =
      (Ok (true, project'),
       set_projects db
         (save_row (fun p => project_id p =? project_id project) project'
            (projects db))) /\
    project_id project' = project_id project /\
    digested_event_count project' = count /\
    alert_on_new_issue project' = alert_on_new_issue project /\
    alert_on_regression project' = alert_on_regression project /\
    (count < next_quota_check project ->
     quota_exceeded_until project' = quota_exceeded_until project /\
     next_quota_check project' = next_quota_check project) /\
    (next_quota_check project <= count ->
     match quota_exceeded_until project' with
     | None => forall s, In s states -> is_triggered s = false
     | Some until =>
         (exists s, In s states /\ is_triggered s = true /\ below_from s = until) /\
         (forall s, In s states -> is_triggered s = true -> below_from s <= until)
     end /\
     exists distance,
       next_quota_check project' = count + distance /\
       (states = [] /\ distance = 1 \/
        exists s,
          In s states /\
          (forall s', In s' states -> check_after s <= check_after s') /\
          distance = Z.max 1 (check_after s))).
Proof.
  intros Hover count states.
  unfold count_project_periods_and_act_on_it. rewrite Hover.
  cbn [next_quota_check digested_event_count with_digested_event_count].
  fold count.
  destruct (next_quota_check project <=? count) eqn:Hdue.
  - exists (with_quota (with_digested_event_count project count)
              (max_or_None (map below_from (filter is_triggered states)))
              (count + Z.max 1 (min_or 1 (map check_after states)))).
    split; [reflexivity|]. repeat split; try reflexivity; try lia.
    + apply until_spec.
    + exists (Z.max 1 (min_or 1 (map check_after states))).
      split; [reflexivity|]. apply check_again_after_spec.
  - exists (with_digested_event_count project count).
    split; [reflexivity|]. repeat split; try reflexivity; lia.
Qed.

Lemma unmute_for_states_none (states : list threshold_state) (issue : Issue)
    (event : Event) (db : DB) :
  (forall s, In s states -> is_triggered s = false) ->
  unmute_for_states env states issue event db = (Ok (issue, event), db).
Proof.
  induction states as [|[[[state until] after] vbc] states IH]; intros H; simpl;
    [reflexivity|].
  pose proof (H _ (or_introl eq_refl)) as Hs. simpl in Hs. subst state. simpl.
  apply IH. intros s Hin. apply H. now right.
Qed.

Lemma unmute_for_states_first (passed rest : list threshold_state)
    (s : threshold_state) (issue : Issue) (event : Event) (db : DB) :
  (forall x, In x passed -> is_triggered x = false) ->
  is_triggered s = true ->
  unmute_for_states env (passed ++ s :: rest) issue event db =
  IssueStateManager_unmute env issue event (JObj [("mute_until", metadata s)]) db.
Proof.
  induction passed as [|[[[state until] after] vbc] passed IH]; intros H Hs; simpl.
  - destruct s as [[[state until] after] vbc]. simpl in Hs. subst state. reflexivity.
  - pose proof (H _ (or_introl eq_refl)) as Hx. simpl in Hx. subst state. simpl.
    apply IH; [|exact Hs]. intros x Hin. apply H. now right.
Qed.

(** C9: the unmute thresholds of an issue are evaluated only when the issue
    has thresholds and its [digested_event_count] has reached
    [next_unmute_check]; otherwise nothing changes.  When they are evaluated,
    [next_unmute_check] moves on, and the issue is unmuted once, for the
    first triggered threshold in the order of the states: the call gives
    what [IssueStateManager.unmute] makes of the issue, the event and the
    database, with that threshold as the [mute_until] of the unmute
    metadata; the states after it are not looked at.  When no threshold is
    triggered the issue is not unmuted. *)
Theorem unmute_is_rechecked_when_due (issue : Issue) (event : Event)
    (timestamp : datetime) (db : DB) :
  let thresholds := get_unmute_thresholds env issue in
  let count := issue_digested_event_count issue in
  let states :=
    check_for_thresholds env
      (filter (fun e => event_issue_id e =? issue_id issue) (events db))
      timestamp thresholds None in
  let issue' :=
    with_next_unmute_check issue
      (count + Z.max 1 (min_or 1 (map check_after states))) in
  (thresholds = [] \/ count < next_unmute_check issue ->
   count_issue_periods_and_act_on_it env issue event timestamp db =
     (Ok (issue, event), db)) /\
  (thresholds <> [] /\ next_unmute_check issue <= count ->
   (forall passed s rest,
       states = passed ++ s :: rest ->
       (forall x, In x passed -> is_triggered x = false) ->
       is_triggered s = true ->
       count_issue_periods_and_act_on_it env issue event timestamp db =
         let '(unmuted, event', db') :=
           unmute env issue' event (JObj [("mute_until", metadata s)]) db in
         (Ok (unmuted, event'), db')) /\
   ((forall s, In s states -> is_triggered s = false) ->
    count_issue_periods_and_act_on_it env issue event timestamp db =
      (Ok (issue', event), db))).
Proof.
  intros thresholds count states issue'.
  unfold count_issue_periods_and_act_on_it. fold thresholds. fold count.
  split.
  - intros [Hnil | Hlt].
    + now rewrite Hnil.
    + destruct (next_unmute_check issue <=? count) eqn:E; [lia|].
      now rewrite andb_false_r.
  - intros [Hne Hdue].
    destruct thresholds as [|t thresholds'] eqn:Ht; [contradiction|].
    destruct (next_unmute_check issue <=? count) eqn:E; [|lia].
    cbn [negb andb]. unfold tx_bind, get.
    split.
    + intros passed s rest Hstates Hpassed Hs.
      change (unmute_for_states env states issue' event db =
              IssueStateManager_unmute env issue' event
                (JObj [("mute_until", metadata s)]) db).
      rewrite Hstates. now apply unmute_for_states_first.
    + intros Hnone. now apply unmute_for_states_none.
Qed.

(** C8: [digest_event] has come to create the event, and the database holds
    an event of the project with the same identifier.  No event is created.
    If the issue was created in this call, its row is deleted and
    [ViolatedExpectation] is raised; if the issue was there before,
    [ValidationError] ("Event already exists") is raised and nothing is
    written.  Either way the transaction is rolled back. *)
Theorem duplicate_event_is_refused (event_metadata : EventMetadata)
    (event_data : json) (given : option Project) (db db1 : DB) (d : Digesting) :
  digest_until_event env event_metadata event_data given db = (Ok (Some d), db1) ->
  existsb (fun e => (event_project_id e =? md_project_id event_metadata)
                    && String.eqb (event_id e) (data_event_id env event_data))
    (events db1) = true ->
  let error :=
    if dg_issue_created d
    then ViolatedExpectation "no event created, but issue created"
    else ValidationError "Event already exists" "event_already_exists" in
  let db2 :=
    if dg_issue_created d
    then set_issues db1
           (filter (fun i => negb (issue_id i =? issue_id (dg_issue d))) (issues db1))
    else db1 in
  digest_event_body env event_metadata event_data given db = (Err error, db2) /\
  events db2 = events db1 /\
  (dg_issue_created d = true ->
   forall i, In i (issues db2) -> issue_id i <> issue_id (dg_issue d)) /\
  digest_event env event_metadata event_data given db = (Err error, db).
Proof.
  intros Hpre Hdup error db2.
  assert (Hbody : digest_event_body env event_metadata event_data given db
                  = (Err error, db2)).
  { unfold digest_event_body. rewrite (tx_bind_ok _ _ _ _ _ Hpre).
    unfold digest_from_event.
    assert (Hev : Event_from_ingested env event_metadata
                    (issue_digested_event_count (dg_issue d))
                    (dg_issue_stored_event_count d) (dg_issue d) event_data
                    (dg_fields d) db1 = (Ok (None, false), db1)).
    { unfold Event_from_ingested, tx_bind, get. now rewrite Hdup. }
    rewrite (tx_bind_ok _ _ _ _ _ Hev). cbn [negb].
    subst error db2. destruct (dg_issue_created d); reflexivity. }
  split; [exact Hbody|]. split; [|split].
  - subst db2. now destruct (dg_issue_created d).
  - intros Hcreated i Hin. subst db2. rewrite Hcreated in Hin. simpl in Hin.
    apply filter_In in Hin. destruct Hin as [_ Hne].
    apply negb_true_iff, Z.eqb_neq in Hne. exact Hne.
  - unfold digest_event, immediate_atomic. now rewrite Hbody.
Qed.

(** X4: an event whose grouping key the project has no grouping for: an issue is
    created for it, with one digested event, first and last seen at the
    event's timestamp, and a digest order above that of every issue of the
    project (1 when the project has none); a grouping binds the key to it. *)
Theorem new_grouping_creates_an_issue (event_metadata : EventMetadata)
    (timestamp : datetime) (key : string) (fields : list (string * json))
    (db : DB) :
  existsb (fun g => (grouping_project_id g =? md_project_id event_metadata)
                    && String.eqb (grouping_key g) key) (groupings db) = false ->
  exists issue,
    find_or_create_issue env event_metadata timestamp key fields db =
      (Ok (issue, true),
       set_groupings (set_issues db (issues db ++ [issue]))
         (groupings db ++
          [{| grouping_project_id := md_project_id event_metadata;
              grouping_key := key; grouping_issue_id := issue_id issue |}])) /\
    issue_digested_event_count issue = 1 /\
    first_seen issue = timestamp /\ last_seen issue = timestamp /\
    (forall i, In i (issues db) ->
               issue_project_id i = md_project_id event_metadata ->
               digest_order i < digest_order issue) /\
    ((forall i, In i (issues db) ->
                issue_project_id i <> md_project_id event_metadata) ->
     digest_order issue = 1).
Proof.
  intros Hnone. unfold find_or_create_issue, tx_bind, get. rewrite Hnone.
  cbn [negb]. eexists. split; [reflexivity|]. cbn [issue_digested_event_count
    first_seen last_seen digest_order].
  pose proof (max_or_None_spec
                (map digest_order
                   (filter (fun i => issue_project_id i =? md_project_id event_metadata)
                      (issues db)))) as Hmax.
  repeat split; try reflexivity.
  - intros i Hin Hp. destruct (max_or_None _) as [m|].
    + destruct Hmax as [_ Hmax].
      assert (digest_order i <= m); [|lia].
      apply Hmax, in_map, filter_In. split; [exact Hin | now apply Z.eqb_eq].
    + apply map_eq_nil in Hmax.
      assert (In i (filter (fun i => issue_project_id i =? md_project_id event_metadata)
                      (issues db))) as Hi
        by (apply filter_In; split; [exact Hin | now apply Z.eqb_eq]).
      rewrite Hmax in Hi. destruct Hi.
  - intros Hother. destruct (max_or_None _) as [m|]; [|reflexivity].
    destruct Hmax as [Hin _]. apply in_map_iff in Hin.
    destruct Hin as (i & _ & Hi). apply filter_In in Hi. destruct Hi as [Hi Hp].
    apply Z.eqb_eq in Hp. now elim (Hother i Hi).
Qed.

End Counters.

(** ** The properties on sample data *)

Section Examples.
Import Views.

Lemma last_of_highest_epoch_picks_a_highest :
  Releases.picks_a_highest Releases.last_of_highest_epoch.
Proof.
  assert (H : forall rows best,
    match fold_left (fun best r =>
                       match best with
                       | None => Some r
                       | Some b => if Releases.row_sort_epoch b <=? Releases.row_sort_epoch r
                                   then Some r else Some b
                       end) rows best with
    | None => best = None /\ rows = []
    | Some last =>
        (In last rows \/ best = Some last) /\
        (forall r, In r rows -> Releases.row_sort_epoch r <= Releases.row_sort_epoch last) /\
        (forall b, best = Some b -> Releases.row_sort_epoch b <= Releases.row_sort_epoch last)
    end).
  { induction rows as [|r rows IH]; intros best; simpl.
    - destruct best as [b|]; [|split; reflexivity].
      split; [now right|]. split; [intros r []|]. intros b' E. injection E as <-. lia.
    - specialize (IH (match best with
                      | None => Some r
                      | Some b => if Releases.row_sort_epoch b <=? Releases.row_sort_epoch r
                                  then Some r else Some b
                      end)).
      destruct (fold_left _ rows _) as [last|].
      + destruct IH as (Hin & Hmax & Hbest). split; [|split].
        * destruct Hin as [Hin|Hin]; [left; now right|].
          destruct best as [b|]; [|injection Hin as <-; left; now left].
          destruct (Releases.row_sort_epoch b <=? Releases.row_sort_epoch r);
            injection Hin as <-; [left; now left | now right].
        * intros x [Hx|Hx]; [subst x|now apply Hmax].
          destruct best as [b|]; [|now apply Hbest].
          destruct (Releases.row_sort_epoch b <=? Releases.row_sort_epoch r) eqn:E;
            [now apply Hbest|].
          specialize (Hbest b eq_refl). lia.
        * intros b ->.
          destruct (Releases.row_sort_epoch b <=? Releases.row_sort_epoch r) eqn:E;
            [|now apply Hbest].
          specialize (Hbest r eq_refl). lia.
      + destruct IH as [Hbest _]. destruct best as [b|]; [|discriminate].
        destruct (Releases.row_sort_epoch b <=? Releases.row_sort_epoch r); discriminate. }
  split.
  - intros rows Hpick. specialize (H rows None).
    unfold Releases.last_of_highest_epoch in Hpick. rewrite Hpick in H. tauto.
  - intros rows last Hpick. specialize (H rows None).
    unfold Releases.last_of_highest_epoch in Hpick. rewrite Hpick in H.
    destruct H as ([Hin|Hin] & Hmax & _); [tauto | discriminate].
Qed.

(** A nightly build after the release 1.0.0, in a table that holds a release
    of another project in the epoch 5: the epoch moves from 0 to 1. *)
Lemma sort_epoch_at_first_save_witness :
  exists self',
    Releases.save unit (Views.Version_parse Sample.env) Releases.last_of_highest_epoch
      (Sample.new_release 3 "nightly")
      [Sample.release_row 1 "1.0.0" true 0; Sample.release_of 2 2 "nightly" false 5] =
    Ok (self',
        [Sample.release_row 1 "1.0.0" true 0; Sample.release_of 2 2 "nightly" false 5;
         Sample.release_row 3 "nightly" false 1]) /\
    Releases.sort_epoch self' = Some 1 /\
    Releases.is_semver self' = Some false.
Proof.
  eexists. split; [reflexivity|].
  destruct (sort_epoch_at_first_save unit (Views.Version_parse Sample.env)
              Releases.last_of_highest_epoch
              (Sample.new_release 3 "nightly")
              [Sample.release_row 1 "1.0.0" true 0;
               Sample.release_of 2 2 "nightly" false 5]
              last_of_highest_epoch_picks_a_highest eq_refl)
    as (epoch & Hepoch & _ & Hsave).
  - intros r [<-|[<-|[]]]; discriminate.
  - simpl in Hepoch. destruct Hepoch as (_ & _ & _ & ->).
    destruct (Hsave _ _ eq_refl) as (He & Hs & _). split; [exact He | exact Hs].
Defined.

(** An event for a project whose quota is exceeded until 1000, at 500. *)
Lemma over_quota_digests_nothing_witness :
  let project := Sample.project 7 9 (Some 1000) in
  let db := Sample.database project [Sample.event 1 "e1"] in
  count_project_periods_and_act_on_it Sample.env project 500 db =
    (Ok (false, project), db) /\
  digest_event Sample.env (Sample.metadata "500") (JObj [("event_id", JStr "e2")])
    None db = (Ok tt, db).
Proof.
  cbv zeta.
  apply (over_quota_digests_nothing Sample.env (Sample.metadata "500")
           (JObj [("event_id", JStr "e2")]) None
           (Sample.project 7 9 (Some 1000)) 1000);
    [right; split; reflexivity | reflexivity | reflexivity].
Defined.

(** A project with quotas of three events in five minutes and ten in an
    hour.  Its first event: the check is due, no quota is exceeded, and the
    next check is two events away, the least of the distances 2 and 9.  Its
    third event: the quota is exceeded until 800, and the next check is one
    event away. *)
Lemma quota_is_rechecked_when_due_witness :
  (let project := Sample.project 0 0 None in
   let db := Sample.database project [] in
   exists project',
     fst (count_project_periods_and_act_on_it Sample.env project 500 db) =
       Ok (true, project') /\
     digested_event_count project' = 1 /\
     quota_exceeded_until project' = None /\
     next_quota_check project' = 3) /\
  (let project := Sample.project 2 3 None in
   let db := Sample.database project [Sample.event 1 "e1"; Sample.event 2 "e2"] in
   exists project',
     fst (count_project_periods_and_act_on_it Sample.env project 500 db) =
       Ok (true, project') /\
     digested_event_count project' = 3 /\
     quota_exceeded_until project' = Some 800 /\
     next_quota_check project' = 4).
Proof.
  cbv zeta. split.
  - destruct (quota_is_rechecked_when_due Sample.env (Sample.project 0 0 None) 500
                (Sample.database (Sample.project 0 0 None) []) eq_refl)
      as (project' & Hrun & _ & Hcount & _).
    exists project'. rewrite Hrun. split; [reflexivity|]. split; [exact Hcount|].
    vm_compute in Hrun. injection Hrun as <-. split; reflexivity.
  - destruct (quota_is_rechecked_when_due Sample.env (Sample.project 2 3 None) 500
                (Sample.database (Sample.project 2 3 None)
                   [Sample.event 1 "e1"; Sample.event 2 "e2"]) eq_refl)
      as (project' & Hrun & _ & Hcount & _).
    exists project'. rewrite Hrun. split; [reflexivity|]. split; [exact Hcount|].
    vm_compute in Hrun. injection Hrun as <-. split; reflexivity.
Defined.

(** An event that repeats the identifier of the project's one event, and
    groups into a new issue. *)
Lemma duplicate_event_is_refused_witness :
  let db := Sample.database (Sample.project 1 3 None) [Sample.event 1 "e1"] in
  digest_event Sample.env (Sample.metadata "500") (JObj [("event_id", JStr "e1")])
    None db =
  (Err (ViolatedExpectation "no event created, but issue created"), db).
Proof.
  cbv zeta.
  destruct (digest_until_event Sample.env (Sample.metadata "500")
              (JObj [("event_id", JStr "e1")]) None
              (Sample.database (Sample.project 1 3 None) [Sample.event 1 "e1"]))
    as [[[d|]|e] db1] eqn:Hpre; try (vm_compute in Hpre; discriminate).
  assert (Hcreated : dg_issue_created d = true /\ events db1 = [Sample.event 1 "e1"]).
  { vm_compute in Hpre. injection Hpre as <- <-. split; reflexivity. }
  destruct Hcreated as [Hcreated Hevents].
  destruct (duplicate_event_is_refused Sample.env _ _ _ _ _ _ Hpre) as (_ & _ & _ & H).
  - rewrite Hevents. reflexivity.
  - rewrite Hcreated in H. exact H.
Defined.

(** The first event of a project. *)
Lemma new_grouping_creates_an_issue_witness :
  let db := Sample.database (Sample.project 0 0 None) [] in
  exists issue db',
    find_or_create_issue Sample.env (Sample.metadata "500") 500 "Error: boom" [] db =
      (Ok (issue, true), db') /\
    issues db' = [issue] /\ digest_order issue = 1 /\
    issue_digested_event_count issue = 1.
Proof.
  cbv zeta.
  destruct (new_grouping_creates_an_issue Sample.env (Sample.metadata "500") 500
              "Error: boom" [] (Sample.database (Sample.project 0 0 None) []) eq_refl)
    as (issue & Hrun & Hcount & _ & _ & _ & Hfirst).
  exists issue. eexists. split; [exact Hrun|]. split; [reflexivity|].
  split; [|exact Hcount]. apply Hfirst. intros i [].
Defined.

End Examples.

Section MoreExamples.
Import Views.

(** An issue muted until 5, 2 or 3 events a day, with three events: the
    threshold 5 is passed over, 2 is the first that is triggered, and 3 is
    not looked at.  The issue comes back unmuted, with its next check one
    event away, and the one turning point names 2. *)
Lemma unmute_is_rechecked_when_due_witness :
  let issue := Sample.issue 3 3 true [JNum 5; JNum 2; JNum 3] in
  let db := Sample.database (Sample.project 0 0 None)
              [Sample.event 1 "a"; Sample.event 2 "b"; Sample.event 3 "c"] in
  exists issue' db',
    count_issue_periods_and_act_on_it Sample.env issue (Sample.event 9 "e9") 700 db =
      (Ok (issue', Sample.event 9 "e9"), db') /\
    is_muted issue' = false /\
    next_unmute_check issue' = 4 /\
    map tp_metadata (turning_points db') = [JObj [("mute_until", JNum 2)]].
Proof.
  cbv zeta.
  destruct (unmute_is_rechecked_when_due Sample.env
              (Sample.issue 3 3 true [JNum 5; JNum 2; JNum 3]) (Sample.event 9 "e9") 700
              (Sample.database (Sample.project 0 0 None)
                 [Sample.event 1 "a"; Sample.event 2 "b"; Sample.event 3 "c"]))
    as [_ Hdue].
  destruct Hdue as [Hfirst _]; [split; [discriminate | simpl; lia]|].
  rewrite (Hfirst [(false, 700 + 60 * 1, 5 - 3, JNum 5)]
                  (true, 700 + 60 * 1, 2 - 3, JNum 2)
                  [(true, 700 + 60 * 1, 3 - 3, JNum 3)]);
    [| reflexivity | intros x [<-|[]]; reflexivity | reflexivity].
  eexists. eexists. split; [reflexivity|]. repeat split; reflexivity.
Defined.

(** The same in one evaluation. *)
Example unmuted_for_the_first_triggered_threshold :
  let issue := Sample.issue 3 3 true [JNum 5; JNum 2; JNum 3] in
  let db := Sample.database (Sample.project 0 0 None)
              [Sample.event 1 "a"; Sample.event 2 "b"; Sample.event 3 "c"] in
  let '(r, db') :=
    count_issue_periods_and_act_on_it Sample.env issue (Sample.event 9 "e9") 700 db in
  option_map (fun ie => (is_muted (fst ie), next_unmute_check (fst ie)))
    (match r with Ok ie => Some ie | Err _ => None end) = Some (false, 4) /\
  map tp_metadata (turning_points db') = [JObj [("mute_until", JNum 2)]].
Proof. cbv zeta. vm_compute. split; reflexivity. Qed.

(** Two events with one identifier: the first is digested, the second is
    refused and leaves the database as the first left it. *)
Example second_event_with_the_identifier :
  let data := JObj [("event_id", JStr "e1")] in
  let db := Sample.database (Sample.project 0 0 None) [] in
  let '(r1, db1) := digest_event Sample.env (Sample.metadata "500") data None db in
  let '(r2, db2) := digest_event Sample.env (Sample.metadata "501") data None db1 in
  r1 = Ok tt /\ map event_id (events db1) = ["e1"] /\
  map issue_digested_event_count (issues db1) = [1] /\
  r2 = Err (ValidationError "Event already exists" "event_already_exists") /\
  db2 = db1.
Proof. cbv zeta. vm_compute. repeat split; reflexivity. Qed.

End MoreExamples.

(** ** Items: lengths, missing bytes, headers that are no objects *)

Section Items.
Import Parsers Pending.
Local Set Default Proof Using "Type".

Variable json_loads : bytes -> loads_result.
Variable output_stream_factory : json -> bytes.

Lemma observe_raises (r : outcome (bytes * bytes * (bytes * bool))) (e : exn) :
  observe r = Raise e -> r = Raise e.
Proof. destruct r as [[[s o] [r' f]]|e'|]; simpl; intros H; try discriminate; congruence. Qed.

Lemma parsed_item_headers (p : StreamingEnvelopeParser) (line rest : bytes)
    (item_headers : json) :
  adequate (chunk_size p) (input_stream p) ->
  find line newline = -1 ->
  json_loads line = Decoded item_headers ->
  pending p = line ++ newline :: rest ->
  exists s r,
    _parse_headers json_loads p true = Return (item_headers, set_stream p s r false) /\
    r ++ s = rest /\ adequate (chunk_size p) s.
Proof.
  intros Ha Hf Hd Hp.
  destruct (parse_headers_line json_loads p true line rest Ha Hf Hp)
    as (s & r & P & Hr & Ha').
  exists s, r. unfold decode_headers in P. rewrite Hd in P. auto.
Qed.

Lemma getitem_contains (headers v : json) (key : string) :
  getitem headers key = Return v -> contains headers key = Return true.
Proof.
  destruct headers as [| | | |items|members]; simpl; try discriminate.
  intros H. f_equal.
  induction members as [|kv members IH]; simpl in *; [discriminate|].
  destruct (String.eqb (fst kv) key); [reflexivity | now apply IH].
Qed.

(** An item with a [length]: the sink gets that many bytes, and the bytes up
    to the next newline (or to the end of the stream) go with the body. *)
Lemma next_item_length (p : StreamingEnvelopeParser) (line body tail : bytes)
    (item_headers v : json) :
  adequate (chunk_size p) (input_stream p) ->
  find line newline = -1 ->
  json_loads line = Decoded item_headers ->
  getitem item_headers "length" = Return v ->
  as_int v = Some (len body) ->
  pending p = line ++ newline :: body ++ tail ->
  exists s2 r2 : bytes,
    next_item json_loads output_stream_factory p =
      Return (Some (item_headers, output_stream_factory item_headers ++ body),
              set_stream p s2 r2
                (match snd (cut tail) with Some _ => false | None => true end)) /\
    r2 ++ s2 = match snd (cut tail) with Some rest => rest | None => [] end /\
    adequate (chunk_size p) s2.
Proof.
  intros Ha Hf Hd Hg Hv Hp.
  pose proof (getitem_contains _ _ _ Hg) as Hcl.
  assert (Hn : is_None item_headers = false) by (now destruct item_headers).
  destruct (parsed_item_headers p line (body ++ tail) item_headers Ha Hf Hd Hp)
    as (s0 & r0 & P & Hr0 & Ha0).
  unfold next_item. rewrite P. cbn [bind]. rewrite Hn, Hcl. cbn [bind].
  rewrite Hg. cbn [bind]. cbn [set_stream input_stream remainder chunk_size].
  destruct (readuntil_length_spec s0 r0 (output_stream_factory item_headers)
              (chunk_size p) (len body) v
              (Some "EOF while reading item with explicitly specified length")
              Ha0 Hv) as (s1 & r1 & R1 & Hr1 & Ha1).
  { rewrite Hr0, len_app. pose proof (len_nonneg body). pose proof (len_nonneg tail). lia. }
  rewrite Hr0, to_nat_len in R1, Hr1.
  rewrite firstn_exact in R1. rewrite skipn_exact in Hr1.
  rewrite R1. cbn [bind]. cbn [set_stream input_stream remainder chunk_size].
  destruct (readuntil_newline_spec s1 r1 [] (chunk_size p) Ha1)
    as (s2 & r2 & R2 & Hr2 & Ha2).
  rewrite Hr1 in R2, Hr2. rewrite R2. cbn [bind].
  exists s2, r2. repeat split; auto.
Qed.

(** An item without a [length]: the sink gets the bytes up to the next
    newline, or to the end of the stream. *)
Lemma next_item_line (p : StreamingEnvelopeParser) (line tail : bytes)
    (item_headers : json) :
  adequate (chunk_size p) (input_stream p) ->
  find line newline = -1 ->
  json_loads line = Decoded item_headers ->
  contains item_headers "length" = Return false ->
  pending p = line ++ newline :: tail ->
  exists s1 r1 : bytes,
    next_item json_loads output_stream_factory p =
      Return (Some (item_headers, output_stream_factory item_headers ++ fst (cut tail)),
              set_stream p s1 r1
                (match snd (cut tail) with Some _ => false | None => true end)) /\
    r1 ++ s1 = match snd (cut tail) with Some rest => rest | None => [] end /\
    adequate (chunk_size p) s1.
Proof.
  intros Ha Hf Hd Hcl Hp.
  assert (Hn : is_None item_headers = false) by (now destruct item_headers).
  destruct (parsed_item_headers p line tail item_headers Ha Hf Hd Hp)
    as (s0 & r0 & P & Hr0 & Ha0).
  unfold next_item. rewrite P. cbn [bind]. rewrite Hn, Hcl. cbn [bind].
  cbn [set_stream input_stream remainder chunk_size].
  destruct (readuntil_newline_spec s0 r0 (output_stream_factory item_headers)
              (chunk_size p) Ha0) as (s1 & r1 & R1 & Hr1 & Ha1).
  rewrite Hr0 in R1, Hr1. rewrite R1. cbn [bind].
  exists s1, r1. repeat split; auto.
Qed.

(** X5: an item whose headers give a [length], followed by bytes that are not
    the newline: the sink gets exactly [length] bytes, and the bytes between
    the body and the next newline (or the end of the stream) are consumed
    and dropped, without an error. *)
Theorem bytes_after_the_body_are_dropped (p : StreamingEnvelopeParser)
    (line body junk : bytes) (item_headers v : json) :
  chunk_size p <> 0 ->
  find line newline = -1 ->
  find junk newline = -1 ->
  json_loads line = Decoded item_headers ->
  getitem item_headers "length" = Return v ->
  as_int v = Some (len body) ->
  (forall rest,
      pending p = line ++ newline :: body ++ junk ++ newline :: rest ->
      exists p',
        next_item json_loads output_stream_factory p =
          Return (Some (item_headers, output_stream_factory item_headers ++ body), p') /\
        pending p' = rest /\ at_eof p' = false) /\
  (pending p = line ++ newline :: body ++ junk ->
   exists p',
     next_item json_loads output_stream_factory p =
       Return (Some (item_headers, output_stream_factory item_headers ++ body), p') /\
     pending p' = [] /\ at_eof p' = true).
Proof.
  intros Hc Hf Hj Hd Hg Hv.
  assert (Ha : adequate (chunk_size p) (input_stream p)) by now left.
  split.
  - intros rest Hp.
    destruct (next_item_length p line body (junk ++ newline :: rest) item_headers v
                Ha Hf Hd Hg Hv Hp) as (s2 & r2 & N & Hr & _).
    rewrite (cut_line _ _ Hj) in N, Hr. simpl in N, Hr.
    eexists. split; [exact N|]. unfold pending. simpl. auto.
  - intros Hp.
    destruct (next_item_length p line body junk item_headers v
                Ha Hf Hd Hg Hv Hp) as (s2 & r2 & N & Hr & _).
    rewrite (cut_none _ Hj) in N, Hr. simpl in N, Hr.
    eexists. split; [exact N|]. unfold pending. simpl. auto.
Qed.

(** X6: an item whose headers give a [length] that the rest of the stream
    does not hold: [get_items] raises the parse error of the length finder,
    and the item is not yielded. *)
Theorem item_shorter_than_its_length (p : StreamingEnvelopeParser)
    (line body : bytes) (item_headers v : json) (l : Z) :
  chunk_size p <> 0 ->
  find line newline = -1 ->
  json_loads line = Decoded item_headers ->
  getitem item_headers "length" = Return v ->
  as_int v = Some l ->
  len body < l ->
  pending p = line ++ newline :: body ->
  next_item json_loads output_stream_factory p =
    Raise (ParseError "EOF while reading item with explicitly specified length").
Proof.
  intros Hc Hf Hd Hg Hv Hl Hp.
  assert (Ha : adequate (chunk_size p) (input_stream p)) by now left.
  pose proof (getitem_contains _ _ _ Hg) as Hcl.
  assert (Hn : is_None item_headers = false) by (now destruct item_headers).
  destruct (parsed_item_headers p line body item_headers Ha Hf Hd Hp)
    as (s0 & r0 & P & Hr0 & Ha0).
  unfold next_item. rewrite P. cbn [bind]. rewrite Hn, Hcl. cbn [bind].
  rewrite Hg. cbn [bind]. cbn [set_stream input_stream remainder chunk_size].
  rewrite (observe_raises
             (readuntil s0 r0
                (LengthFinder v
                   (Some "EOF while reading item with explicitly specified length") 0)
                (output_stream_factory item_headers) (chunk_size p))
             (ParseError "EOF while reading item with explicitly specified length"));
    [reflexivity|].
  rewrite readuntil_observe; [| simpl; rewrite Hv; pose proof (len_nonneg body); lia | exact Ha0].
  unfold readuntil_pending. rewrite Hv, Hr0.
  destruct (l - 0 <=? len body) eqn:E; [lia | reflexivity].
Qed.

(** X7: a header line that is the JSON [null], where the headers of an item
    are expected: [get_items] takes it for the end of the envelope.  The
    generator ends without an item and without an error, and the bytes after
    that line are never parsed, whatever they are. *)
Theorem null_item_headers_end_the_items (p : StreamingEnvelopeParser)
    (line rest : bytes) (fuel : nat) :
  chunk_size p <> 0 ->
  at_eof p = false ->
  find line newline = -1 ->
  json_loads line = Decoded JNull ->
  pending p = line ++ newline :: rest ->
  exists p',
    get_items_loop json_loads output_stream_factory (S fuel) p = ([], Return p') /\
    at_eof p' = true /\ pending p' = rest.
Proof.
  intros Hc He Hf Hd Hp.
  assert (Ha : adequate (chunk_size p) (input_stream p)) by now left.
  destruct (parsed_item_headers p line rest JNull Ha Hf Hd Hp)
    as (s0 & r0 & P & Hr0 & Ha0).
  cbn [get_items_loop]. rewrite He. unfold next_item. rewrite P. cbn [bind is_None].
  eexists. split; [reflexivity|]. unfold pending. simpl. auto.
Qed.

(** X8: item headers that are JSON but cannot hold a [length]: an integer or
    a boolean, a string or an array that contains "length", or an object
    whose [length] is [null], a string, an array or an object.  [get_items]
    raises [TypeError], not a parse error. *)
Theorem item_headers_of_the_wrong_type (p : StreamingEnvelopeParser)
    (line rest : bytes) (item_headers : json) :
  chunk_size p <> 0 ->
  find line newline = -1 ->
  json_loads line = Decoded item_headers ->
  pending p = line ++ newline :: rest ->
  ((exists n, item_headers = JNum n) \/
   (exists b, item_headers = JBool b) \/
   (exists s, item_headers = JStr s /\ String.index 0 "length" s <> None) \/
   (exists items, item_headers = JArr items /\ In (JStr "length") items) \/
   (exists members v,
       item_headers = JObj members /\
       getitem item_headers "length" = Return v /\
       (v = JNull \/ (exists s, v = JStr s) \/ (exists items, v = JArr items) \/
        (exists members', v = JObj members')))) ->
  next_item json_loads output_stream_factory p = Raise TypeError.
Proof.
  intros Hc Hf Hd Hp Hcase.
  assert (Ha : adequate (chunk_size p) (input_stream p)) by now left.
  destruct (parsed_item_headers p line rest item_headers Ha Hf Hd Hp)
    as (s0 & r0 & P & Hr0 & Ha0).
  unfold next_item. rewrite P. cbn [bind].
  destruct Hcase
    as [[n ->]|[[b ->]|[(s & -> & Hs)|[(items & -> & Hin)|(members & v & -> & Hg & Hv)]]]].
  - reflexivity.
  - reflexivity.
  - cbn [is_None contains]. destruct (String.index 0 "length" s); [reflexivity | contradiction].
  - cbn [is_None contains].
    assert (E : existsb (fun v => match v with
                                  | JStr s => String.eqb s "length"
                                  | _ => false
                                  end) items = true).
    { apply existsb_exists. exists (JStr "length"). split; [exact Hin | reflexivity]. }
    rewrite E. reflexivity.
  - assert (Hno : as_int v = None)
      by (destruct Hv as [->|[[s ->]|[[items ->]|[members' ->]]]]; reflexivity).
    rewrite (getitem_contains _ _ _ Hg). cbn [is_None bind]. rewrite Hg. cbn [bind].
    unfold readuntil, process. now rewrite Hno.
Qed.

(** X9: a header line that [json.loads] refuses.  A line that is not JSON
    raises the parse error "Header not JSON", for the envelope headers and
    for the headers of an item alike; a line that is not UTF-8 raises
    [UnicodeDecodeError], which the parser does not turn into a parse
    error. *)
Theorem header_line_that_does_not_decode (p : StreamingEnvelopeParser)
    (line rest : bytes) :
  chunk_size p <> 0 ->
  envelope_headers p = JNull ->
  find line newline = -1 ->
  pending p = line ++ newline :: rest ->
  (json_loads line = JSONDecodeError ->
   get_envelope_headers json_loads p = Raise (ParseError "Header not JSON") /\
   next_item json_loads output_stream_factory p = Raise (ParseError "Header not JSON")) /\
  (json_loads line = NotUtf8 ->
   get_envelope_headers json_loads p = Raise UnicodeDecodeError /\
   next_item json_loads output_stream_factory p = Raise UnicodeDecodeError).
Proof.
  intros Hc Hn Hf Hp.
  assert (Ha : adequate (chunk_size p) (input_stream p)) by now left.
  destruct (parse_headers_line json_loads p false line rest Ha Hf Hp)
    as (s0 & r0 & P0 & _).
  destruct (parse_headers_line json_loads p true line rest Ha Hf Hp)
    as (s1 & r1 & P1 & _).
  unfold get_envelope_headers, next_item. rewrite Hn, P0, P1. unfold decode_headers.
  split; intros ->; split; reflexivity.
Qed.

(** X10: a parser with the chunk size 0 never gets a byte: every read comes
    back empty, which [readuntil] takes for the end of the stream.  The
    stream is left as it is, and the envelope headers fail the assertion,
    whatever the input. *)
Theorem chunk_size_zero_reads_nothing (input : bytes) :
  readuntil input [] NewlineFinder [] 0 = Return (input, [], ([], true)) /\
  get_envelope_headers json_loads (new input 0) = Raise AssertionError /\
  get_items json_loads output_stream_factory (new input 0) = ([], Raise AssertionError).
Proof.
  assert (R : readuntil input [] NewlineFinder [] 0 = Return (input, [], ([], true))).
  { reflexivity. }
  split; [exact R|].
  assert (G : get_envelope_headers json_loads (new input 0) = Raise AssertionError).
  { unfold get_envelope_headers, _parse_headers, new.
    cbn [envelope_headers is_None input_stream remainder chunk_size].
    rewrite R. reflexivity. }
  split; [exact G|]. unfold get_items. now rewrite G.
Qed.

End Items.

(** ** Whole envelopes *)

Section Envelopes.
Import Parsers Pending Wire.
Local Set Default Proof Using "Type".

Variable json_loads : bytes -> loads_result.
Variable output_stream_factory : json -> bytes.

Lemma next_item_well_formed (p : StreamingEnvelopeParser) (item : Item) (rest : bytes) :
  chunk_size p <> 0 ->
  well_formed json_loads item ->
  pending p = item_bytes item ++ rest ->
  exists p',
    next_item json_loads output_stream_factory p =
      Return (Some (item_headers item,
                    output_stream_factory (item_headers item) ++ item_body item), p') /\
    pending p' = rest /\ at_eof p' = false /\ chunk_size p' = chunk_size p.
Proof.
  intros Hc (Hf & Hd & Hkind) Hp.
  assert (Ha : adequate (chunk_size p) (input_stream p)) by now left.
  unfold item_bytes in Hp. rewrite <- app_assoc in Hp. simpl in Hp.
  rewrite <- app_assoc in Hp. simpl in Hp.
  destruct Hkind as [[Hcl Hg]|[Hcl Hb]].
  - destruct (next_item_length json_loads output_stream_factory p (item_line item)
                (item_body item) (newline :: rest) (item_headers item) _
                Ha Hf Hd Hg eq_refl Hp) as (s2 & r2 & N & Hr & _).
    simpl in N, Hr. eexists. split; [exact N|]. unfold pending. simpl. auto.
  - destruct (next_item_line json_loads output_stream_factory p (item_line item)
                (item_body item ++ newline :: rest) (item_headers item)
                Ha Hf Hd Hcl Hp) as (s1 & r1 & N & Hr & _).
    rewrite (cut_line _ _ Hb) in N, Hr. simpl in N, Hr.
    eexists. split; [exact N|]. unfold pending. simpl. auto.
Qed.

Lemma item_bytes_not_empty (item : Item) (rest : bytes) :
  (List.length rest < List.length (item_bytes item ++ rest))%nat.
Proof.
  unfold item_bytes. rewrite !length_app. simpl. rewrite length_app. simpl. lia.
Qed.

Lemma get_items_loop_well_formed (items : list Item) :
  forall (fuel : nat) (p : StreamingEnvelopeParser),
    chunk_size p <> 0 ->
    at_eof p = false ->
    Forall (well_formed json_loads) items ->
    pending p = List.concat (map item_bytes items) ->
    (List.length (pending p) < fuel)%nat ->
    exists p',
      get_items_loop json_loads output_stream_factory fuel p =
        (map (fun item => (item_headers item,
                           output_stream_factory (item_headers item) ++ item_body item))
           items,
         Return p').
Proof.
  induction items as [|item items IH]; intros fuel p Hc He Hwf Hp Hfuel;
    (destruct fuel as [|fuel]; [lia|]); cbn [get_items_loop]; rewrite He.
  - simpl in Hp. unfold next_item.
    rewrite (parse_headers_at_end json_loads p true []); [| now left | reflexivity | exact Hp].
    cbn [is_empty bind is_None]. eexists. reflexivity.
  - simpl in Hp. inversion Hwf as [|? ? Hitem Hitems]; subst.
    destruct (next_item_well_formed p item _ Hc Hitem Hp) as (p' & N & Hp' & He' & Hc').
    rewrite N.
    destruct (IH fuel p') as (p'' & L); auto.
    + congruence.
    + rewrite Hp'. pose proof (item_bytes_not_empty item (List.concat (map item_bytes items))).
      rewrite Hp in Hfuel. lia.
    + rewrite L. simpl. eexists. reflexivity.
Qed.

End Envelopes.

Section RoundTrip.
Import Parsers Pending Wire.
Local Set Default Proof Using "Type".

Variable json_loads : bytes -> loads_result.

(** X12: an envelope of well-formed items is parsed back into its parts.
    For the bytes of an envelope whose header line decodes to headers that
    are not [None], and whose items each give the length of their body or
    have a body of one line, [get_envelope_headers] gives the headers and
    [get_items_directly] yields the items, headers and body, in their order,
    and then ends; with every chunk size other than 0. *)
Theorem well_formed_envelope_is_parsed (line : bytes) (headers : json)
    (items : list Item) (chunk_size : Z) :
  chunk_size <> 0 ->
  find line newline = -1 ->
  json_loads line = Decoded headers ->
  is_None headers = false ->
  Forall (well_formed json_loads) items ->
  parse json_loads (envelope_bytes line items) chunk_size =
    (Return headers,
     (map (fun item => (item_headers item, item_body item)) items, Return tt)).
Proof.
  intros Hc Hf Hd Hn Hwf. unfold parse, get_items_directly, get_items.
  assert (G : exists p',
    get_envelope_headers json_loads (new (envelope_bytes line items) chunk_size) =
      Return (headers, p') /\
    pending p' = List.concat (map item_bytes items) /\ at_eof p' = false /\
    Parsers.chunk_size p' = chunk_size).
  { unfold get_envelope_headers. simpl.
    destruct (parse_headers_line json_loads (new (envelope_bytes line items) chunk_size)
                false line (List.concat (map item_bytes items)))
      as (s' & r' & P & Hr & _); [now left | exact Hf | reflexivity |].
    rewrite P. unfold decode_headers. rewrite Hd. cbn [bind]. simpl. rewrite Hn.
    eexists. split; [reflexivity|]. unfold pending. simpl. auto. }
  destruct G as (p' & G & Hp' & He' & Hc'). rewrite G.
  assert (Hc'' : Parsers.chunk_size p' <> 0) by congruence.
  assert (Hfuel : (List.length (pending p') <
                   S (List.length (remainder p' ++ input_stream p')))%nat)
    by (unfold pending; lia).
  destruct (get_items_loop_well_formed json_loads (fun _ => []) items _ p'
              Hc'' He' Hwf Hp' Hfuel) as (p'' & L).
  rewrite L. reflexivity.
Qed.

End RoundTrip.

(** ** What a finished parse has consumed *)

Section Accounting.
Import Parsers Pending.
Local Set Default Proof Using "Type".

Variable json_loads : bytes -> loads_result.
Variable output_stream_factory : json -> bytes.

Lemma cut_line_no_newline (l : bytes) : find (fst (cut l)) newline = -1.
Proof.
  induction l as [|c l IH]; simpl; [reflexivity|].
  destruct (Byte.eqb c newline) eqn:E; [reflexivity|].
  destruct (cut l) as [line after]. simpl in *. now rewrite E, IH.
Qed.

Lemma process_suffix (finder finder' : Finder) (out out' chunk rem : bytes) (done : bool) :
  process finder out chunk = Return (finder', out', (done, rem)) ->
  exists used, chunk = used ++ rem.
Proof.
  destruct finder as [|length e count]; simpl.
  - destruct (negb (find chunk newline =? -1)); intros H; injection H as _ _ _ <-.
    + eexists. symmetry. apply firstn_skipn.
    + exists chunk. now rewrite app_nil_r.
  - destruct (as_int length) as [l|]; [|discriminate].
    destruct (l - count <=? len chunk); intros H; injection H as _ _ _ <-.
    + eexists. symmetry. apply firstn_skipn.
    + exists chunk. now rewrite app_nil_r.
Qed.

Lemma readuntil_loop_step (fuel : nat) :
  forall (s out : bytes) (finder : Finder) (c : Z) (s' o r' : bytes) (e : bool),
    adequate c s ->
    readuntil_loop fuel s finder out c = Return (s', o, (r', e)) ->
    (exists used, s = used ++ r' ++ s') /\ (e = true -> r' ++ s' = []).
Proof.
  induction fuel as [|fuel IH]; intros s out finder c s' o r' e Ha;
    cbn [readuntil_loop]; [discriminate|].
  destruct (read s c) as [chunk s1] eqn:Rd.
  destruct (read_spec s c chunk s1 Ha Rd) as (Happ & Hempty & Ha1).
  destruct chunk as [|b chunk].
  - destruct (error_for_eof finder); [discriminate|].
    intros H. injection H as <- _ <- <-.
    specialize (Hempty eq_refl). simpl in Happ. rewrite Hempty in Happ. subst s s1.
    split; [now exists [] | reflexivity].
  - destruct (process finder out (b :: chunk)) as [[[finder' out'] [done rem]]|e'|] eqn:P;
      cbn [bind]; [|discriminate|discriminate].
    destruct done.
    + intros H. injection H as <- _ <- <-.
      destruct (process_suffix _ _ _ _ _ _ _ P) as (used & Hu).
      split; [|discriminate]. exists used. rewrite <- Happ, Hu. now rewrite <- app_assoc.
    + intros H. destruct (IH _ _ _ _ _ _ _ _ Ha1 H) as ((used & Hu) & He).
      split; [|exact He]. exists ((b :: chunk) ++ used).
      rewrite <- Happ, Hu. now rewrite <- app_assoc.
Qed.

(** A call of [readuntil] consumes a prefix of the bytes it finds, and when
    it reports the end of the stream nothing is left. *)
Lemma readuntil_step (s r out : bytes) (finder : Finder) (c : Z)
    (s' o r' : bytes) (e : bool) :
  adequate c s ->
  readuntil s r finder out c = Return (s', o, (r', e)) ->
  adequate c s' /\ (exists used, r ++ s = used ++ r' ++ s') /\ (e = true -> r' ++ s' = []).
Proof.
  intros Ha R. split; [exact (readuntil_adequate _ _ _ _ _ _ _ _ Ha R)|].
  unfold readuntil in R.
  destruct (process finder out r) as [[[finder' out'] [done rem]]|e'|] eqn:P;
    cbn [bind] in R; [|discriminate|discriminate].
  destruct done.
  - injection R as <- _ <- <-.
    destruct (process_suffix _ _ _ _ _ _ _ P) as (used & Hu).
    split; [|discriminate]. exists used. rewrite Hu. now rewrite <- app_assoc.
  - destruct (readuntil_loop_step _ _ _ _ _ _ _ _ _ Ha R) as ((used & Hu) & He).
    split; [|exact He]. exists (r ++ used). rewrite Hu. now rewrite <- app_assoc.
Qed.

Lemma parse_headers_step (p q : StreamingEnvelopeParser) (eof_is_error : bool) (h : json) :
  adequate (chunk_size p) (input_stream p) ->
  _parse_headers json_loads p eof_is_error = Return (h, q) ->
  chunk_size q = chunk_size p /\
  adequate (chunk_size q) (input_stream q) /\
  (exists used, pending p = used ++ pending q) /\
  (at_eof q = true -> pending q = []) /\
  (is_None h = true -> at_eof q = false ->
   exists line, find line newline = -1 /\ json_loads line = Decoded JNull /\
                pending p = line ++ newline :: pending q).
Proof.
  intros Ha. unfold _parse_headers, pending.
  destruct (readuntil_newline_spec (input_stream p) (remainder p) [] _ Ha)
    as (s' & r' & R & Hr & Ha').
  rewrite R. cbn [bind].
  pose proof (find_cut (remainder p ++ input_stream p)) as Hcut.
  pose proof (cut_line_no_newline (remainder p ++ input_stream p)) as Hline.
  destruct (cut (remainder p ++ input_stream p)) as [line [rest|]]; simpl in *.
  - destruct Hcut as [_ Hcut].
    destruct (json_loads line) as [v| |] eqn:Hd; [|discriminate|discriminate].
    intros H. injection H as <- <-. simpl. repeat split; auto.
    + exists (line ++ [newline]). rewrite <- app_assoc. simpl. now rewrite Hr.
    + discriminate.
    + intros Hn _. exists line. destruct v; try discriminate. now rewrite Hr.
  - destruct Hcut as [_ Hcut]. apply app_eq_nil in Hr. destruct Hr as [-> ->].
    assert (Hq : forall v,
      Return (v, {| input_stream := []; chunk_size := chunk_size p; remainder := [];
                    at_eof := true; envelope_headers := envelope_headers p |})
        = Return (h, q) ->
      chunk_size q = chunk_size p /\ adequate (chunk_size q) (input_stream q) /\
      (exists used, remainder p ++ input_stream p = used ++ remainder q ++ input_stream q) /\
      (at_eof q = true -> remainder q ++ input_stream q = []) /\
      (is_None h = true -> at_eof q = false ->
       exists line0, find line0 newline = -1 /\ json_loads line0 = Decoded JNull /\
         remainder p ++ input_stream p = line0 ++ newline :: remainder q ++ input_stream q)).
    { intros v H. injection H as <- <-. simpl. repeat split; auto.
      - exists (remainder p ++ input_stream p). now rewrite app_nil_r.
      - discriminate. }
    destruct (is_empty line); [apply Hq|].
    destruct eof_is_error; [discriminate|].
    destruct (json_loads line) as [v| |]; [apply Hq | discriminate | discriminate].
Qed.

Lemma next_item_step (p p' : StreamingEnvelopeParser) (item : json * bytes) :
  adequate (chunk_size p) (input_stream p) ->
  next_item json_loads output_stream_factory p = Return (Some item, p') ->
  adequate (chunk_size p') (input_stream p') /\
  (exists used, pending p = used ++ pending p') /\
  (at_eof p' = true -> pending p' = []).
Proof.
  intros Ha. unfold next_item.
  destruct (_parse_headers json_loads p true) as [[h q]|e|] eqn:P; cbn [bind];
    [|discriminate|discriminate].
  destruct (parse_headers_step _ _ _ _ Ha P) as (Hc & Haq & (used0 & Hu0) & _ & _).
  destruct (is_None h); [discriminate|].
  destruct (contains h "length") as [has|e|]; cbn [bind]; [|discriminate|discriminate].
  destruct ((if has
             then length <- getitem h "length" ;;
                  Return (LengthFinder length
                            (Some "EOF while reading item with explicitly specified length")
                            0)
             else Return NewlineFinder)) as [finder|e|]; cbn [bind];
    [|discriminate|discriminate].
  destruct (readuntil (input_stream q) (remainder q) finder
              (output_stream_factory h) (chunk_size q))
    as [[[s1 o1] [r1 e1]]|e|] eqn:R1; cbn [bind]; [|discriminate|discriminate].
  destruct (readuntil_step _ _ _ _ _ _ _ _ _ Haq R1) as (Ha1 & (used1 & Hu1) & He1).
  cbn [set_stream input_stream remainder chunk_size].
  destruct has; cbn [bind].
  - destruct (readuntil s1 r1 NewlineFinder [] (chunk_size q))
      as [[[s2 o2] [r2 e2]]|e|] eqn:R2; cbn [bind]; [|discriminate|discriminate].
    destruct (readuntil_step _ _ _ _ _ _ _ _ _ Ha1 R2) as (Ha2 & (used2 & Hu2) & He2).
    intros H. injection H as _ <-. unfold pending in *. simpl.
    repeat split; auto.
    exists (used0 ++ used1 ++ used2). rewrite Hu0, Hu1, Hu2. now rewrite <- !app_assoc.
  - intros H. injection H as _ <-. unfold pending in *. simpl.
    repeat split; auto.
    exists (used0 ++ used1). rewrite Hu0, Hu1. now rewrite <- !app_assoc.
Qed.

Lemma next_item_none (p p' : StreamingEnvelopeParser) :
  adequate (chunk_size p) (input_stream p) ->
  next_item json_loads output_stream_factory p = Return (None, p') ->
  at_eof p' = true /\
  (pending p' = [] \/
   exists line, find line newline = -1 /\ json_loads line = Decoded JNull /\
                pending p = line ++ newline :: pending p').
Proof.
  intros Ha. unfold next_item.
  destruct (_parse_headers json_loads p true) as [[h q]|e|] eqn:P; cbn [bind];
    [|discriminate|discriminate].
  destruct (parse_headers_step _ _ _ _ Ha P) as (_ & _ & _ & Heof & Hnull).
  destruct (is_None h).
  - intros H. injection H as <-. split; [reflexivity|].
    change (pending (set_stream q (input_stream q) (remainder q) true)) with (pending q).
    destruct (at_eof q); [left; now apply Heof | right; now apply Hnull].
  - destruct (contains h "length") as [has|e|]; cbn [bind]; [|discriminate|discriminate].
    destruct ((if has
               then length <- getitem h "length" ;;
                    Return (LengthFinder length
                              (Some "EOF while reading item with explicitly specified length")
                              0)
               else Return NewlineFinder)) as [finder|e|]; cbn [bind];
      [|discriminate|discriminate].
    destruct (readuntil (input_stream q) (remainder q) finder
                (output_stream_factory h) (chunk_size q))
      as [[[s1 o1] [r1 e1]]|e|]; cbn [bind]; [|discriminate|discriminate].
    cbn [set_stream input_stream remainder chunk_size].
    destruct has; cbn [bind]; [|discriminate].
    destruct (readuntil s1 r1 NewlineFinder [] (chunk_size q))
      as [[[s2 o2] [r2 e2]]|e|]; cbn [bind]; discriminate.
Qed.

Lemma get_items_loop_leaves (fuel : nat) :
  forall (p p' : StreamingEnvelopeParser) (items : list (json * bytes)),
    adequate (chunk_size p) (input_stream p) ->
    (at_eof p = true -> pending p = []) ->
    get_items_loop json_loads output_stream_factory fuel p = (items, Return p') ->
    at_eof p' = true /\
    (pending p' = [] \/
     exists used line,
       pending p = used ++ line ++ newline :: pending p' /\
       find line newline = -1 /\ json_loads line = Decoded JNull).
Proof.
  induction fuel as [|fuel IH]; intros p p' items Ha Heof; cbn [get_items_loop];
    (destruct (at_eof p) eqn:E;
     [intros H; injection H as _ <-; split; [exact E | left; now apply Heof]|]);
    [discriminate|].
  destruct (next_item json_loads output_stream_factory p) as [[[item|] q]|e|] eqn:N;
    [| |discriminate|discriminate].
  - destruct (next_item_step _ _ _ Ha N) as (Haq & (used0 & Hu0) & Heofq).
    destruct (get_items_loop json_loads output_stream_factory fuel q) as [items' ending] eqn:L.
    intros H. injection H as _ ->.
    destruct (IH _ _ _ Haq Heofq L) as (Hend & [Hnil|(used & line & Hu & Hf & Hd)]).
    + split; [exact Hend | now left].
    + split; [exact Hend | right]. exists (used0 ++ used), line.
      rewrite Hu0, Hu. rewrite <- app_assoc. auto.
  - intros H. injection H as _ <-.
    destruct (next_item_none _ _ Ha N) as (Hend & [Hnil|(line & Hf & Hd & Hu)]).
    + split; [exact Hend | now left].
    + split; [exact Hend | right]. exists [], line. auto.
Qed.

(** X13: when the items generator of a parser ends without an exception, the
    parser is at the end of its stream, and it has consumed every byte of
    the input; unless a header line that is the JSON [null] stopped it, in
    which case what is left is what followed that line. *)
Theorem what_a_finished_parse_leaves (input : bytes) (chunk_size : Z)
    (items : list (json * bytes)) (p' : StreamingEnvelopeParser) :
  chunk_size <> 0 ->
  get_items json_loads output_stream_factory (new input chunk_size) =
    (items, Return p') ->
  at_eof p' = true /\
  (pending p' = [] \/
   exists used line,
     input = used ++ line ++ newline :: pending p' /\
     find line newline = -1 /\ json_loads line = Decoded JNull).
Proof.
  intros Hc. unfold get_items.
  assert (Ha : adequate (Parsers.chunk_size (new input chunk_size))
                 (input_stream (new input chunk_size))) by now left.
  destruct (get_envelope_headers json_loads (new input chunk_size)) as [[h p1]|e|] eqn:G;
    [|discriminate|discriminate].
  unfold get_envelope_headers in G. cbn [new envelope_headers is_None] in G.
  fold (new input chunk_size) in G.
  destruct (_parse_headers json_loads (new input chunk_size) false) as [[h0 q]|e|] eqn:P;
    cbn [bind] in G; [|discriminate|discriminate].
  destruct (parse_headers_step _ _ _ _ Ha P) as (Hcq & Haq & (used0 & Hu0) & Heofq & _).
  cbn [envelope_headers input_stream remainder at_eof Parsers.chunk_size] in G.
  destruct (is_None h0); [discriminate|]. injection G as _ <-.
  intros L. apply get_items_loop_leaves in L; [| exact Haq | exact Heofq].
  destruct L as (Hend & [Hnil|(used & line & Hu & Hf & Hd)]).
  - split; [exact Hend | now left].
  - split; [exact Hend | right]. exists (used0 ++ used), line.
    unfold pending in *. simpl in *. rewrite Hu0, Hu. rewrite <- app_assoc. auto.
Qed.

End Accounting.

(** ** The properties of items and envelopes on sample data *)

Section ItemExamples.
Import Parsers Pending Wire.

(** An item of three bytes with four bytes more before its newline. *)
Lemma bytes_after_the_body_are_dropped_witness :
  let p := new (Sample.length_header "3" ++ Sample.nl ++ Sample.b "abcJUNK"
                ++ Sample.nl ++ Sample.b "xyz") 2 in
  exists p',
    next_item Sample.loads (fun _ => []) p =
      Return (Some (JObj [("length", JNum 3)], Sample.b "abc"), p') /\
    pending p' = Sample.b "xyz" /\ at_eof p' = false.
Proof.
  cbv zeta.
  destruct (bytes_after_the_body_are_dropped Sample.loads (fun _ => [])
              (new (Sample.length_header "3" ++ Sample.nl ++ Sample.b "abcJUNK"
                    ++ Sample.nl ++ Sample.b "xyz") 2)
              (Sample.length_header "3") (Sample.b "abc") (Sample.b "JUNK")
              (JObj [("length", JNum 3)]) (JNum 3)) as [Hnewline _];
    [simpl; lia | reflexivity | reflexivity | reflexivity | reflexivity | reflexivity |].
  exact (Hnewline (Sample.b "xyz") eq_refl).
Defined.

(** An item that declares five bytes and has three. *)
Lemma item_shorter_than_its_length_witness :
  next_item Sample.loads (fun _ => [])
    (new (Sample.length_header "5" ++ Sample.nl ++ Sample.b "abc") 2) =
  Raise (ParseError "EOF while reading item with explicitly specified length").
Proof.
  apply (item_shorter_than_its_length Sample.loads (fun _ => []) _
           (Sample.length_header "5") (Sample.b "abc")
           (JObj [("length", JNum 5)]) (JNum 5) 5);
    [simpl; lia | reflexivity | reflexivity | reflexivity | reflexivity
    | vm_compute; reflexivity | reflexivity].
Defined.

(** An envelope whose second line is [null]: the item after it is not seen. *)
Lemma null_item_headers_end_the_items_witness :
  let p := new (Sample.b "null" ++ Sample.nl ++ Sample.b "{}" ++ Sample.nl
                ++ Sample.b "abc") 3 in
  exists p',
    get_items_loop Sample.loads (fun _ => []) 1 p = ([], Return p') /\
    at_eof p' = true /\
    pending p' = Sample.b "{}" ++ Sample.nl ++ Sample.b "abc".
Proof.
  cbv zeta.
  apply (null_item_headers_end_the_items Sample.loads (fun _ => []) _
           (Sample.b "null") (Sample.b "{}" ++ Sample.nl ++ Sample.b "abc") 0%nat);
    [simpl; lia | reflexivity | reflexivity | reflexivity | reflexivity].
Defined.

(** Item headers that are the integer 5, and item headers whose [length] is
    [null]. *)
Lemma item_headers_of_the_wrong_type_witness :
  next_item Sample.loads_scalars (fun _ => [])
    (new (Sample.b "5" ++ Sample.nl ++ Sample.b "abc") 2) = Raise TypeError /\
  next_item Sample.loads_null_length (fun _ => [])
    (new (Sample.null_length_header ++ Sample.nl ++ Sample.b "abc") 2) =
    Raise TypeError.
Proof.
  split.
  - apply (item_headers_of_the_wrong_type Sample.loads_scalars (fun _ => []) _
             (Sample.b "5") (Sample.b "abc") (JNum 5));
      [simpl; lia | reflexivity | reflexivity | reflexivity | left; now exists 5].
  - apply (item_headers_of_the_wrong_type Sample.loads_null_length (fun _ => []) _
             Sample.null_length_header (Sample.b "abc") (JObj [("length", JNull)]));
      [simpl; lia | reflexivity | reflexivity | reflexivity |].
    do 4 right. exists [("length", JNull)], JNull.
    split; [reflexivity|]. split; [reflexivity | now left].
Defined.

(** A header line that is not JSON, and one that is not UTF-8. *)
Lemma header_line_that_does_not_decode_witness :
  get_envelope_headers Sample.loads_utf8
    (new (Sample.b "{" ++ Sample.nl ++ Sample.b "abc") 2) =
    Raise (ParseError "Header not JSON") /\
  get_envelope_headers Sample.loads_utf8 (new ([xff] ++ Sample.nl ++ Sample.b "abc") 2) =
    Raise UnicodeDecodeError.
Proof.
  split.
  - apply (header_line_that_does_not_decode Sample.loads_utf8 (fun _ => []) _
             (Sample.b "{") (Sample.b "abc"));
      [simpl; lia | reflexivity | reflexivity | reflexivity | reflexivity].
  - apply (header_line_that_does_not_decode Sample.loads_utf8 (fun _ => []) _
             [xff] (Sample.b "abc"));
      [simpl; lia | reflexivity | reflexivity | reflexivity | reflexivity].
Defined.

(** An envelope of two items: one of four bytes that hold a newline, with
    its length, and one of one line, without. *)
Lemma well_formed_envelope_is_parsed_witness :
  let first := {| item_line := Sample.length_header "4";
                  item_headers := JObj [("length", JNum 4)];
                  item_body := Sample.b "ab" ++ Sample.nl ++ Sample.b "c" |} in
  let second := {| item_line := Sample.b "{}"; item_headers := JObj [];
                   item_body := Sample.b "xyz" |} in
  parse Sample.loads (envelope_bytes (Sample.b "{}") [first; second]) 3 =
    (Return (JObj []),
     ([(JObj [("length", JNum 4)], Sample.b "ab" ++ Sample.nl ++ Sample.b "c");
       (JObj [], Sample.b "xyz")], Return tt)).
Proof.
  intros first second.
  refine (well_formed_envelope_is_parsed Sample.loads (Sample.b "{}") (JObj [])
            [first; second] 3 _ _ _ _ _);
    [lia | reflexivity | reflexivity | reflexivity |].
  constructor; [|constructor; [|constructor]].
  - split; [reflexivity | split; [reflexivity | left; split; reflexivity]].
  - split; [reflexivity | split; [reflexivity | right; split; reflexivity]].
Defined.

(** An envelope with one item, read two bytes at a time. *)
Lemma what_a_finished_parse_leaves_witness :
  let input := Sample.b "{}" ++ Sample.nl ++ Sample.b "{}" ++ Sample.nl
               ++ Sample.b "abc" in
  exists items p',
    get_items Sample.loads (fun _ => []) (new input 2) = (items, Return p') /\
    at_eof p' = true /\
    (pending p' = [] \/
     exists used line,
       input = used ++ line ++ newline :: pending p' /\
       find line newline = -1 /\ Sample.loads line = Decoded JNull).
Proof.
  cbv zeta.
  destruct (get_items Sample.loads (fun _ => [])
              (new (Sample.b "{}" ++ Sample.nl ++ Sample.b "{}" ++ Sample.nl
                    ++ Sample.b "abc") 2)) as [items [p'|e|]] eqn:G;
    try (vm_compute in G; discriminate).
  exists items, p'. split; [reflexivity|].
  apply (what_a_finished_parse_leaves Sample.loads (fun _ => []) _ 2 items p');
    [lia | exact G].
Defined.

End ItemExamples.

(** ** The template filters *)

Section Split.
Import Templatetags.
Local Open Scope answer_scope.

Context {A : Type}.

Lemma ints_eqb_eq (x y : list Z) : ints_eqb x y = true <-> x = y.
Proof.
  revert y. induction x as [|a x IH]; intros [|b y]; simpl; split; intros H;
    try reflexivity; try discriminate.
  - apply andb_true_iff in H. destruct H as [Hab H]. apply Z.eqb_eq in Hab.
    apply IH in H. now subst.
  - injection H as -> ->. rewrite Z.eqb_refl. simpl. now apply IH.
Qed.

Lemma split_loop_app (joined : list A) (lengths : list Z) :
  forall (start : Z) (result : list (list A)),
    _split_loop joined lengths start result =
    result ++ _split_loop joined lengths start [].
Proof.
  induction lengths as [|length lengths IH]; intros start result; simpl.
  - now rewrite app_nil_r.
  - rewrite (IH _ (result ++ _)), (IH _ [_]). now rewrite <- app_assoc.
Qed.

Lemma slice_forward (joined : list A) (start length : Z) :
  0 <= start -> 0 <= length ->
  slice joined start (start + length) =
  firstn (Z.to_nat length) (skipn (Z.to_nat start) joined).
Proof.
  intros Hs Hl. unfold slice, Parsers.slice_bound.
  destruct (start <? 0) eqn:E1; [lia|]. destruct (start + length <? 0) eqn:E2; [lia|].
  f_equal. lia.
Qed.

Lemma len_slice_nonneg (joined : list A) (lo hi : Z) : 0 <= len (slice joined lo hi).
Proof. unfold len. lia. Qed.

Lemma firstn_plus (a b : nat) (l : list A) :
  firstn (a + b) l = firstn a l ++ firstn b (skipn a l).
Proof.
  revert l. induction a as [|a IH]; intros l; simpl; [reflexivity|].
  destruct l as [|x l]; simpl; [now rewrite firstn_nil | now rewrite IH].
Qed.

Lemma split_loop_cuts (joined : list A) (lengths : list Z) :
  forall start : Z,
    0 <= start ->
    Forall (fun n => 0 <= n) lengths ->
    start + total lengths <= len joined ->
    map len (_split_loop joined lengths start []) = lengths /\
    List.concat (_split_loop joined lengths start []) =
      firstn (Z.to_nat (total lengths)) (skipn (Z.to_nat start) joined).
Proof.
  induction lengths as [|length lengths IH]; intros start Hs Hall Hsum; simpl.
  - split; reflexivity.
  - inversion Hall as [|? ? Hl Hrest]; subst. simpl in Hsum.
    assert (Ht : 0 <= total lengths).
    { clear -Hrest. induction Hrest; simpl; [lia|]. unfold total in *. lia. }
    destruct (IH (start + length)) as [Hlen Hcat]; [lia | exact Hrest | unfold total in *; lia |].
    rewrite split_loop_app. simpl. rewrite Hlen, Hcat.
    rewrite (slice_forward _ _ _ Hs Hl). split.
    + f_equal. unfold len. rewrite length_firstn, length_skipn.
      unfold len, total in *. lia.
    + replace (Z.to_nat (length + total lengths))
        with (Z.to_nat length + Z.to_nat (total lengths))%nat by lia.
      rewrite firstn_plus, skipn_skipn. do 3 f_equal. lia.
Qed.

Lemma split_loop_checked (joined : list A) (lengths : list Z) :
  forall start : Z,
    0 <= start <= len joined ->
    map len (_split_loop joined lengths start []) = lengths ->
    Forall (fun n => 0 <= n) lengths /\ start + total lengths <= len joined.
Proof.
  induction lengths as [|length lengths IH]; intros start Hs; simpl.
  - intros _. split; [constructor | lia].
  - rewrite split_loop_app. simpl. intros H. injection H as Hl Hrest.
    assert (Hnn : 0 <= length).
    { rewrite <- Hl. apply len_slice_nonneg. }
    rewrite (slice_forward _ _ _ (proj1 Hs) Hnn) in Hl.
    unfold len in Hl. rewrite length_firstn, length_skipn in Hl.
    destruct (IH (start + length)) as [Hall Hsum]; [unfold len in *; lia | exact Hrest |].
    split; [now constructor | lia].
Qed.

(** X14: [_split] cuts [joined] into consecutive parts of the given lengths.
    When the lengths are not negative and add up to no more than [joined]
    holds, the parts have these lengths and make up, in their order, the
    start of [joined]; for any other lengths the assertion fails. *)
Theorem split_cuts_consecutive_parts (joined : list A) (lengths : list Z) :
  (Forall (fun n => 0 <= n) lengths /\ total lengths <= len joined ->
   exists parts,
     _split joined lengths = Gives parts /\
     map len parts = lengths /\
     List.concat parts = firstn (Z.to_nat (total lengths)) joined) /\
  (~ (Forall (fun n => 0 <= n) lengths /\ total lengths <= len joined) ->
   _split joined lengths = Raises (Exn AssertionError)).
Proof.
  unfold _split. split.
  - intros [Hall Hsum].
    destruct (split_loop_cuts joined lengths 0) as [Hlen Hcat]; [lia | exact Hall | lia |].
    exists (_split_loop joined lengths 0 []).
    rewrite Hlen, (proj2 (ints_eqb_eq lengths lengths) eq_refl). auto.
  - intros Hnot.
    destruct (ints_eqb (map len (_split_loop joined lengths 0 [])) lengths) eqn:E;
      [|reflexivity].
    apply ints_eqb_eq in E. elim Hnot.
    destruct (split_loop_checked joined lengths 0) as [Hall Hsum];
      [pose proof (len_nonneg joined); lia | exact E |].
    split; [exact Hall | lia].
Qed.

End Split.

Section Sha.
Import Templatetags.

Lemma substring_whole (n : nat) (s : string) :
  (String.length s <= n)%nat -> substring 0 n s = s.
Proof.
  revert n. induction s as [|c s IH]; intros [|n]; simpl; intros H;
    try reflexivity; try lia.
  now rewrite IH by lia.
Qed.

Lemma length_substring (n : nat) (s : string) :
  String.length (substring 0 n s) = Nat.min n (String.length s).
Proof.
  revert n. induction s as [|c s IH]; intros [|n]; simpl; try reflexivity.
  now rewrite IH.
Qed.

Lemma list_ascii_of_substring (n : nat) (s : string) :
  list_ascii_of_string (substring 0 n s) = firstn n (list_ascii_of_string s).
Proof.
  revert n. induction s as [|c s IH]; intros [|n]; simpl; try reflexivity.
  now rewrite IH.
Qed.

Lemma forallb_firstn {B : Type} (f : B -> bool) (n : nat) (l : list B) :
  forallb f l = true -> forallb f (firstn n l) = true.
Proof.
  revert n. induction l as [|x l IH]; intros [|n]; simpl; try reflexivity.
  intros H. apply andb_true_iff in H. destruct H as [-> H]. simpl. now apply IH.
Qed.

Lemma prefix_substring (n : nat) (s : string) : String.prefix (substring 0 n s) s = true.
Proof.
  revert n. induction s as [|c s IH]; intros [|n]; simpl; try reflexivity.
  destruct (Ascii.ascii_dec c c) as [_|Hne]; [apply IH | now elim Hne].
Qed.

Lemma prefix_whole (s : string) : String.prefix s s = true.
Proof.
  induction s as [|c s IH]; simpl; [reflexivity|].
  destruct (Ascii.ascii_dec c c) as [_|Hne]; [exact IH | now elim Hne].
Qed.

Lemma issha_spec (value : string) :
  issha value = true ->
  (12 <= String.length value)%nat /\
  forallb in_sha_class (list_ascii_of_string value) = true.
Proof.
  unfold issha.
  destruct (existsb (Z.eqb (Z.of_nat (String.length value))) [12; 16; 20; 32; 40; 64])
    eqn:E; simpl; [|discriminate].
  destruct (SHA_RE_fullmatch value) eqn:M; simpl; [|discriminate]. intros _. split.
  - apply existsb_exists in E. destruct E as (n & Hin & Hn). apply Z.eqb_eq in Hn.
    simpl in Hin. lia.
  - unfold SHA_RE_fullmatch in M. destruct value; [discriminate | exact M].
Qed.

(** X15: [shortsha] is idempotent, and it gives a prefix of its argument:
    the argument itself when that does not look like a hash, and otherwise
    its first 12 characters, which again look like a hash. *)
Theorem shortsha_is_idempotent (value : string) :
  shortsha (shortsha value) = shortsha value /\
  String.prefix (shortsha value) value = true /\
  (issha value = false -> shortsha value = value) /\
  (issha value = true ->
   shortsha value = substring 0 12 value /\
   String.length (shortsha value) = 12%nat /\
   issha (shortsha value) = true).
Proof.
  unfold shortsha at 2 3 4 5 6 7. destruct (issha value) eqn:E; cbn [negb].
  - destruct (issha_spec value E) as [Hlen Hall].
    assert (Hl : String.length (substring 0 12 value) = 12%nat)
      by (rewrite length_substring; lia).
    assert (Hs : issha (substring 0 12 value) = true).
    { unfold issha. rewrite Hl. cbn [existsb Z.of_nat Z.eqb Pos.of_succ_nat Pos.succ
                                       Pos.eqb orb negb].
      unfold SHA_RE_fullmatch.
      destruct (substring 0 12 value) eqn:Es; [discriminate|].
      rewrite <- Es, list_ascii_of_substring. now rewrite forallb_firstn. }
    split.
    + unfold shortsha. rewrite Hs. cbn [negb]. apply substring_whole. lia.
    + split; [apply prefix_substring|]. split; [discriminate|].
      intros _. unfold shortsha. rewrite E. cbn [negb]. auto.
  - split; [unfold shortsha; now rewrite E|].
    split; [apply prefix_whole|]. split; [reflexivity | discriminate].
Qed.

(** A hash of 40 characters is shortened to 12; a version number is kept. *)
Example shortsha_of_a_hash_and_of_a_version :
  shortsha "0123456789abcdef0123456789abcdef01234567" = "0123456789ab"%string /\
  shortsha "1.0.0" = "1.0.0"%string /\
  issha "0123456789AB" = false.
Proof. repeat split; reflexivity. Qed.

End Sha.

Section Pygmentize.
Import Templatetags.
Local Open Scope answer_scope.
Local Set Default Proof Using "Type".

Variable _core_pygments : string -> string.

Lemma without_newlines_has_none (s : string) :
  ~ In LF (list_ascii_of_string (without_newlines s)).
Proof.
  induction s as [|c s IH]; simpl; [tauto|].
  destruct (Ascii.eqb c LF) eqn:E; [exact IH|].
  simpl. intros [H|H]; [|now apply IH]. apply Ascii.eqb_neq in E. now elim E.
Qed.

Lemma cleaned_has_no_newline (line : string) :
  ~ In LF (list_ascii_of_string (cleaned line)).
Proof.
  unfold cleaned. destruct (String.eqb (without_newlines line) EmptyString).
  - simpl. intros [H|[]]. discriminate.
  - apply without_newlines_has_none.
Qed.

Lemma split_one_line (s : string) :
  ~ In LF (list_ascii_of_string s) -> split s = [s].
Proof.
  induction s as [|c s IH]; simpl; intros H; [reflexivity|].
  destruct (Ascii.eqb c LF) eqn:E.
  - apply Ascii.eqb_eq in E. elim H. now left.
  - rewrite IH; [reflexivity|]. intros Hin. apply H. now right.
Qed.

Lemma split_first_line (s rest : string) :
  ~ In LF (list_ascii_of_string s) ->
  split (s ++ String LF rest) = s :: split rest.
Proof.
  induction s as [|c s IH]; simpl; intros H; [reflexivity|].
  destruct (Ascii.eqb c LF) eqn:E.
  - apply Ascii.eqb_eq in E. elim H. now left.
  - rewrite IH; [reflexivity|]. intros Hin. apply H. now right.
Qed.

(** Joining lines that hold no newline and splitting the text again gives
    the lines. *)
Lemma split_joined_lines (lines : list string) :
  lines <> [] ->
  Forall (fun line => ~ In LF (list_ascii_of_string line)) lines ->
  split (String.concat newline lines) = lines.
Proof.
  induction lines as [|line lines IH]; [congruence|]. intros _ Hall.
  inversion Hall as [|? ? Hline Hrest]; subst.
  destruct lines as [|line' lines].
  - simpl. now apply split_one_line.
  - change (String.concat newline (line :: line' :: lines))
      with (line ++ String LF (String.concat newline (line' :: lines)))%string.
    rewrite (split_first_line _ _ Hline). f_equal. apply IH; [discriminate | exact Hrest].
Qed.

Lemma for_each_strings (lines : list string) :
  for_each replace_newlines (map JStr lines) = Gives (map without_newlines lines).
Proof.
  induction lines as [|line lines IH]; simpl; [reflexivity|]. now rewrite IH.
Qed.

(** On lines that are strings, [_pygmentize_lines] hands the highlighter the
    cleaned lines, joined by newlines, and passes its assertion exactly when
    it gets back as many lines as it got. *)
Lemma pygmentize_lines_strings (lines : list string) :
  lines <> [] ->
  let result :=
    removelast (split (_core_pygments (String.concat newline (map cleaned lines)))) in
  _pygmentize_lines _core_pygments (map JStr lines) =
    if len lines =? len result then Gives result else Raises (Exn AssertionError).
Proof.
  intros Hne result.
  unfold _pygmentize_lines. destruct lines as [|line lines]; [congruence|].
  change (map JStr (line :: lines)) with (JStr line :: map JStr lines).
  change (JStr line :: map JStr lines) with (map JStr (line :: lines)).
  rewrite for_each_strings. cbn [and_then]. rewrite map_map.
  change (map (fun x => if String.eqb (without_newlines x) EmptyString
                        then " "%string else without_newlines x) (line :: lines))
    with (map cleaned (line :: lines)).
  fold result. unfold len at 1. rewrite length_map. reflexivity.
Qed.

Lemma find_added (f : string * json -> bool) (d : dict) (x : string * json) :
  List.find f (d ++ [x]) =
  match List.find f d with
  | Some y => Some y
  | None => if f x then Some x else None
  end.
Proof.
  induction d as [|y d IH]; simpl; [reflexivity|]. destruct (f y); [reflexivity | exact IH].
Qed.

Lemma find_none_existsb (f : string * json -> bool) (d : dict) :
  existsb f d = false -> List.find f d = None.
Proof.
  induction d as [|y d IH]; simpl; [reflexivity|].
  destruct (f y); [discriminate | exact IH].
Qed.

Lemma find_replaced_other (d : dict) (key key' : string) (v : json) :
  String.eqb key key' = false ->
  List.find (fun kv => String.eqb (fst kv) key')
    (map (fun r => if String.eqb (fst r) key then (key, v) else r) d) =
  List.find (fun kv => String.eqb (fst kv) key') d.
Proof.
  intros Hk. induction d as [|y d IH]; simpl; [reflexivity|].
  destruct (String.eqb (fst y) key) eqn:Ey; simpl.
  - apply String.eqb_eq in Ey. rewrite Ey, Hk. exact IH.
  - now rewrite IH.
Qed.

Lemma find_replaced_same (d : dict) (key : string) (v : json) :
  existsb (fun kv => String.eqb (fst kv) key) d = true ->
  List.find (fun kv => String.eqb (fst kv) key)
    (map (fun r => if String.eqb (fst r) key then (key, v) else r) d) =
  Some (key, v).
Proof.
  induction d as [|y d IH]; simpl; [discriminate|].
  destruct (String.eqb (fst y) key) eqn:Ey; simpl.
  - now rewrite String.eqb_refl.
  - now rewrite Ey.
Qed.

(** [d[key] = v] and then a look at [key']: the new value for the key that
    was set, and what the dict held for any other. *)
Lemma find_setitem (d : dict) (key key' : string) (v : json) :
  List.find (fun kv => String.eqb (fst kv) key') (Views.setitem d key v) =
  if String.eqb key key' then Some (key, v)
  else List.find (fun kv => String.eqb (fst kv) key') d.
Proof.
  unfold Views.setitem, Views.save_row.
  destruct (String.eqb key key') eqn:Ek.
  - apply String.eqb_eq in Ek. subst key'.
    destruct (existsb (fun kv => String.eqb (fst kv) key) d) eqn:E.
    + now apply find_replaced_same.
    + rewrite find_added, (find_none_existsb _ _ E). simpl. now rewrite String.eqb_refl.
  - destruct (existsb (fun kv => String.eqb (fst kv) key) d) eqn:E.
    + now apply find_replaced_other.
    + rewrite find_added. simpl. rewrite Ek.
      now destruct (List.find (fun kv => String.eqb (fst kv) key') d).
Qed.

Lemma dict_get_setitem (d : dict) (key key' : string) (v default : json) :
  dict_get (Views.setitem d key v) key' default =
  if String.eqb key key' then v else dict_get d key' default.
Proof.
  unfold dict_get. rewrite find_setitem. now destruct (String.eqb key key').
Qed.

Lemma dict_getitem_setitem (d : dict) (key key' : string) (v : json) :
  dict_getitem (Views.setitem d key v) key' =
  if String.eqb key key' then Gives v else dict_getitem d key'.
Proof.
  unfold dict_getitem. rewrite find_setitem. now destruct (String.eqb key key').
Qed.

Lemma len_map {B C : Type} (f : B -> C) (l : list B) : len (map f l) = len l.
Proof. unfold len. now rewrite length_map. Qed.

Lemma three_parts {B : Type} (parts : list (list B)) (before after : Z) :
  map len parts = [before; 1; after] ->
  exists first line last,
    parts = [first; [line]; last] /\ len first = before /\ len last = after.
Proof.
  destruct parts as [|first [|middle [|last [|more parts]]]]; try discriminate.
  simpl. intros H. injection H as H1 H2 H3.
  destruct middle as [|line [|more middle]]; try discriminate.
  - exists first, line, last. auto.
  - unfold len in H2. simpl in H2. lia.
Qed.

(** X16: [pygmentize] on a frame whose context is made of strings.  The
    filter hands the highlighter the lines without their newlines, an empty
    line as one space, joined by newlines: a text of as many lines as the
    frame has.  When the highlighter gives back another number of lines than
    it got, the filter raises [AssertionError].  When it gives back as many,
    the filter succeeds, and the assertion of [_split] does not fail either:
    the lines go, in their order, to [pre_context], [context_line] and
    [post_context], as many to each as it held; the other keys of the frame
    are as they were, and so is the frame's [firstlineno]. *)
Theorem pygmentize_keeps_the_lines (value : dict) (pre post : list string)
    (ctx : string) :
  dict_get value "pre_context" (JArr []) = JArr (map JStr pre) ->
  dict_get value "context_line" JNull = JStr ctx ->
  dict_get value "post_context" (JArr []) = JArr (map JStr post) ->
  let code := String.concat newline (map cleaned (pre ++ ctx :: post)) in
  let result := removelast (split (_core_pygments code)) in
  split code = map cleaned (pre ++ ctx :: post) /\
  (List.length result <> List.length (pre ++ ctx :: post) ->
   pygmentize _core_pygments value = Raises (Exn AssertionError)) /\
  (List.length result = List.length (pre ++ ctx :: post) ->
   exists (pre' post' : list string) (ctx' : string) (value' : dict),
     pygmentize _core_pygments value = Gives value' /\
     dict_get value' "pre_context" (JArr []) = JArr (map JStr pre') /\
     dict_get value' "context_line" JNull = JStr ctx' /\
     dict_get value' "post_context" (JArr []) = JArr (map JStr post') /\
     List.length pre' = List.length pre /\
     List.length post' = List.length post /\
     pre' ++ ctx' :: post' = result /\
     (forall key default,
         key <> "pre_context"%string -> key <> "context_line"%string ->
         key <> "post_context"%string ->
         dict_get value' key default = dict_get value key default) /\
     firstlineno value' = firstlineno value).
Proof.
  intros Hpre Hctx Hpost code result.
  assert (Hitem : dict_getitem value "context_line" = Gives (JStr ctx)).
  { unfold dict_getitem, dict_get in *.
    destruct (List.find (fun kv => String.eqb (fst kv) "context_line") value);
      [now rewrite Hctx | discriminate]. }
  assert (Hlines : _pygmentize_lines _core_pygments (map JStr (pre ++ ctx :: post)) =
                   if len (pre ++ ctx :: post) =? len result
                   then Gives result else Raises (Exn AssertionError)).
  { apply pygmentize_lines_strings. now destruct pre. }
  assert (Hrun : pygmentize _core_pygments value =
                 (lines <- _pygmentize_lines _core_pygments (map JStr (pre ++ ctx :: post)) ;;
                  parts <- _split lines [len pre; 1; len post] ;;
                  match parts with
                  | [pre_context; context_lines; post_context] =>
                      let value :=
                        Views.setitem value "pre_context" (mark_safe_all pre_context) in
                      match context_lines with
                      | first :: _ =>
                          let value := Views.setitem value "context_line" (JStr first) in
                          let value :=
                            Views.setitem value "post_context"
                              (mark_safe_all post_context) in
                          Gives value
                      | [] => Raises IndexError
                      end
                  | _ => Raises ValueError
                  end)).
  { unfold pygmentize. rewrite Hctx, Hitem, Hpre, Hpost.
    cbn [Parsers.is_None and_then list_add py_len].
    rewrite !len_map.
    replace ((map JStr pre ++ [JStr ctx]) ++ map JStr post)
      with (map JStr (pre ++ ctx :: post)).
    2: { rewrite map_app. simpl. now rewrite <- app_assoc. }
    reflexivity. }
  split; [|split].
  - apply split_joined_lines.
    + destruct pre; discriminate.
    + apply Forall_forall. intros line Hin. apply in_map_iff in Hin.
      destruct Hin as (l & <- & _). apply cleaned_has_no_newline.
  - intros Hlen. rewrite Hrun, Hlines.
    destruct (len (pre ++ ctx :: post) =? len result) eqn:E; [|reflexivity].
    apply Z.eqb_eq in E. unfold len in E. elim Hlen. lia.
  - intros Hlen. rewrite Hrun, Hlines.
    replace (len (pre ++ ctx :: post) =? len result) with true
      by (symmetry; apply Z.eqb_eq; unfold len; now rewrite Hlen).
    cbn [and_then].
    destruct (split_loop_cuts result [len pre; 1; len post] 0) as [Hparts Hcat].
    { lia. }
    { repeat constructor; try apply len_nonneg. lia. }
    { unfold total, len. cbn [fold_right]. rewrite Hlen, length_app.
      cbn [List.length]. lia. }
    destruct (three_parts _ _ _ Hparts) as (pre' & ctx' & post' & Hp & Hl1 & Hl2).
    exists pre', post', ctx'. eexists. split.
    + unfold _split. rewrite Hp. simpl map. rewrite Hl1, Hl2.
      rewrite (proj2 (ints_eqb_eq _ _) eq_refl). cbn [and_then]. reflexivity.
    + assert (Hpre' : List.length pre' = List.length pre) by (unfold len in Hl1; lia).
      assert (Hpost' : List.length post' = List.length post) by (unfold len in Hl2; lia).
      rewrite !dict_get_setitem. cbn [String.eqb Ascii.eqb Bool.eqb].
      split; [reflexivity|]. split; [reflexivity|]. split; [reflexivity|].
      split; [exact Hpre'|]. split; [exact Hpost'|]. split.
      * rewrite Hp in Hcat. cbn [List.concat] in Hcat. rewrite app_nil_r in Hcat.
        change (pre' ++ [ctx'] ++ post') with (pre' ++ ctx' :: post') in Hcat.
        rewrite Hcat. change (Z.to_nat 0) with 0%nat. cbn [skipn].
        apply firstn_all2. unfold total, len. cbn [fold_right].
        rewrite Hlen, length_app. cbn [List.length]. lia.
      * split.
        -- intros key default H1 H2 H3. rewrite !dict_get_setitem.
           apply String.eqb_neq in H1, H2, H3.
           rewrite (String.eqb_sym "pre_context" key),
             (String.eqb_sym "context_line" key),
             (String.eqb_sym "post_context" key), H1, H2, H3. reflexivity.
        -- unfold firstlineno. rewrite !dict_get_setitem, !dict_getitem_setitem.
           cbn [String.eqb Ascii.eqb Bool.eqb]. rewrite Hpre.
           unfold mark_safe_all. cbn [py_len]. now rewrite !len_map, Hl1.
Qed.

End Pygmentize.

Section FilterExamples.
Import Templatetags.

(** The sample frame.  With a highlighter that gives the code back, ended
    by a newline: three lines before the highlighter and after it, and the
    first line of the context is line 10 both times.  With a highlighter that
    ends its output by one newline too many: four lines for three, and the
    assertion fails. *)
Lemma pygmentize_keeps_the_lines_witness :
  (exists value',
     pygmentize Sample.echo Sample.frame = Gives value' /\
     dict_get value' "pre_context" (JArr []) = JArr [JStr "def f():"; JStr " "] /\
     dict_get value' "filename" JNull = JStr "views.py" /\
     firstlineno value' = Gives (JNum 10)) /\
  pygmentize Sample.one_newline_too_many Sample.frame = Raises (Exn AssertionError).
Proof.
  split.
  - destruct (pygmentize_keeps_the_lines Sample.echo Sample.frame
                ["def f():"%string; EmptyString] ["# end"%string] "    return g()"
                eq_refl eq_refl eq_refl) as (_ & _ & Hsame).
    destruct (Hsame eq_refl)
      as (pre' & post' & ctx' & value' & Hv & Hpre & _ & _ & _ & _ & Hlines & Hkeys & Hno).
    exists value'. split; [exact Hv|].
    assert (Hpre' : pre' = ["def f():"%string; " "%string]).
    { vm_compute in Hv. injection Hv as <-.
      destruct pre' as [|x [|y [|z pre']]]; try discriminate.
      cbv in Hpre. now injection Hpre as <- <-. }
    rewrite Hpre, Hpre', Hno, Hkeys by discriminate. repeat split; reflexivity.
  - destruct (pygmentize_keeps_the_lines Sample.one_newline_too_many Sample.frame
                ["def f():"%string; EmptyString] ["# end"%string] "    return g()"
                eq_refl eq_refl eq_refl) as (_ & Hother & _).
    apply Hother. vm_compute. discriminate.
Defined.

(** Four lines cut into parts of 1, 1 and 2; lengths that ask for more than
    there is fail the assertion. *)
Example split_of_four_lines :
  _split ["a"; "b"; "c"; "d"]%string [1; 1; 2] =
    Gives [["a"]; ["b"]; ["c"; "d"]]%string /\
  _split ["a"; "b"; "c"; "d"]%string [1; 1; 3] = Raises (Exn AssertionError) /\
  _split ["a"; "b"; "c"; "d"]%string [2; -1; 1] = Raises (Exn AssertionError).
Proof. repeat split; reflexivity. Qed.

End FilterExamples.

(** ** Sort epochs as an invariant of the table of releases *)

Section Epochs.
Import Releases.
Local Set Default Proof Using "Type".

Variable Version : Type.
Variable Version_parse : string -> option Version.
Variable order_by_sort_epoch_last : list Row -> option Row.

(** The first save of a release with a new id adds one row: the release,
    with [is_semver] computed from its version and the sort epoch that the
    last release of the project's highest epoch decides. *)
Lemma first_save_appends (self self' : Release) (objects objects' : list Row) :
  picks_a_highest order_by_sort_epoch_last ->
  is_semver self = None ->
  (forall r, In r objects -> row_id r <> id self) ->
  save Version Version_parse order_by_sort_epoch_last self objects = Ok (self', objects') ->
  exists row,
    objects' = objects ++ [row] /\
    row_project row = project self /\
    row_version row = version self /\
    row_is_semver row = is_valid_semver Version Version_parse (version self) /\
    match order_by_sort_epoch_last (filter_project (project self) objects) with
    | None =>
        (forall r, In r objects -> row_project r <> project self) /\
        row_sort_epoch row = 0
    | Some last =>
        In last objects /\ row_project last = project self /\
        (forall r, In r objects -> row_project r = project self ->
                   row_sort_epoch r <= row_sort_epoch last) /\
        row_sort_epoch row =
          if Bool.eqb (row_is_semver row) (row_is_semver last)
          then row_sort_epoch last else row_sort_epoch last + 1
    end.
Proof.
  intros [Hnone Hsome] Hunset Hfresh. unfold save. rewrite Hunset.
  set (semver := is_valid_semver Version Version_parse (version self)).
  set (existing := filter_project (project self) objects).
  assert (Happend : forall epoch,
    match super_save (with_epoch self semver epoch) objects with
    | Ok o => Ok (with_epoch self semver epoch, o)
    | Err e => Err e
    end = Ok (self', objects') ->
    objects' = objects ++ [to_row self semver epoch]).
  { intros epoch. unfold super_save. simpl.
    destruct (breaks_unique_together _ objects); [discriminate|].
    destruct (existsb _ objects) eqn:Ex.
    - apply existsb_exists in Ex. destruct Ex as (r & Hin & Hid).
      apply Z.eqb_eq in Hid. simpl in Hid. now elim (Hfresh r Hin).
    - intros H. now injection H as _ <-. }
  destruct (order_by_sort_epoch_last existing) as [last|] eqn:Hpick.
  - destruct (Hsome _ _ Hpick) as [Hin Hmax].
    apply in_filter_project in Hin. destruct Hin as [Hin Hp].
    assert (Hmax' : forall r, In r objects -> row_project r = project self ->
                              row_sort_epoch r <= row_sort_epoch last).
    { intros r Hr Hrp. apply Hmax. now apply in_filter_project. }
    destruct (Bool.eqb semver (row_is_semver last)) eqn:E; intros H;
      apply Happend in H; eexists; (split; [exact H|]); simpl; rewrite E;
      repeat split; auto.
  - pose proof (Hnone _ Hpick) as Hempty. intros H. apply Happend in H.
    eexists. split; [exact H|]. simpl. repeat split; auto.
    intros r Hr Hp. assert (Hin : In r existing) by now apply in_filter_project.
    rewrite Hempty in Hin. exact Hin.
Qed.

Lemma sort_keys_of_one_kind (objects : list Row) (r1 r2 : Row) :
  semver_is_computed Version Version_parse objects ->
  epochs_are_uniform objects ->
  In r1 objects -> In r2 objects ->
  same_project (row_project r1) (row_project r2) = true ->
  exists k1 k2,
    sort_key Version Version_parse r1 = Some k1 /\
    sort_key Version Version_parse r2 = Some k2 /\
    fst k1 = row_sort_epoch r1 /\ fst k2 = row_sort_epoch r2 /\
    (fst k1 = fst k2 ->
     match snd k1, snd k2 with
     | inl _, inl _ | inr _, inr _ => True
     | _, _ => False
     end).
Proof.
  intros Hc Hu H1 H2 Hp.
  assert (Hkey : forall r, In r objects ->
    exists k, sort_key Version Version_parse r = Some k /\ fst k = row_sort_epoch r /\
              (if row_is_semver r then exists v, snd k = inl v
               else exists d, snd k = inr d)).
  { intros r Hr. unfold sort_key. pose proof (Hc r Hr) as Hs.
    unfold is_valid_semver in Hs.
    destruct (row_is_semver r).
    - destruct (Version_parse (row_version r)) as [v|]; [|discriminate].
      eexists. repeat split. now exists v.
    - eexists. repeat split. eexists. reflexivity. }
  destruct (Hkey r1 H1) as (k1 & K1 & E1 & S1).
  destruct (Hkey r2 H2) as (k2 & K2 & E2 & S2).
  exists k1, k2. repeat split; auto.
  intros He. rewrite E1, E2 in He. pose proof (Hu r1 r2 H1 H2 Hp He) as Hsame.
  rewrite <- Hsame in S2.
  destruct (row_is_semver r1); destruct S1 as [x1 ->]; destruct S2 as [x2 ->]; exact I.
Qed.

(** X17: the first save of a release keeps the sort epochs uniform.  In a
    table where [is_semver] is computed from the version and where the
    releases of one project in one sort epoch are semantic versions all or
    none, saving a new release for the first time gives such a table again.
    The sort keys of two releases of one project can then be computed, and
    when their epochs are equal their second items are two versions or two
    dates, never one of each. *)
Theorem save_keeps_epochs_uniform (self self' : Release) (objects objects' : list Row) :
  picks_a_highest order_by_sort_epoch_last ->
  is_semver self = None ->
  (forall r, In r objects -> row_id r <> id self) ->
  semver_is_computed Version Version_parse objects ->
  epochs_are_uniform objects ->
  save Version Version_parse order_by_sort_epoch_last self objects = Ok (self', objects') ->
  semver_is_computed Version Version_parse objects' /\
  epochs_are_uniform objects' /\
  (forall r1 r2,
      In r1 objects' -> In r2 objects' ->
      same_project (row_project r1) (row_project r2) = true ->
      exists k1 k2,
        sort_key Version Version_parse r1 = Some k1 /\
        sort_key Version Version_parse r2 = Some k2 /\
        fst k1 = row_sort_epoch r1 /\ fst k2 = row_sort_epoch r2 /\
        (fst k1 = fst k2 ->
         match snd k1, snd k2 with
         | inl _, inl _ | inr _, inr _ => True
         | _, _ => False
         end)).
Proof.
  intros Hpick Hunset Hfresh Hc Hu Hsave.
  destruct (first_save_appends _ _ _ _ Hpick Hunset Hfresh Hsave)
    as (row & -> & Hp & Hv & Hs & Hlast).
  assert (Hc' : semver_is_computed Version Version_parse (objects ++ [row])).
  { intros r Hr. apply in_app_or in Hr. destruct Hr as [Hr|[<-|[]]]; [now apply Hc|].
    now rewrite Hs, Hv. }
  assert (Hnew : forall r, In r objects ->
    same_project (row_project r) (row_project row) = true ->
    row_sort_epoch r = row_sort_epoch row -> row_is_semver r = row_is_semver row).
  { intros r Hr Hsame He. apply same_project_eq in Hsame. rewrite Hp in Hsame.
    destruct (order_by_sort_epoch_last (filter_project (project self) objects))
      as [last|].
    - destruct Hlast as (Hin & Hpl & Hmax & Hepoch).
      pose proof (Hmax r Hr Hsame) as Hle.
      destruct (Bool.eqb (row_is_semver row) (row_is_semver last)) eqn:E; [|lia].
      apply Bool.eqb_prop in E. rewrite E. apply (Hu r last Hr Hin).
      + rewrite Hsame, Hpl. apply same_project_refl.
      + lia.
    - destruct Hlast as [Hnone _]. now elim (Hnone r Hr). }
  assert (Hu' : epochs_are_uniform (objects ++ [row])).
  { intros r1 r2 H1 H2 Hsame He.
    apply in_app_or in H1. apply in_app_or in H2.
    destruct H1 as [H1|[<-|[]]]; destruct H2 as [H2|[<-|[]]].
    - now apply Hu.
    - now apply Hnew.
    - symmetry. apply Hnew; auto.
      apply same_project_eq in Hsame. rewrite Hsame. apply same_project_refl.
    - reflexivity. }
  split; [exact Hc'|]. split; [exact Hu'|].
  intros r1 r2 H1 H2 Hsame. now apply (sort_keys_of_one_kind (objects ++ [row])).
Qed.

(** X18: the first save of a release keeps the sort epochs of each project
    starting at 0, without a gap, and alternating: the new release is in
    epoch 0, or a release of its project is in the epoch below and is of the
    other kind (a semantic version when the new one is not, and the other
    way round). *)
Theorem save_keeps_epochs_alternating (self self' : Release)
    (objects objects' : list Row) :
  picks_a_highest order_by_sort_epoch_last ->
  is_semver self = None ->
  (forall r, In r objects -> row_id r <> id self) ->
  epochs_alternate objects ->
  save Version Version_parse order_by_sort_epoch_last self objects = Ok (self', objects') ->
  epochs_alternate objects'.
Proof.
  intros Hpick Hunset Hfresh Halt Hsave.
  destruct (first_save_appends _ _ _ _ Hpick Hunset Hfresh Hsave)
    as (row & -> & Hp & Hv & Hs & Hlast).
  intros r Hr. apply in_app_or in Hr. destruct Hr as [Hr|[<-|[]]].
  - destruct (Halt r Hr) as [H0 Hbelow]. split; [exact H0|].
    intros Hpos. destruct (Hbelow Hpos) as (r' & Hin & Hrest).
    exists r'. split; [apply in_or_app; now left | exact Hrest].
  - destruct (order_by_sort_epoch_last (filter_project (project self) objects))
      as [last|].
    + destruct Hlast as (Hin & Hpl & Hmax & Hepoch).
      destruct (Halt last Hin) as [H0 Hbelow].
      destruct (Bool.eqb (row_is_semver row) (row_is_semver last)) eqn:E.
      * apply Bool.eqb_prop in E. split; [lia|]. intros Hpos.
        destruct Hbelow as (r' & Hin' & Hp' & He' & Hs'); [lia|].
        exists r'. split; [apply in_or_app; now left|].
        split; [now rewrite Hp, <- Hpl|]. split; [lia | now rewrite E].
      * split; [lia|]. intros _. exists last.
        split; [apply in_or_app; now left|].
        split; [rewrite Hp, Hpl; apply same_project_refl|].
        split; [lia|]. apply Bool.eqb_false_iff in E.
        destruct (row_is_semver row), (row_is_semver last); auto; now elim E.
    + destruct Hlast as [_ ->]. split; [lia | lia].
Qed.

End Epochs.

Section EpochExamples.
Import Releases.

(** A nightly build saved after the release 1.0.0. *)
Lemma save_keeps_epochs_uniform_witness :
  let objects' := [Sample.release_row 1 "1.0.0" true 0;
                   Sample.release_row 2 "nightly" false 1] in
  semver_is_computed unit (Views.Version_parse Sample.env) objects' /\
  epochs_are_uniform objects'.
Proof.
  cbv zeta.
  destruct (save_keeps_epochs_uniform unit (Views.Version_parse Sample.env)
              last_of_highest_epoch (Sample.new_release 2 "nightly")
              (with_epoch (Sample.new_release 2 "nightly") false 1)
              [Sample.release_row 1 "1.0.0" true 0]
              [Sample.release_row 1 "1.0.0" true 0; Sample.release_row 2 "nightly" false 1])
    as (Hc & Hu & _).
  - exact last_of_highest_epoch_picks_a_highest.
  - reflexivity.
  - intros r [<-|[]]. discriminate.
  - intros r [<-|[]]. reflexivity.
  - intros r1 r2 [<-|[]] [<-|[]] _ _. reflexivity.
  - reflexivity.
  - split; assumption.
Defined.

Lemma save_keeps_epochs_alternating_witness :
  epochs_alternate [Sample.release_row 1 "1.0.0" true 0;
                    Sample.release_row 2 "nightly" false 1].
Proof.
  apply (save_keeps_epochs_alternating unit (Views.Version_parse Sample.env)
           last_of_highest_epoch (Sample.new_release 2 "nightly")
           (with_epoch (Sample.new_release 2 "nightly") false 1)
           [Sample.release_row 1 "1.0.0" true 0]).
  - exact last_of_highest_epoch_picks_a_highest.
  - reflexivity.
  - intros r [<-|[]]. discriminate.
  - intros r [<-|[]]. simpl. split; lia.
  - reflexivity.
Defined.

End EpochExamples.

(** ** Digestion and the table of projects *)

Section ProjectCounter.
Import Views.
Local Open Scope tx_scope.
Local Set Default Proof Using "Type".

Variable env : Collaborators.

(** Eviction and unmuting, which the views import, leave the projects
    alone. *)
Hypothesis evict_keeps_projects :
  forall project timestamp count db,
    projects (evict_for_max_events env project timestamp count db) = projects db.
Hypothesis unmute_keeps_projects :
  forall issue event unmute_metadata db,
    projects (snd (unmute env issue event unmute_metadata db)) = projects db.
















Lemma tx_bind_assoc {A B C : Type} (m : tx A) (k : A -> tx B) (h : B -> tx C) (db : DB) :
  tx_bind (tx_bind m k) h db = tx_bind m (fun a => tx_bind (k a) h) db.
Proof. unfold tx_bind. now destruct (m db) as [[a|e] db1]. Qed.





End ProjectCounter.

Section ProjectCounterExamples.
Import Views.



End ProjectCounterExamples.

(** ** What the parser keeps between calls *)

Section Buffer.
Import Parsers Pending.
Local Set Default Proof Using "Type".

Variable json_loads : bytes -> loads_result.
Variable output_stream_factory : json -> bytes.

Lemma read_at_most (s : bytes) (c : Z) :
  0 <= c -> len (fst (read s c)) <= c.
Proof.
  intros Hc. unfold read. destruct (c <? 0) eqn:E; [lia|]. simpl.
  unfold len. rewrite length_firstn. lia.
Qed.

Lemma readuntil_loop_buffer (fuel : nat) :
  forall (s out : bytes) (finder : Finder) (c : Z) (s' o r' : bytes) (e : bool),
    0 <= c ->
    readuntil_loop fuel s finder out c = Return (s', o, (r', e)) ->
    len r' <= c.
Proof.
  induction fuel as [|fuel IH]; intros s out finder c s' o r' e Hc;
    cbn [readuntil_loop]; [discriminate|].
  pose proof (read_at_most s c Hc) as Hread.
  destruct (read s c) as [chunk s1]. simpl in Hread. destruct chunk as [|b chunk].
  - destruct (error_for_eof finder); [discriminate|].
    intros H. injection H as _ _ <- _. exact Hc.
  - destruct (process finder out (b :: chunk)) as [[[finder' out'] [done rem]]|e'|] eqn:P;
      cbn [bind]; [|discriminate|discriminate].
    destruct done.
    + intros H. injection H as _ _ <- _.
      destruct (process_consumes _ _ _ _ _ _ _ P) as [Hrem _].
      unfold len in *. lia.
    + intros H. exact (IH _ _ _ _ _ _ _ _ Hc H).
Qed.

(** [readuntil] hands back, as the remainder, no more than the longer of the
    chunk it was handed and one chunk of the stream. *)
Lemma readuntil_buffer (s r out : bytes) (finder : Finder) (c : Z)
    (s' o r' : bytes) (e : bool) :
  0 <= c -> len r <= c ->
  readuntil s r finder out c = Return (s', o, (r', e)) ->
  len r' <= c.
Proof.
  intros Hc Hr. unfold readuntil.
  destruct (process finder out r) as [[[finder' out'] [done rem]]|e'|] eqn:P;
    cbn [bind]; [|discriminate|discriminate].
  destruct done.
  - intros H. injection H as _ _ <- _.
    destruct (process_consumes _ _ _ _ _ _ _ P) as [Hrem _]. unfold len in *. lia.
  - intros H. exact (readuntil_loop_buffer _ _ _ _ _ _ _ _ _ Hc H).
Qed.

Lemma parse_headers_buffer (p p' : StreamingEnvelopeParser) (eof_is_error : bool)
    (h : json) :
  0 <= chunk_size p -> len (remainder p) <= chunk_size p ->
  _parse_headers json_loads p eof_is_error = Return (h, p') ->
  chunk_size p' = chunk_size p /\ len (remainder p') <= chunk_size p' /\
  envelope_headers p' = envelope_headers p.
Proof.
  intros Hc Hr. unfold _parse_headers.
  destruct (readuntil (input_stream p) (remainder p) NewlineFinder [] (chunk_size p))
    as [[[s o] [r f]]|e|] eqn:R; cbn [bind]; [|discriminate|discriminate].
  pose proof (readuntil_buffer _ _ _ _ _ _ _ _ _ Hc Hr R) as Hr'.
  destruct (f && is_empty o);
    [|destruct (f && eof_is_error); [discriminate|];
      destruct (json_loads o); [|discriminate|discriminate]];
    intros H; injection H as _ <-; simpl; auto.
Qed.

Lemma next_item_buffer (p p' : StreamingEnvelopeParser) (item : option (json * bytes)) :
  0 <= chunk_size p -> len (remainder p) <= chunk_size p ->
  next_item json_loads output_stream_factory p = Return (item, p') ->
  chunk_size p' = chunk_size p /\ len (remainder p') <= chunk_size p' /\
  envelope_headers p' = envelope_headers p.
Proof.
  intros Hc Hr. unfold next_item.
  destruct (_parse_headers json_loads p true) as [[h q]|e|] eqn:P; cbn [bind];
    [|discriminate|discriminate].
  destruct (parse_headers_buffer _ _ _ _ Hc Hr P) as (Hcq & Hrq & Hhq).
  destruct (is_None h).
  { intros H. injection H as _ <-. simpl. rewrite Hcq in *. auto. }
  destruct (contains h "length") as [has|e|]; cbn [bind]; [|discriminate|discriminate].
  destruct ((if has
             then length <- getitem h "length" ;;
                  Return (LengthFinder length
                            (Some "EOF while reading item with explicitly specified length")
                            0)
             else Return NewlineFinder)) as [finder|e|]; cbn [bind];
    [|discriminate|discriminate].
  destruct (readuntil (input_stream q) (remainder q) finder
              (output_stream_factory h) (chunk_size q))
    as [[[s1 o1] [r1 e1]]|e|] eqn:R1; cbn [bind]; [|discriminate|discriminate].
  assert (Hcq' : 0 <= chunk_size q) by lia.
  pose proof (readuntil_buffer _ _ _ _ _ _ _ _ _ Hcq' Hrq R1) as Hr1.
  cbn [set_stream input_stream remainder chunk_size].
  destruct has; cbn [bind].
  - destruct (readuntil s1 r1 NewlineFinder [] (chunk_size q))
      as [[[s2 o2] [r2 e2]]|e|] eqn:R2; cbn [bind]; [|discriminate|discriminate].
    pose proof (readuntil_buffer _ _ _ _ _ _ _ _ _ Hcq' Hr1 R2) as Hr2.
    intros H. injection H as _ <-. simpl. rewrite Hcq in *. auto.
  - intros H. injection H as _ <-. simpl. rewrite Hcq in *. auto.
Qed.

Lemma get_items_loop_buffer (fuel : nat) :
  forall (p p' : StreamingEnvelopeParser) (items : list (json * bytes)),
    0 <= chunk_size p -> len (remainder p) <= chunk_size p ->
    get_items_loop json_loads output_stream_factory fuel p = (items, Return p') ->
    chunk_size p' = chunk_size p /\ len (remainder p') <= chunk_size p' /\
    envelope_headers p' = envelope_headers p.
Proof.
  induction fuel as [|fuel IH]; intros p p' items Hc Hr; cbn [get_items_loop];
    (destruct (at_eof p); [intros H; injection H as _ <-; auto|]); [discriminate|].
  destruct (next_item json_loads output_stream_factory p) as [[[item|] q]|e|] eqn:N;
    [| |discriminate|discriminate].
  - destruct (next_item_buffer _ _ _ Hc Hr N) as (Hcq & Hrq & Hhq).
    destruct (get_items_loop json_loads output_stream_factory fuel q) as [items' ending] eqn:L.
    intros H. injection H as _ ->.
    assert (Hcq' : 0 <= chunk_size q) by lia.
    destruct (IH _ _ _ Hcq' Hrq L) as (Hc' & Hr' & Hh').
    rewrite Hc', Hh' in *. auto.
  - intros H. injection H as _ <-. exact (next_item_buffer _ _ _ Hc Hr N).
Qed.

(** X20: the parser holds back at most one chunk.  With a chunk size that is
    not negative, the remainder a parser keeps between calls is never longer
    than the chunk size: this holds for a new parser, and reading the
    envelope headers, reading an item and running the items generator to its
    end all keep it; they keep the chunk size as well. *)
Theorem the_parser_holds_back_one_chunk (p : StreamingEnvelopeParser) :
  0 <= chunk_size p ->
  len (remainder p) <= chunk_size p ->
  (forall headers p',
      get_envelope_headers json_loads p = Return (headers, p') ->
      chunk_size p' = chunk_size p /\ len (remainder p') <= chunk_size p') /\
  (forall item p',
      next_item json_loads output_stream_factory p = Return (item, p') ->
      chunk_size p' = chunk_size p /\ len (remainder p') <= chunk_size p') /\
  (forall items p',
      get_items json_loads output_stream_factory p = (items, Return p') ->
      chunk_size p' = chunk_size p /\ len (remainder p') <= chunk_size p').
Proof.
  intros Hc Hr.
  assert (G : forall headers p',
    get_envelope_headers json_loads p = Return (headers, p') ->
    chunk_size p' = chunk_size p /\ len (remainder p') <= chunk_size p').
  { intros headers p'. unfold get_envelope_headers.
    destruct (is_None (envelope_headers p)).
    - destruct (_parse_headers json_loads p false) as [[h q]|e|] eqn:P; cbn [bind];
        [|discriminate|discriminate].
      destruct (parse_headers_buffer _ _ _ _ Hc Hr P) as (Hcq & Hrq & _).
      cbn [envelope_headers]. destruct (is_None h); [discriminate|].
      intros H. injection H as _ <-. simpl. rewrite Hcq in *. auto.
    - intros H. injection H as _ <-. auto. }
  split; [exact G|]. split.
  - intros item p' N. destruct (next_item_buffer _ _ _ Hc Hr N) as (H1 & H2 & _). auto.
  - intros items p'. unfold get_items.
    destruct (get_envelope_headers json_loads p) as [[h q]|e|] eqn:E;
      [|discriminate|discriminate].
    destruct (G _ _ eq_refl) as [Hcq Hrq]. intros L.
    assert (Hcq' : 0 <= chunk_size q) by lia.
    destruct (get_items_loop_buffer _ _ _ _ Hcq' Hrq L) as (H1 & H2 & _).
    rewrite H1, Hcq in *. auto.
Qed.

(** X21: the envelope headers are read once.  After a call of
    [get_envelope_headers] that returned, a second call returns the same
    headers and leaves the parser as it is, reading nothing; and the items
    generator yields the same items, and ends the same way, whether or not
    the headers were asked for before. *)
Theorem envelope_headers_are_read_once (p p' : StreamingEnvelopeParser) (headers : json) :
  get_envelope_headers json_loads p = Return (headers, p') ->
  get_envelope_headers json_loads p' = Return (headers, p') /\
  get_items json_loads output_stream_factory p' =
    get_items json_loads output_stream_factory p.
Proof.
  intros G.
  assert (G' : get_envelope_headers json_loads p' = Return (headers, p')).
  { revert G. unfold get_envelope_headers.
    destruct (is_None (envelope_headers p)) eqn:En.
    - destruct (_parse_headers json_loads p false) as [[h q]|e|]; cbn [bind];
        [|discriminate|discriminate].
      cbn [envelope_headers]. destruct (is_None h) eqn:Eh; [discriminate|].
      intros H. injection H as <- <-. cbn [envelope_headers]. now rewrite Eh.
    - intros H. injection H as <- <-. now rewrite En. }
  split; [exact G'|]. unfold get_items. now rewrite G, G'.
Qed.

End Buffer.

Section BufferExamples.
Import Parsers Pending.

(** The headers of an envelope, read two bytes at a time: the newline comes
    as the first byte of the second chunk, and one byte is held back. *)
Lemma the_parser_holds_back_one_chunk_witness :
  let p := new (Sample.b "{}" ++ Sample.nl ++ Sample.b "{}" ++ Sample.nl
                ++ Sample.b "abc") 2 in
  exists headers p',
    get_envelope_headers Sample.loads p = Return (headers, p') /\
    chunk_size p' = 2 /\ len (remainder p') <= 2.
Proof.
  cbv zeta.
  destruct (get_envelope_headers Sample.loads
              (new (Sample.b "{}" ++ Sample.nl ++ Sample.b "{}" ++ Sample.nl
                    ++ Sample.b "abc") 2)) as [[headers p']|e|] eqn:G;
    try (vm_compute in G; discriminate).
  exists headers, p'. split; [reflexivity|].
  destruct (the_parser_holds_back_one_chunk Sample.loads (fun _ => [])
              (new (Sample.b "{}" ++ Sample.nl ++ Sample.b "{}" ++ Sample.nl
                    ++ Sample.b "abc") 2)) as (Hheaders & _ & _);
    [simpl; lia | simpl; unfold len; simpl; lia |].
  destruct (Hheaders headers p' G) as [Hc Hr]. simpl in Hc. rewrite Hc in Hr.
  split; assumption.
Defined.

Lemma envelope_headers_are_read_once_witness :
  let p := new (Sample.b "{}" ++ Sample.nl ++ Sample.b "{}" ++ Sample.nl
                ++ Sample.b "abc") 2 in
  exists headers p',
    get_envelope_headers Sample.loads p = Return (headers, p') /\
    get_envelope_headers Sample.loads p' = Return (headers, p') /\
    get_items Sample.loads (fun _ => []) p' = get_items Sample.loads (fun _ => []) p.
Proof.
  cbv zeta.
  destruct (get_envelope_headers Sample.loads
              (new (Sample.b "{}" ++ Sample.nl ++ Sample.b "{}" ++ Sample.nl
                    ++ Sample.b "abc") 2)) as [[headers p']|e|] eqn:G;
    try (vm_compute in G; discriminate).
  exists headers, p'. split; [reflexivity|].
  exact (envelope_headers_are_read_once Sample.loads (fun _ => []) _ p' headers G).
Defined.

End BufferExamples.

(** ** Groupings and their issues *)

Section Groupings.
Import Views.
Local Open Scope tx_scope.
Local Set Default Proof Using "Type".

Variable env : Collaborators.

Lemma fresh_id_is_new (ids : list Z) (x : Z) : In x ids -> x < fresh_id ids.
Proof.
  intros Hin. unfold fresh_id.
  destruct (fold_max_spec ids 0) as [_ Hmax].
  specialize (Hmax x (or_intror Hin)). lia.
Qed.

Lemma filter_added {A : Type} (f : A -> bool) (l : list A) (x : A) :
  filter f (l ++ [x]) = filter f l ++ (if f x then [x] else []).
Proof. rewrite filter_app. reflexivity. Qed.

Lemma filter_none {A : Type} (f : A -> bool) (l : list A) :
  existsb f l = false -> filter f l = [].
Proof.
  induction l as [|x l IH]; simpl; [reflexivity|].
  destruct (f x); [discriminate | exact IH].
Qed.

Lemma filter_some {A : Type} (f : A -> bool) (l : list A) :
  existsb f l = true -> filter f l <> [].
Proof.
  induction l as [|x l IH]; simpl; [discriminate|].
  destruct (f x); [discriminate | exact IH].
Qed.

Lemma one_row {A : Type} (rows : list A) :
  rows <> [] -> len rows <= 1 -> exists row, rows = [row].
Proof.
  destruct rows as [|row [|more rows]]; unfold len; simpl; intros Hne Hlen;
    [congruence | now exists row | lia].
Qed.

(** X22: in a database whose groupings and issues hang together, the lookup
    of the event's issue never fails: neither [Grouping.objects.get] nor
    [grouping.issue] raises.  The issue is the one the event's grouping
    names, or a new one with a new grouping; the database hangs together
    afterwards as well, and when the grouping was there nothing is
    written. *)
Theorem grouping_lookup_never_fails (event_metadata : EventMetadata)
    (timestamp : datetime) (key : string) (fields : list (string * json)) (db : DB) :
  groupings_consistent db ->
  exists issue created db',
    find_or_create_issue env event_metadata timestamp key fields db =
      (Ok (issue, created), db') /\
    groupings_consistent db' /\
    (created = false -> db' = db) /\
    (exists g,
        In g (groupings db') /\
        grouping_project_id g = md_project_id event_metadata /\
        grouping_key g = key /\ grouping_issue_id g = issue_id issue) /\
    (exists i, In i (issues db') /\ issue_id i = issue_id issue).
Proof.
  intros (Hg & Hi & Href). unfold find_or_create_issue.
  set (same_grouping := fun g : Grouping =>
         (grouping_project_id g =? md_project_id event_metadata)
         && String.eqb (grouping_key g) key).
  unfold tx_bind at 1. cbn [get].
  destruct (existsb same_grouping (groupings db)) eqn:Ex; cbn [negb].
  - pose proof (filter_some _ _ Ex) as Hne.
    destruct (one_row _ Hne (Hg _ _)) as (g & Hfg).
    assert (Hin : In g (filter same_grouping (groupings db)))
      by (rewrite Hfg; now left).
    apply filter_In in Hin. destruct Hin as [Hin Hsame].
    destruct (Href g Hin) as (i & Hini & Hid).
    assert (Hne' : filter (fun i => issue_id i =? grouping_issue_id g) (issues db) <> []).
    { intros Hnil. assert (Hf : In i (filter (fun i => issue_id i =? grouping_issue_id g)
                                         (issues db))).
      { apply filter_In. split; [exact Hini | now apply Z.eqb_eq]. }
      now rewrite Hnil in Hf. }
    destruct (one_row _ Hne' (Hi _)) as (i' & Hfi).
    assert (Hi' : In i' (filter (fun i => issue_id i =? grouping_issue_id g) (issues db)))
      by (rewrite Hfi; now left).
    apply filter_In in Hi'. destruct Hi' as [Hini' Hid']. apply Z.eqb_eq in Hid'.
    exists (seen_again i' timestamp), false, db.
    fold same_grouping. rewrite Hfg. unfold tx_bind, get_one, ret. rewrite Hfi.
    split; [reflexivity|]. split; [repeat split; auto|]. split; [reflexivity|].
    apply andb_true_iff in Hsame. destruct Hsame as [Hp Hk].
    apply Z.eqb_eq in Hp. apply String.eqb_eq in Hk.
    split; [exists g; auto | exists i'; auto].
  - eexists. exists true. eexists. split; [reflexivity|].
    cbn [groupings issues set_groupings set_issues issue_id grouping_issue_id
         grouping_project_id grouping_key].
    split; [|split; [discriminate|]].
    + split; [|split].
      * intros pid k. cbn [groupings set_groupings]. rewrite filter_added.
        cbn [grouping_project_id grouping_key].
        destruct ((md_project_id event_metadata =? pid) && String.eqb key k) eqn:E.
        -- apply andb_true_iff in E. destruct E as [Ep Ek].
           apply Z.eqb_eq in Ep. apply String.eqb_eq in Ek. subst pid k.
           fold same_grouping. rewrite (filter_none _ _ Ex). unfold len. simpl. lia.
        -- rewrite app_nil_r. apply Hg.
      * intros id. cbn [issues set_issues set_groupings]. rewrite filter_added.
        cbn [issue_id].
        destruct (fresh_id (map issue_id (issues db)) =? id) eqn:E.
        -- apply Z.eqb_eq in E. subst id.
           replace (filter _ (issues db)) with (@nil Issue); [unfold len; simpl; lia|].
           symmetry. apply filter_none. apply not_true_is_false. intros Hex.
           apply existsb_exists in Hex. destruct Hex as (i & Hin & Heq).
           apply Z.eqb_eq in Heq.
           pose proof (fresh_id_is_new (map issue_id (issues db)) (issue_id i)
                         (in_map _ _ _ Hin)). lia.
        -- rewrite app_nil_r. apply Hi.
      * intros g Hin. cbn [groupings issues set_groupings set_issues] in *.
        apply in_app_or in Hin. destruct Hin as [Hin|[<-|[]]].
        -- destruct (Href g Hin) as (i & Hini & Hid). exists i.
           split; [apply in_or_app; now left | exact Hid].
        -- eexists. split; [apply in_or_app; right; now left | reflexivity].
    + split.
      * eexists. split; [apply in_or_app; right; now left|]. repeat split.
      * eexists. split; [apply in_or_app; right; now left | reflexivity].
Qed.

End Groupings.

Section GroupingExamples.
Import Views.

(** A project with one issue and the grouping that names it.  An event with
    the key of that grouping: the grouping and its issue are looked up, the
    issue comes back seen again, and nothing is written. *)
Lemma grouping_lookup_never_fails_witness :
  let db :=
    set_groupings
      (set_issues (Sample.database (Sample.project 1 3 None) [Sample.event 1 "e1"])
         [Sample.issue 1 0 false []])
      [{| grouping_project_id := 1; grouping_key := "Error: boom";
          grouping_issue_id := 1 |}] in
  find_or_create_issue Sample.env (Sample.metadata "500") 500 "Error: boom" [] db =
    (Ok (seen_again (Sample.issue 1 0 false []) 500, false), db).
Proof.
  cbv zeta.
  destruct (grouping_lookup_never_fails Sample.env (Sample.metadata "500") 500
              "Error: boom" []
              (set_groupings
                 (set_issues
                    (Sample.database (Sample.project 1 3 None) [Sample.event 1 "e1"])
                    [Sample.issue 1 0 false []])
                 [{| grouping_project_id := 1; grouping_key := "Error: boom";
                     grouping_issue_id := 1 |}]))
    as (issue & created & db' & Hfind & _ & Hsame & (g & Hg & _ & _ & Hid) & _).
  - split; [|split].
    + intros pid key. cbn [groupings set_groupings filter].
      destruct (_ && _); unfold len; simpl; lia.
    + intros id. cbn [issues set_issues set_groupings filter].
      destruct (_ =? _); unfold len; simpl; lia.
    + intros g [<-|[]]. exists (Sample.issue 1 0 false []).
      split; [now left | reflexivity].
  - rewrite Hfind. pose proof Hfind as Hrun. vm_compute in Hrun.
    injection Hrun as <- <- <-. reflexivity.
Defined.

End GroupingExamples.

(** ** The releases of a project in their order *)

Section OrderedReleases.
Import Releases.
Local Set Default Proof Using "Type".

Variable Version : Type.
Variable Version_parse : string -> option Version.
Variable Version_eqb : Version -> Version -> bool.
Variable Version_ltb : Version -> Version -> bool.

Lemma sort_key_of_a_row (r : Row) (k : Z * (Version + datetime)) :
  sort_key Version Version_parse r = Some k ->
  fst k = row_sort_epoch r /\
  (if row_is_semver r then exists v, snd k = inl v else exists d, snd k = inr d).
Proof.
  unfold sort_key. destruct (row_is_semver r).
  - destruct (Version_parse (row_version r)) as [v|]; [|discriminate].
    intros H. injection H as <-. split; [reflexivity | now exists v].
  - intros H. injection H as <-. split; [reflexivity | eexists; reflexivity].
Qed.

Lemma keyed_rows (releases : list Row) :
  (forall r, In r releases -> exists k, sort_key Version Version_parse r = Some k) ->
  exists keys,
    keyed Version Version_parse releases = Gives keys /\
    map snd keys = releases /\
    Forall (fun kr => sort_key Version Version_parse (snd kr) = Some (fst kr)) keys.
Proof.
  induction releases as [|r releases IH]; intros Hkeys; simpl.
  - exists []. repeat split. constructor.
  - destruct (Hkeys r (or_introl eq_refl)) as (k & Hk). rewrite Hk.
    destruct IH as (keys & -> & Hrows & Hall); [intros r' Hr'; apply Hkeys; now right|].
    exists ((k, r) :: keys). simpl. rewrite Hrows. repeat split. now constructor.
Qed.

Lemma all_comparable_intro (keys : list (Z * (Version + datetime))) :
  (forall k1 k2, In k1 keys -> In k2 keys ->
                 key_lt Version Version_eqb Version_ltb k1 k2 <> None) ->
  all_comparable Version Version_eqb Version_ltb keys = true.
Proof.
  induction keys as [|k keys IH]; intros H; simpl; [reflexivity|].
  apply andb_true_iff. split.
  - apply forallb_forall. intros k' Hk'.
    specialize (H k k' (or_introl eq_refl) (or_intror Hk')).
    now destruct (key_lt Version Version_eqb Version_ltb k k').
  - apply IH. intros k1 k2 H1 H2. apply H; now right.
Qed.

Lemma insert_permutation (x : Z * (Version + datetime) * Row)
    (l : list (Z * (Version + datetime) * Row)) :
  Permutation (insert Version Version_eqb Version_ltb x l) (x :: l).
Proof.
  induction l as [|y l IH]; simpl; [reflexivity|].
  destruct (key_lt Version Version_eqb Version_ltb (fst y) (fst x)) as [[|]|];
    try reflexivity.
  rewrite IH. apply perm_swap.
Qed.

Lemma sort_permutation (keys : list (Z * (Version + datetime) * Row)) :
  Permutation (fold_right (insert Version Version_eqb Version_ltb) [] keys) keys.
Proof.
  induction keys as [|x keys IH]; simpl; [reflexivity|].
  rewrite insert_permutation. now constructor.
Qed.

Lemma key_lt_epochs (k1 k2 : Z * (Version + datetime)) :
  (key_lt Version Version_eqb Version_ltb k1 k2 = Some true -> fst k1 <= fst k2) /\
  (key_lt Version Version_eqb Version_ltb k1 k2 <> Some true -> fst k2 <= fst k1).
Proof.
  unfold key_lt. destruct (fst k1 =? fst k2) eqn:E; simpl.
  - apply Z.eqb_eq in E. split; intros _; lia.
  - apply Z.eqb_neq in E. destruct (fst k1 <? fst k2) eqn:L.
    + split; [intros _; lia | intros H; now elim H].
    + split; [discriminate | intros _; lia].
Qed.

Lemma insert_sorted (x : Z * (Version + datetime) * Row)
    (l : list (Z * (Version + datetime) * Row)) :
  StronglySorted (fun a b => fst (fst a) <= fst (fst b)) l ->
  StronglySorted (fun a b => fst (fst a) <= fst (fst b))
    (insert Version Version_eqb Version_ltb x l).
Proof.
  induction l as [|y l IH]; intros Hs; simpl.
  - constructor; constructor.
  - inversion Hs as [|? ? Hl Hy]; subst.
    destruct (key_lt_epochs (fst y) (fst x)) as [Hlt Hnlt].
    destruct (key_lt Version Version_eqb Version_ltb (fst y) (fst x)) as [[|]|] eqn:E.
    + constructor; [now apply IH|].
      apply (Permutation_Forall (Permutation_sym (insert_permutation x l))).
      constructor; [now apply Hlt | exact Hy].
    + constructor; [exact Hs|].
      assert (Hxy : fst (fst x) <= fst (fst y)) by (apply Hnlt; discriminate).
      constructor; [exact Hxy|].
      apply Forall_forall. intros z Hz.
      pose proof (proj1 (Forall_forall _ _) Hy z Hz). simpl in *. lia.
    + constructor; [exact Hs|].
      assert (Hxy : fst (fst x) <= fst (fst y)) by (apply Hnlt; discriminate).
      constructor; [exact Hxy|].
      apply Forall_forall. intros z Hz.
      pose proof (proj1 (Forall_forall _ _) Hy z Hz). simpl in *. lia.
Qed.

Lemma sort_sorted (keys : list (Z * (Version + datetime) * Row)) :
  StronglySorted (fun a b => fst (fst a) <= fst (fst b))
    (fold_right (insert Version Version_eqb Version_ltb) [] keys).
Proof.
  induction keys as [|x keys IH]; simpl; [constructor | now apply insert_sorted].
Qed.

Lemma sorted_rows (l : list (Z * (Version + datetime) * Row)) :
  Forall (fun kr => fst (fst kr) = row_sort_epoch (snd kr)) l ->
  StronglySorted (fun a b => fst (fst a) <= fst (fst b)) l ->
  StronglySorted (fun r1 r2 => row_sort_epoch r1 <= row_sort_epoch r2) (map snd l).
Proof.
  intros Hinv Hs. induction Hs as [|a l Hl IH Ha]; simpl; [constructor|].
  inversion Hinv as [|? ? Hia Hil]; subst.
  constructor; [now apply IH|].
  apply Forall_forall. intros r Hr. apply in_map_iff in Hr.
  destruct Hr as (b & <- & Hb).
  pose proof (proj1 (Forall_forall _ _) Ha b Hb) as Hab.
  pose proof (proj1 (Forall_forall _ _) Hil b Hb) as Hib.
  simpl in *. lia.
Qed.

(** X23: the releases of one project can be ordered.  In a table where
    [is_semver] is computed from the version and the sort epochs are
    uniform, as [Release.save] keeps it, [ordered_releases] for a project
    raises neither [ValueError] nor [TypeError]; it gives the releases of
    the project, each one once, with their sort epochs in non-decreasing
    order. *)
Theorem ordered_releases_of_a_project (project : option Z) (objects : list Row) :
  semver_is_computed Version Version_parse objects ->
  epochs_are_uniform objects ->
  exists ordered,
    ordered_releases Version Version_parse Version_eqb Version_ltb
      (fun r => same_project (row_project r) project) objects = Gives ordered /\
    Permutation ordered (filter_project project objects) /\
    StronglySorted (fun r1 r2 => row_sort_epoch r1 <= row_sort_epoch r2) ordered.
Proof.
  intros Hc Hu. unfold ordered_releases, sorted_by_sort_key.
  fold (filter_project project objects).
  assert (Hin : forall r, In r (filter_project project objects) ->
                          In r objects /\ row_project r = project).
  { intros r Hr. unfold filter_project in Hr. apply filter_In in Hr.
    destruct Hr as [Hr Hp]. split; [exact Hr | now apply same_project_eq]. }
  destruct (keyed_rows (filter_project project objects)) as (keys & -> & Hrows & Hkeys).
  { intros r Hr. destruct (Hin r Hr) as [Hobj _]. pose proof (Hc r Hobj) as Hs.
    unfold sort_key, is_valid_semver in *.
    destruct (row_is_semver r); [|eexists; reflexivity].
    destruct (Version_parse (row_version r)); [eexists; reflexivity | discriminate]. }
  assert (Hentry : forall kr, In kr keys ->
    In (snd kr) objects /\ row_project (snd kr) = project /\
    fst (fst kr) = row_sort_epoch (snd kr) /\
    (if row_is_semver (snd kr) then exists v, snd (fst kr) = inl v
     else exists d, snd (fst kr) = inr d)).
  { intros kr Hkr. pose proof (proj1 (Forall_forall _ _) Hkeys kr Hkr) as Hk.
    destruct (sort_key_of_a_row _ _ Hk) as [He Hkind].
    destruct (Hin (snd kr)) as [Hobj Hp]; [rewrite <- Hrows; now apply in_map|]. auto. }
  rewrite all_comparable_intro.
  - eexists. split; [reflexivity|]. split.
    + rewrite <- Hrows. apply Permutation_map. apply sort_permutation.
    + apply sorted_rows; [|apply sort_sorted].
      apply (Permutation_Forall (Permutation_sym (sort_permutation keys))).
      apply Forall_forall. intros kr Hkr. now destruct (Hentry kr Hkr) as (_ & _ & He & _).
  - intros k1 k2 H1 H2. apply in_map_iff in H1, H2.
    destruct H1 as (kr1 & <- & H1). destruct H2 as (kr2 & <- & H2).
    destruct (Hentry kr1 H1) as (Ho1 & Hp1 & He1 & Hk1).
    destruct (Hentry kr2 H2) as (Ho2 & Hp2 & He2 & Hk2).
    unfold key_lt. destruct (fst (fst kr1) =? fst (fst kr2)) eqn:E; simpl; [|discriminate].
    apply Z.eqb_eq in E.
    assert (Hsame : row_is_semver (snd kr1) = row_is_semver (snd kr2)).
    { apply Hu; auto; [rewrite Hp1, Hp2; apply same_project_refl | lia]. }
    rewrite <- Hsame in Hk2.
    destruct (row_is_semver (snd kr1)); destruct Hk1 as [x1 ->]; destruct Hk2 as [x2 ->];
      discriminate.
Qed.

End OrderedReleases.

Section OrderedReleasesExamples.
Import Releases.

(** A nightly build in epoch 1, saved before the second release of
    epoch 0. *)
Lemma ordered_releases_of_a_project_witness :
  let objects := [Sample.release_row 1 "1.0.0" true 0;
                  Sample.release_row 2 "nightly" false 1;
                  Sample.release_row 3 "1.0.0" true 0] in
  exists ordered,
    ordered_releases unit (Views.Version_parse Sample.env)
      (fun _ _ => true) (fun _ _ => false)
      (fun r => same_project (row_project r) (Some 1)) objects = Gives ordered /\
    Permutation ordered (filter_project (Some 1) objects) /\
    StronglySorted (fun r1 r2 => row_sort_epoch r1 <= row_sort_epoch r2) ordered.
Proof.
  cbv zeta.
  apply (ordered_releases_of_a_project unit (Views.Version_parse Sample.env)
           (fun _ _ => true) (fun _ _ => false) (Some 1)).
  - intros r [<-|[<-|[<-|[]]]]; reflexivity.
  - intros r1 r2 [<-|[<-|[<-|[]]]] [<-|[<-|[<-|[]]]] _ He; try reflexivity;
      simpl in He; discriminate.
Defined.

(** Without the filter on the project the order can fail: two projects, each
    with one release in its epoch 0, one a semantic version and one not. *)
Example ordered_releases_of_two_projects :
  ordered_releases unit (Views.Version_parse Sample.env)
    (fun _ _ => true) (fun _ _ => false) (fun _ => true)
    [Sample.release_row 1 "1.0.0" true 0;
     {| row_id := 2; row_project := Some 2; row_version := "nightly";
        row_date_released := 0; row_is_semver := false; row_sort_epoch := 0 |}] =
  Raises (Exn TypeError).
Proof. reflexivity. Qed.

End OrderedReleasesExamples.

(** ** The endpoint for one event *)

Section StoreEndpoint.
Import Views.
Local Open Scope tx_scope.
Local Set Default Proof Using "Type".

Variable env : Collaborators.
Variable parse_auth_header_value : string -> option (list (string * string)).
Variable get_object_or_404 : Z -> option string -> DB -> option Project.
Variable format_timestamp : datetime -> string.
Variable datetime_now : datetime.
Variable read_event : HttpRequest -> bytes + failure.
Variable json_loads : bytes -> loads_result.
Variable is_ValidationError : exn -> bool.
Variable str : failure -> string.

Lemma over_quota_returns (event_metadata : EventMetadata) (event_data : json)
    (project : Project) (until : datetime) (db : DB) :
  quota_exceeded_until project = Some until ->
  parse_timestamp env (md_timestamp event_metadata) < until ->
  digest_event env event_metadata event_data (Some project) db = (Ok tt, db).
Proof.
  intros Huntil Hbefore.
  assert (Hover : over_quota project (parse_timestamp env (md_timestamp event_metadata))
                  = true).
  { unfold over_quota. rewrite Huntil. now apply Z.ltb_lt. }
  assert (Hcount : count_project_periods_and_act_on_it env project
            (parse_timestamp env (md_timestamp event_metadata)) db
          = (Ok (false, project), db)).
  { unfold count_project_periods_and_act_on_it. now rewrite Hover. }
  unfold digest_event, immediate_atomic, digest_event_body, digest_until_event.
  rewrite (tx_bind_assoc _ _ _ db). unfold tx_bind at 1. cbn [ret].
  rewrite (tx_bind_assoc _ _ _ db). now rewrite (tx_bind_ok _ _ _ _ _ Hcount).
Qed.

(** X24: what the endpoint for one event answers, for a request that names
    its key in the query string or in the [X-Sentry-Auth] header.  Without a
    key, with a key that finds no project, or with a body that is not JSON,
    [post] raises and the database is as it was.  A body over the size
    limits gives the response 400 with the message of the exception.  An
    event for a project that is over its quota gives the response 200, as
    for an event that is digested, and the database is as it was: this
    endpoint does not answer 429. *)
Theorem the_event_endpoint_answers (request : HttpRequest) (project_pk : Z) (db : DB) :
  let post := post env parse_auth_header_value get_object_or_404 format_timestamp
                datetime_now read_event json_loads is_ValidationError str in
  let sentry_key := get_sentry_key_for_request parse_auth_header_value request in
  (lookup "sentry_key" (GET request) = None ->
   lookup "HTTP_X_SENTRY_AUTH" (META request) = None ->
   post request project_pk db = (inr Uncaught, db)) /\
  (forall key, lookup "sentry_key" (GET request) = Some key ->
               sentry_key = inl (Some key)) /\
  (forall key,
      sentry_key = inl key ->
      get_object_or_404 project_pk key db = None ->
      post request project_pk db = (inr Uncaught, db)) /\
  (forall key project,
      sentry_key = inl key ->
      get_object_or_404 project_pk key db = Some project ->
      (forall message,
          read_event request = inr (MaxLengthExceeded message) ->
          post request project_pk db =
            (inl (JsonResponse (str (MaxLengthExceeded message)) 400), db)) /\
      (forall body,
          read_event request = inl body ->
          (forall event_data, json_loads body <> Decoded event_data) ->
          post request project_pk db = (inr Uncaught, db)) /\
      (forall body event_data until,
          read_event request = inl body ->
          json_loads body = Decoded event_data ->
          quota_exceeded_until project = Some until ->
          parse_timestamp env (format_timestamp datetime_now) < until ->
          post request project_pk db = (inl (Response 200), db))).
Proof.
  cbv zeta. unfold post, IngestEventAPIView_post, get_project_for_request, get_project.
  split; [|split; [|split]].
  - intros Hget Hmeta. unfold get_sentry_key_for_request. now rewrite Hget, Hmeta.
  - intros key Hget. unfold get_sentry_key_for_request. now rewrite Hget.
  - intros key -> ->. reflexivity.
  - intros key project -> ->. split; [|split].
    + intros message ->. reflexivity.
    + intros body -> Hnot. destruct (json_loads body) as [v| |]; [|reflexivity|reflexivity].
      now elim (Hnot v).
    + intros body event_data until -> -> Huntil Hbefore.
      now rewrite (over_quota_returns _ _ _ until db Huntil).
Qed.

End StoreEndpoint.

Section StoreEndpointExamples.
Import Views.

(** An event for a project whose quota is exceeded until 1000, sent at 500
    with the key in the query string: the response is 200, and nothing is
    written. *)
Example an_event_over_quota_is_answered_200 :
  let db := Sample.database (Sample.project 7 9 (Some 1000)) [Sample.event 1 "e1"] in
  let request := {| GET := [("sentry_key", "secret")]; META := [] |} in
  post Sample.env (fun _ => None)
    (fun pk _ db => List.find (fun p => project_id p =? pk) (projects db))
    (fun _ => "500"%string) 500 (fun _ => inl (Sample.b "{}")) Sample.loads
    (fun e => match e with ValidationError _ _ => true | _ => false end)
    (fun _ => "message"%string) request 1 db =
  (inl (Response 200), db).
Proof. reflexivity. Qed.

End StoreEndpointExamples.
